(** * bblua: the file-discovery engine (glob.cc, dircache.cc)

    A shallow embedding of the pattern matcher, the directory cache, the
    glob dispatch and the include/exclude aggregation, and of the command
    line of button-lua.cc, with the properties its specification states
    about them and further properties of the code. *)

From Equations Require Import Equations.
From Stdlib Require Import ZArith Ascii String List Lia Bool.
From stdpp Require Import base option list sorting gmap strings.

Local Open Scope string_scope.

#[local] Arguments String.append !s1 s2 : simpl nomatch.

(** ** Strings as the C code reads them

    A [Path] is a view [(path, length)] over bytes; the code moves through
    it by index and builds sub-views with [Path(path + i, length - i)].
    The helpers below are those index operations on [string]. *)

Definition Path := string.

(** [Path(p.path + n, p.length - n)]: the view that starts [n] bytes in. *)
Fixpoint str_drop (n : nat) (s : string) : string :=
  match n, s with
  | O, _ => s
  | S n', String _ s' => str_drop n' s'
  | S _, EmptyString => EmptyString
  end.

(** The bytes [s[0 .. n)]. *)
Fixpoint str_take (n : nat) (s : string) : string :=
  match n, s with
  | S n', String c s' => String c (str_take n' s')
  | _, _ => EmptyString
  end.

(** The loop [while (end < length && s[end] != c) ++end], counted from the
    start of [s]: [None] when it runs to the end ([end == length]). *)
Fixpoint str_find (c : ascii) (s : string) : option nat :=
  match s with
  | EmptyString => None
  | String x s' => if Ascii.eqb x c then Some O else S <$> str_find c s'
  end.

Fixpoint str_existsb (f : ascii -> bool) (s : string) : bool :=
  match s with
  | EmptyString => false
  | String x s' => f x || str_existsb f s'
  end.

Fixpoint str_fold {A} (f : A -> ascii -> A) (s : string) (a : A) : A :=
  match s with
  | EmptyString => a
  | String x s' => str_fold f s' (f a x)
  end.

(** The views [Path(p.path + i, p.length - i)] for [i = 0 .. length - 1],
    in the order a loop [for (; i < p.length; ++i)] visits them. *)
Fixpoint str_suffixes (s : string) : list string :=
  match s with
  | EmptyString => []
  | String _ s' => s :: str_suffixes s'
  end.

Lemma str_drop_length n s : String.length (str_drop n s) <= String.length s.
Proof.
  revert s. induction n as [|n IH]; intros [|c s]; simpl; try lia.
  specialize (IH s). lia.
Qed.

(** ** glob.cc: the pattern matcher *)

Module Glob.

(** [tolower] in the C locale. *)
Definition tolower (c : ascii) : ascii :=
  let n := nat_of_ascii c in
  if (65 <=? n)%nat && (n <=? 90)%nat then ascii_of_nat (n + 32) else c.

(** [charCmp<CaseSensitive>(a, b)]: the difference of the two characters.
    The matcher only asks whether it is zero. *)
Definition charCmp (CaseSensitive : bool) (a b : ascii) : Z :=
  if CaseSensitive
  then (Z.of_nat (nat_of_ascii a) - Z.of_nat (nat_of_ascii b))%Z
  else (Z.of_nat (nat_of_ascii (tolower a)) - Z.of_nat (nat_of_ascii (tolower b)))%Z.

(** The loop over the characters between the brackets:
    [if (!match && charCmp(path[i], pattern[j]) == 0) match = true]. *)
Definition bracketScan (CaseSensitive : bool) (c : ascii) (cls : string) : bool :=
  str_fold (fun m x => if negb m && (charCmp CaseSensitive c x =? 0)%Z then true else m)
           cls false.

(** [globMatch<CaseSensitive>(path, pattern)].  The [for] loop over [j]
    with its cursor [i] into the path is the recursion on the rest of the
    pattern and the rest of the path; the recursive call of the [*] case is
    made, as in the code, on the views [Path(path + i, ..)] and
    [Path(pattern + j + 1, ..)]. *)
Equations? globMatch (CaseSensitive : bool) (path pattern : Path) : bool
  by wf (String.length pattern) lt :=
  globMatch cs path EmptyString :=
    (* ran out of pattern: [return i == path.length] *)
    match path with EmptyString => true | _ => false end;
  globMatch cs path (String c pat) :=
    if Ascii.eqb c "?" then
      match path with
      | EmptyString => false
      | String _ path' => globMatch cs path' pat
      end
    else if Ascii.eqb c "*" then
      match pat with
      | EmptyString => true
      | _ => existsb (fun sub => globMatch cs sub pat) (str_suffixes path)
      end
    else if Ascii.eqb c "[" then
      match path with
      | EmptyString => false
      | String p0 path' =>
          match pat with
          | EmptyString => false            (* [++j == pattern.length] *)
          | String c1 _ =>
              let invert := Ascii.eqb c1 "!" in
              (* [j] after the optional [!] *)
              let rest := if invert then str_drop 1 pat else pat in
              if invert && (String.length rest =? 0)%nat then false
              else
                match str_find "]" rest with
                | None => false             (* [end == pattern.length] *)
                | Some e =>
                    let matched := bracketScan cs p0 (str_take e rest) in
                    if Bool.eqb matched invert then false
                    else globMatch cs path' (str_drop (S e) rest)
                end
          end
      end
    else
      match path with
      | EmptyString => false
      | String p0 path' =>
          if (charCmp cs p0 c =? 0)%Z then globMatch cs path' pat else false
      end.
Proof.
  all: try (simpl; lia).
  pose proof (str_drop_length (S e) rest) as H1.
  pose proof (str_drop_length 1 pat) as H2.
  subst rest. destruct invert; simpl in *; lia.
Qed.

(** The public entry point: case-insensitive when built for Windows. *)
Definition globMatch_public (win32 : bool) (path pattern : Path) : bool :=
  globMatch (negb win32) path pattern.

End Glob.

(** ** path.h: the path primitive

    [path.h] is not among the files embedded here; [glob.cc] and
    [dircache.cc] use it through [split], [join], [norm], [compare] and the
    default constructor.  The definitions of this module follow the
    contract that the specification gives for the primitive (POSIX
    separator). *)

Module PathPrim.

Definition isSep (c : ascii) : bool := Ascii.eqb c "/".

(** Index just past the last separator of [s] ([0] when there is none). *)
Fixpoint tailStart (s : string) (i acc : nat) : nat :=
  match s with
  | EmptyString => acc
  | String c s' => tailStart s' (S i) (if isSep c then S i else acc)
  end.

(** [s] without the separators that end it. *)
Fixpoint rstripSep (s : string) : string :=
  match s with
  | EmptyString => EmptyString
  | String c s' =>
      match rstripSep s' with
      | EmptyString => if isSep c then EmptyString else String c EmptyString
      | r => String c r
      end
  end.

(** Modelled from the spec: [Path::split] of path.h, "[split()] → (head,
    tail) where tail is the final path component and head is everything
    before it".  The separators between the two belong to neither, except
    when head is made of separators only (the root). *)
Definition split (p : Path) : Path * Path :=
  let k := tailStart p 0 0 in
  let before := str_take k p in
  let head := match rstripSep before with EmptyString => before | h => h end in
  (head, str_drop k p).

Fixpoint lastChar (s : string) : option ascii :=
  match s with
  | EmptyString => None
  | String c EmptyString => Some c
  | String _ s' => lastChar s'
  end.

(** Modelled from the spec: [Path::join] of path.h, "appends this view's
    bytes to a growing buffer with the platform path separator".  The
    separator stands between the buffer and the appended bytes; an empty
    buffer, or one that already ends with a separator, gets none. *)
Definition join (p : Path) (buf : string) : string :=
  match lastChar buf with
  | None => p
  | Some c => if isSep c then buf ++ p else buf ++ String "/" p
  end.

(** The components of [s]: the pieces between separators. *)
Fixpoint components (s : string) : list string :=
  match s with
  | EmptyString => [EmptyString]
  | String c s' =>
      if isSep c then EmptyString :: components s'
      else match components s' with
           | [] => [String c EmptyString]
           | x :: r => String c x :: r
           end
  end.

(** One component pushed on the (reversed) list of kept components. *)
Definition normStep (absolute : bool) (kept : list string) (comp : string) : list string :=
  if String.eqb comp "" || String.eqb comp "." then kept
  else if String.eqb comp ".." then
    match kept with
    | [] => if absolute then [] else [comp]
    | top :: below => if String.eqb top ".." then comp :: kept else below
    end
  else comp :: kept.

Fixpoint joinComponents (l : list string) : string :=
  match l with
  | [] => EmptyString
  | [x] => x
  | x :: r => x ++ String "/" (joinComponents r)
  end.

(** Modelled from the spec: [Path::norm] of path.h, "canonical string form
    (used as cache key so equivalent paths collapse to one entry)": empty
    and [.] components are dropped, [..] cancels the component before it. *)
Definition norm (p : Path) : string :=
  let absolute := match p with String c _ => isSep c | EmptyString => false end in
  let kept := fold_left (normStep absolute) (components p) [] in
  (if absolute then "/" else "") ++ joinComponents (rev kept).

(** Modelled from the spec: [Path::compare] of path.h, the
    "lexicographic/ordinal comparison" of the bytes: negative, zero or
    positive. *)
Definition compare (a b : Path) : Z :=
  match String.compare a b with
  | Lt => (-1)%Z
  | Eq => 0%Z
  | Gt => 1%Z
  end.

(** [operator<] and [operator==], as [std::sort] and [std::unique] use them. *)
Definition lt (a b : Path) : bool := (compare a b <? 0)%Z.
Definition eq (a b : Path) : bool := (compare a b =? 0)%Z.

(** Modelled from the spec: the default constructor of [Path] in path.h; a
    view is a pointer and a length, and the default one has length zero. *)
Definition default : Path := EmptyString.

End PathPrim.

(** ** dircache.h, dircache.cc: directory listings and their cache *)

Record DirEntry := { name : string; isDir : bool }.

Definition DirEntries := list DirEntry.

(** [operator<(DirEntry, DirEntry)]: [std::tie(a.name, a.isDir) <
    std::tie(b.name, b.isDir)], that is the tuple order
    [a.name < b.name || (!(b.name < a.name) && a.isDir < b.isDir)]. *)
Definition DirEntry_lt (a b : DirEntry) : bool :=
  String.ltb (name a) (name b)
  || (negb (String.ltb (name b) (name a)) && (negb (isDir a) && isDir b)).

(** [a] may stand before [b] in a sorted vector: [!(b < a)]. *)
Definition DirEntry_le (a b : DirEntry) : Prop := DirEntry_lt b a = false.

#[export] Instance DirEntry_le_dec : RelDecision DirEntry_le.
Proof. intros a b. unfold DirEntry_le. apply _. Defined.

(** The order that the specification names, "sorted by (name, isDir)":
    by name, and for one name the entry that is no directory first. *)
Definition by_name_then_isDir (a b : DirEntry) : Prop :=
  String.ltb (name a) (name b) = true
  \/ (name a = name b /\ Bool.le (isDir a) (isDir b)).

(** [std::sort(entries.begin(), entries.end())]. *)
Definition sortEntries (l : DirEntries) : DirEntries := merge_sort DirEntry_le l.

(** *** What the operating system answers *)

(** [d_type] of a [struct dirent]. *)
Inductive d_type :=
  DT_UNKNOWN | DT_FIFO | DT_CHR | DT_DIR | DT_BLK | DT_REG | DT_LNK | DT_SOCK | DT_WHT.

(** [st_mode & S_IFMT] of a [struct stat]. *)
Inductive st_fmt :=
  S_IFIFO | S_IFCHR | S_IFDIR | S_IFBLK | S_IFREG | S_IFLNK | S_IFSOCK | S_IFnone.

(** One answer of [readdir], with what [fstatat] says about the entry
    ([None] when it fails). *)
Record dirent := { d_name : string; d_kind : d_type; d_stat : option st_fmt }.

(** The file system, as [opendir] and [readdir] show it: for a path,
    [None] when the directory cannot be opened, otherwise the entries in
    the order [readdir] hands them out. *)
Definition FileSystem := string -> option (list dirent).

(** [isDotOrDotDot(p)]: the first character is a dot, and either the name
    ends there or the second one is a dot and the name ends after it. *)
Definition isDotOrDotDot (p : string) : bool :=
  match p with
  | String c0 r0 =>
      Ascii.eqb c0 "." &&
      match r0 with
      | EmptyString => true
      | String c1 r1 =>
          Ascii.eqb c1 "." && match r1 with EmptyString => true | _ => false end
      end
  | EmptyString => false
  end.

(** The [DT_UNKNOWN] branch of the [readdir] loop. *)
Definition entryType (e : dirent) : d_type :=
  match d_kind e with
  | DT_UNKNOWN =>
      match d_stat e with
      | Some S_IFIFO => DT_FIFO
      | Some S_IFCHR => DT_CHR
      | Some S_IFDIR => DT_DIR
      | Some S_IFBLK => DT_BLK
      | Some S_IFREG => DT_REG
      | Some S_IFLNK => DT_LNK
      | Some S_IFSOCK => DT_SOCK
      | _ => DT_UNKNOWN
      end
  | t => t
  end.

Definition isDT_DIR (t : d_type) : bool :=
  match t with DT_DIR => true | _ => false end.

(** The [while ((entry = readdir(dir)))] loop: the entries pushed back. *)
Fixpoint readdirLoop (raw : list dirent) : DirEntries :=
  match raw with
  | [] => []
  | e :: raw' =>
      if isDotOrDotDot (d_name e) then readdirLoop raw'
      else {| name := d_name e; isDir := isDT_DIR (entryType e) |} :: readdirLoop raw'
  end.

(** The free function [dirEntries(path)] (POSIX branch). *)
Definition dirEntries (fs : FileSystem) (path : string) : DirEntries :=
  match fs (if (0 <? String.length path)%nat then path else ".") with
  | None => []                       (* [if (!dir) return entries;] *)
  | Some raw => sortEntries (readdirLoop raw)
  end.

(** [isGlobPattern(p)]. *)
Definition isGlobChar (c : ascii) : bool :=
  Ascii.eqb c "?" || Ascii.eqb c "*" || Ascii.eqb c "[".

Definition isGlobPattern (p : Path) : bool := str_existsb isGlobChar p.

(** [isRecursiveGlob(p)]. *)
Definition isRecursiveGlob (p : Path) : bool :=
  (String.length p =? 2)%nat
  && match String.get 0 p with Some c => Ascii.eqb c "*" | None => false end
  && match String.get 1 p with Some c => Ascii.eqb c "*" | None => false end.

(** Modelled from the spec: [ImplicitDeps] of deps.h, the sink "notified
    with the normalized path of every directory actually listed from the
    filesystem".  The sink is the list of the inputs it was given so far,
    and [addInput] puts one more at its end. *)
Definition ImplicitDeps := list string.

Definition addInput (path : string) (deps : ImplicitDeps) : ImplicitDeps :=
  (deps ++ [path])%list.

Module DirCache.

Section WithUser.

(** What the caller's match callback acts on. *)
Context {U : Type}.

(** A [GlobCallback].  The code has two kinds of them: the one the caller
    hands to [glob], and the closure that [glob] builds for a pattern whose
    directory part has wildcards,
    [[&](Path p, bool isDir) { if (isDir) this->glob(root, p, s.tail, callback); }]. *)
Inductive GlobCallback :=
| OnMatch (f : Path -> bool -> U -> U)
| IfDirGlob (root tail : Path) (callback : GlobCallback).

(** A task of the pool: the closure [[this, root, path, callback]] that
    [globRecursive] enqueues. *)
Record Task := { task_root : Path; task_path : string; task_callback : GlobCallback }.

(** The [DirCache] object and what it acts on: [_cache], [_deps], the queue
    of [_pool], the caller's data, and the list of the directories opened
    so far (kept to tell a lookup that reads the disk from one that does
    not).  [_deps] is [None] for the null pointer. *)
Record State := {
  _cache : gmap string DirEntries;
  _deps : option ImplicitDeps;
  _pool : list Task;
  opened : list string;
  user : U
}.

Definition set_user (u : U) (st : State) : State :=
  {| _cache := _cache st; _deps := _deps st; _pool := _pool st;
     opened := opened st; user := u |}.

Definition set_pool (q : list Task) (st : State) : State :=
  {| _cache := _cache st; _deps := _deps st; _pool := q;
     opened := opened st; user := user st |}.

(** Modelled from the spec: [ThreadPool::enqueueTask] of threadpool.h,
    "enqueues a unit of work". *)
Definition enqueueTask (t : Task) (st : State) : State :=
  set_pool (_pool st ++ [t])%list st.

(** [DirCache::DirCache(deps)] *)
Definition new (deps : option ImplicitDeps) (u : U) : State :=
  {| _cache := ∅; _deps := deps; _pool := []; opened := []; user := u |}.

(** [DirCache::dirEntries(const std::string& path)].  The body runs under
    [_mutex], so lookups do not interleave. *)
Definition dirEntries1 (fs : FileSystem) (path : string) (st : State)
  : DirEntries * State :=
  let normalized := PathPrim.norm path in
  match _cache st !! normalized with
  | Some entries => (entries, st)
  | None =>
      let entries := dirEntries fs normalized in
      (entries,
       {| _cache := <[normalized := entries]> (_cache st);
          _deps := addInput normalized <$> _deps st;
          _pool := _pool st;
          opened := (opened st ++ [normalized])%list;
          user := user st |})
  end.

(** [DirCache::dirEntries(Path root, Path dir)] *)
Definition dirEntries2 (fs : FileSystem) (root dir : Path) (st : State)
  : DirEntries * State :=
  dirEntries1 fs (PathPrim.join dir root) st.

(** [DirCache::glob(root, path, pattern, callback)], the helper that lists
    one directory; [callback] is passed as the function that calling it is. *)
Definition glob4 (fs : FileSystem) (root path pattern : Path)
    (callback : Path -> bool -> State -> State) (st : State) : State :=
  let buf := path in
  if (String.length pattern =? 0)%nat then
    callback (PathPrim.join pattern buf) true st
  else
    let '(entries, st1) := dirEntries2 fs root path st in
    fold_left
      (fun st e =>
         if Glob.globMatch_public false (name e) pattern
         then callback (PathPrim.join (name e) buf) (isDir e) st
         else st)
      entries st1.

(** Calling a [GlobCallback]. *)
Fixpoint call (fs : FileSystem) (cb : GlobCallback) (p : Path) (isDir : bool)
    (st : State) : State :=
  match cb with
  | OnMatch f => set_user (f p isDir (user st)) st
  | IfDirGlob root tail callback =>
      if isDir then glob4 fs root p tail (call fs callback) st else st
  end.

(** [DirCache::globRecursive(root, path, callback)]: the directory itself,
    then every entry; a task is enqueued for each entry that is a
    directory. *)
Definition globRecursive (fs : FileSystem) (root : Path) (path : string)
    (callback : GlobCallback) (st : State) : State :=
  let st0 := call fs callback path true st in
  let '(entries, st1) := dirEntries2 fs root path st0 in
  fold_left
    (fun st e =>
       let p := PathPrim.join (name e) path in
       let st' := call fs callback p (isDir e) st in
       if isDir e
       then enqueueTask {| task_root := root; task_path := p; task_callback := callback |} st'
       else st')
    entries st1.

(** Modelled from the spec: a worker of the pool of threadpool.h taking a
    task off the queue.  "Ordering between tasks submitted by different
    threads is unspecified": [k] says which of the queued tasks is taken
    (the one at [k] modulo the length of the queue). *)
Definition takeTask (k : nat) (q : list Task) : option (Task * list Task) :=
  let i := k mod length q in
  match q !! i with
  | Some t => Some (t, delete i q)
  | None => None
  end.

(** The queued tasks run until none is left, each of them a
    [globRecursive] closure that may enqueue more.  The schedule [sched]
    says which task is taken at each turn; tasks run one at a time.
    [None]: the schedule ended before the queue was empty. *)
Fixpoint runTasks (sched : list nat) (fs : FileSystem) (st : State) : option State :=
  match sched with
  | [] => None
  | k :: sched' =>
      match takeTask k (_pool st) with
      | None => None
      | Some (t, q) =>
          let st' := globRecursive fs (task_root t) (task_path t) (task_callback t)
                       (set_pool q st) in
          match _pool st' with
          | [] => Some st'
          | _ :: _ => runTasks sched' fs st'
          end
      end
  end.

(** Modelled from the spec: [ThreadPool::waitAll] of threadpool.h, "blocks
    the calling thread until the queue is empty AND no worker is currently
    executing a task". *)
Definition waitAll (sched : list nat) (fs : FileSystem) (st : State) : option State :=
  match _pool st with
  | [] => Some st
  | _ :: _ => runTasks sched fs st
  end.

(** [DirCache::glob(root, path, callback)].  [fuel] bounds the depth of the
    recursion on the directory part of the pattern ([None] when it does
    not suffice); [sched] is the schedule of the pool. *)
Fixpoint glob (fuel : nat) (sched : list nat) (fs : FileSystem) (root path : Path)
    (callback : GlobCallback) (st : State) : option State :=
  match fuel with
  | O => None
  | S fuel' =>
      let '(head, tail) := PathPrim.split path in
      st1 ← (if isGlobPattern head then
               glob fuel' sched fs root head (IfDirGlob root tail callback) st
             else if isRecursiveGlob tail then
               Some (globRecursive fs root head callback st)
             else if isGlobPattern tail then
               Some (glob4 fs root head tail (call fs callback) st)
             else if (0 <? String.length tail)%nat then
               Some (call fs callback path false st)
             else
               Some (call fs callback head true st));
      waitAll sched fs st1
  end.

End WithUser.

Arguments GlobCallback : clear implicits.
Arguments Task : clear implicits.
Arguments State : clear implicits.

(** *** Notions that the properties are stated with *)

(** A caller that writes down what it is handed, in the order it comes. *)
Definition record (p : Path) (isDir : bool) (seen : list (Path * bool))
  : list (Path * bool) := (seen ++ [(p, isDir)])%list.

Definition onMatch : GlobCallback (list (Path * bool)) := OnMatch record.

(** A match as [glob] hands it on, relative to [root], and the same match
    as a path from where [root] is: joined to [root] and normalized, as
    [dirEntries(root, dir)] does with a directory. *)
Definition resolve (root : Path) (m : Path * bool) : string * bool :=
  (PathPrim.norm (PathPrim.join (fst m) root), snd m).

(** A sequence of lookups, each with the file system as it is at that time. *)
Definition lookups {U} (reqs : list (FileSystem * string)) (st : State U) : State U :=
  fold_left (fun st r => snd (dirEntries1 (fst r) (snd r) st)) reqs st.

(** Every cached listing is the one the file system [fs] gives. *)
Definition cache_agrees {U} (fs : FileSystem) (st : State U) : Prop :=
  forall key entries, _cache st !! key = Some entries -> entries = dirEntries fs key.

(** Every cached listing is sorted. *)
Definition cache_sorted {U} (st : State U) : Prop :=
  forall key entries, _cache st !! key = Some entries -> Sorted DirEntry_le entries.

(** The log of the opened directories, the inputs added to the sink and the
    keys of the cache go together. *)
Definition logs_match {U} (st : State U) : Prop :=
  _deps st = Some (opened st)
  /\ NoDup (opened st)
  /\ forall p, p ∈ opened st <-> is_Some (_cache st !! p).

(** What [glob4] hands to its callback from a listing. *)
Definition matches4 (path pattern : Path) (entries : DirEntries) : list (Path * bool) :=
  flat_map (fun e => if Glob.globMatch_public false (name e) pattern
                     then [(PathPrim.join (name e) path, isDir e)] else [])
           entries.

(** The entries of a listing as [globRecursive] hands them on. *)
Definition entryMatches (path : string) (entries : DirEntries) : list (Path * bool) :=
  map (fun e => (PathPrim.join (name e) path, isDir e)) entries.

(** The tasks [globRecursive] enqueues for a listing. *)
Definition entryTasks {U} (root : Path) (path : string) (cb : GlobCallback U)
    (entries : DirEntries) : list (Task U) :=
  flat_map (fun e => if isDir e
                     then [{| task_root := root;
                              task_path := PathPrim.join (name e) path;
                              task_callback := cb |}]
                     else [])
           entries.

(** A callback that ends, after the closures that [glob] has put in front,
    in the recording caller. *)
Fixpoint recording (cb : GlobCallback (list (Path * bool))) : Prop :=
  match cb with
  | OnMatch f => f = record
  | IfDirGlob _ _ next => recording next
  end.

(** What one call of [cb] for the path [p] makes the recording caller write
    down, when the listings are those of [fs]. *)
Fixpoint handed (fs : FileSystem) (cb : GlobCallback (list (Path * bool)))
    (p : Path) (d : bool) : list (Path * bool) :=
  match cb with
  | OnMatch _ => [(p, d)]
  | IfDirGlob root tail next =>
      if d then
        if (String.length tail =? 0)%nat then handed fs next (PathPrim.join tail p) true
        else
          flat_map
            (fun e => if Glob.globMatch_public false (name e) tail
                      then handed fs next (PathPrim.join (name e) p) (isDir e)
                      else [])
            (dirEntries fs (PathPrim.norm (PathPrim.join p root)))
      else []
  end.

(** What a call of a recording callback does to the state: it adds what
    [handed] says to the record, and leaves the queue alone. *)
Definition adds (fs : FileSystem)
    (k : State (list (Path * bool)) -> State (list (Path * bool)))
    (l : list (Path * bool)) : Prop :=
  forall st, cache_agrees fs st ->
    user (k st) = (user st ++ l)%list /\ cache_agrees fs (k st) /\ _pool (k st) = _pool st.

(** The number of closures in front of the caller's callback. *)
Fixpoint depth {U} (cb : GlobCallback U) : nat :=
  match cb with
  | OnMatch _ => 0
  | IfDirGlob _ _ next => S (depth next)
  end.

(** Only the closure next to the caller's callback may carry an empty
    pattern. *)
Fixpoint tails_ok {U} (cb : GlobCallback U) : Prop :=
  match cb with
  | OnMatch _ => True
  | IfDirGlob _ tail next =>
      match next with OnMatch _ => True | IfDirGlob _ _ _ => tail <> "" end
      /\ tails_ok next
  end.

(** The path [n] components up: the head of the head ... of [q]. *)
Definition up (n : nat) (q : Path) : Path :=
  Nat.iter n (fun p => fst (PathPrim.split p)) q.

(** Where [glob] ends up when no recursive walk is on its way: at one call
    of a callback for one path.  [None] when the way leads to
    [globRecursive], or is longer than [fuel]. *)
Fixpoint dispatch {U} (fuel : nat) (root path : Path) (cb : GlobCallback U)
  : option (GlobCallback U * Path * bool) :=
  match fuel with
  | O => None
  | S fuel' =>
      let '(head, tail) := PathPrim.split path in
      if isGlobPattern head then dispatch fuel' root head (IfDirGlob root tail cb)
      else if isRecursiveGlob tail then None
      else if isGlobPattern tail then Some (IfDirGlob root tail cb, head, true)
      else if (0 <? String.length tail)%nat then Some (cb, path, false)
      else Some (cb, head, true)
  end.

(** No recursive walk is on the way of [glob] for this pattern (and the
    way is no longer than [fuel]). *)
Fixpoint noWalk (fuel : nat) (path : Path) : bool :=
  match fuel with
  | O => false
  | S fuel' =>
      let '(head, tail) := PathPrim.split path in
      if isGlobPattern head then noWalk fuel' head
      else negb (isRecursiveGlob tail)
  end.

End DirCache.

(** A path that does not end in a separator, unless it is made of
    separators only. *)
Definition clean (p : Path) : Prop :=
  match PathPrim.rstripSep p with
  | EmptyString => True
  | r => r = p
  end.

(** A name as a directory holds them: not empty, and without separator. *)
Definition plainName (n : string) : Prop :=
  n <> "" /\ str_existsb PathPrim.isSep n = false.

Definition plain_names (fs : FileSystem) : Prop :=
  forall key e, e ∈ dirEntries fs key -> plainName (name e).

(** Two file systems with the same directories, each with the same entries,
    handed out by [readdir] in whatever order. *)
Definition same_contents (fs fs' : FileSystem) : Prop :=
  forall p,
    match fs p, fs' p with
    | Some raw, Some raw' => raw ≡ₚ raw'
    | None, None => True
    | _, _ => False
    end.

(** No directory has two entries of the same name. *)
Definition distinct_names (fs : FileSystem) : Prop :=
  forall p raw, fs p = Some raw -> NoDup (map d_name raw).

(** The directory tree [root/{a.txt, sub/b.txt}], with the entries in an
    order that is not the sorted one, and with [.] and [..] among them. *)
Definition tree_fs : FileSystem := fun p =>
  let reg n := {| d_name := n; d_kind := DT_REG; d_stat := None |} in
  let dir n := {| d_name := n; d_kind := DT_DIR; d_stat := None |} in
  if String.eqb p "root" then Some [dir "."; dir "sub"; dir ".."; reg "a.txt"]
  else if String.eqb p "root/sub" then Some [reg "b.txt"; dir "."; dir ".."]
  else None.

(** The tree of [tree_fs] with [readdir] answering in another order. *)
Definition tree_fs' : FileSystem := fun p =>
  match tree_fs p with
  | Some raw => Some (rev raw)
  | None => None
  end.

(** A file system in which no directory can be opened. *)
Definition no_fs : FileSystem := fun _ => None.

(** ** glob.cc: [lua_glob], the aggregation of include and exclude patterns *)

Module LuaGlob.

(** A slot of the array part of a table, as the loop over it tells them
    apart: nil, a value that [lua_tolstring] turns into a string, and any
    other value. *)
Inductive table_item :=
| ItemNil
| ItemString (s : string)
| ItemOther.

(** The arguments [lua_glob] looks at: strings, tables, and anything else. *)
Inductive lua_value :=
| LuaString (s : string)
| LuaTable (items : list table_item)
| LuaOther.

(** How a call ends.  [OutOfBounds] is an access past the end of a vector,
    for which C++ defines no behaviour; [OutOfFuel] is a walk that the
    given fuel or schedule did not finish. *)
Inductive outcome (A : Type) :=
| Returned (a : A)
| LuaError (msg : string)
| OutOfBounds
| OutOfFuel.
Arguments Returned {A} a.
Arguments LuaError {A} msg.
Arguments OutOfBounds {A}.
Arguments OutOfFuel {A}.

(** [pool], [poolIncludes], [poolExcludes]: the matched text and the
    [(offset, length)] pairs into it. *)
Record Pools := {
  pool : string;
  poolIncludes : list (nat * nat);
  poolExcludes : list (nat * nat)
}.

(** The closure [include]. *)
Definition include (path : Path) (isDir : bool) (a : Pools) : Pools :=
  let pos := String.length (pool a) in
  {| pool := pool a ++ path;
     poolIncludes := (poolIncludes a ++ [(pos, String.length path)])%list;
     poolExcludes := poolExcludes a |}.

(** The closure [exclude]. *)
Definition exclude (path : Path) (isDir : bool) (a : Pools) : Pools :=
  let pos := String.length (pool a) in
  {| pool := pool a ++ path;
     poolIncludes := poolIncludes a;
     poolExcludes := (poolExcludes a ++ [(pos, String.length path)])%list |}.

(** [mapPool]: [Path(&pool[e.first], e.second)]. *)
Definition mapPool (pool : string) (e : nat * nat) : Path :=
  String.substring (fst e) (snd e) pool.

(** [std::transform(first, last, out.begin(), f)] into a vector [out] that
    has its size already: the elements are overwritten from the front, and
    writing more of them than the vector holds runs past its end. *)
Definition transformInto {A B} (f : A -> B) (src : list A) (out : list B)
  : option (list B) :=
  if (length src <=? length out)%nat
  then Some (map f src ++ drop (length src) out)%list
  else None.

Definition Path_le (a b : Path) : Prop := PathPrim.lt b a = false.

#[export] Instance Path_le_dec : RelDecision Path_le.
Proof. intros a b. unfold Path_le. apply _. Defined.

(** [std::sort] on a vector of paths. *)
Definition sortPaths (l : list Path) : list Path := merge_sort Path_le l.

(** [std::unique] followed by the [resize]: of each run of equal
    neighbours the first stays. *)
Fixpoint unique (l : list Path) : list Path :=
  match l with
  | [] => []
  | a :: l' =>
      match l' with
      | [] => [a]
      | b :: _ => if PathPrim.eq a b then unique l' else a :: unique l'
      end
  end.

(** The two loops that fill the Lua table.  [i] and [e] are the positions
    of [includesIter] and [excludesIter]; [out] is the table so far.  Every
    round moves one of the iterators, so [fuel] as large as the two
    lengths together is enough. *)
Fixpoint mergeLoop (fuel : nat) (includes excludes : list Path) (i e : nat)
    (out : list Path) : outcome (list Path) :=
  match includes !! i, excludes !! e with
  | Some inc, Some exc =>
      match fuel with
      | O => OutOfFuel
      | S fuel' =>
          let c := PathPrim.compare inc exc in
          if (c <? 0)%Z then
            (* [++includesIter] and then the read through it *)
            match includes !! (S i) with
            | Some pushed =>
                mergeLoop fuel' includes excludes (S i) e (out ++ [pushed])%list
            | None => OutOfBounds
            end
          else if (0 <? c)%Z then
            mergeLoop fuel' includes excludes i (S e) out
          else
            mergeLoop fuel' includes excludes (S i) (S e) out
      end
  | _, _ =>
      (* [for (; includesIter != includes.end(); ++includesIter)] *)
      Returned (out ++ drop i includes)%list
  end.

(** From the pools to the table: lines 231 to 288. *)
Definition aggregate (a : Pools) : outcome (list Path) :=
  let n := length (poolIncludes a) in
  let includes0 := replicate n PathPrim.default in
  let excludes0 := replicate n PathPrim.default in
  match transformInto (mapPool (pool a)) (poolIncludes a) includes0,
        transformInto (mapPool (pool a)) (poolExcludes a) excludes0 with
  | Some includes1, Some excludes1 =>
      let includes := unique (sortPaths includes1) in
      let excludes := unique (sortPaths excludes1) in
      mergeLoop (length includes + length excludes) includes excludes 0 0 []
  | _, _ => OutOfBounds
  end.

Definition State := DirCache.State Pools.

(** One pattern string: a leading [!] sends the matches to [exclude]. *)
Definition globOne (fuel : nat) (sched : list nat) (fs : FileSystem) (root : Path)
    (path : string) (st : State) : option State :=
  match path with
  | String "!" rest => DirCache.glob fuel sched fs root rest (DirCache.OnMatch exclude) st
  | _ => DirCache.glob fuel sched fs root path (DirCache.OnMatch include) st
  end.

(** The loop over the array part of a table argument: it stops at the
    first nil, and skips what [lua_tolstring] gives no string for. *)
Fixpoint globTable (fuel : nat) (sched : list nat) (fs : FileSystem) (root : Path)
    (items : list table_item) (st : State) : option State :=
  match items with
  | [] => Some st
  | ItemNil :: _ => Some st
  | ItemString path :: items' =>
      st' ← globOne fuel sched fs root path st; globTable fuel sched fs root items' st'
  | ItemOther :: items' => globTable fuel sched fs root items' st
  end.

(** The loop over the arguments. *)
Fixpoint globArgs (fuel : nat) (sched : list nat) (fs : FileSystem) (root : Path)
    (args : list lua_value) (st : State) : option State :=
  match args with
  | [] => Some st
  | LuaTable items :: args' =>
      st' ← globTable fuel sched fs root items st; globArgs fuel sched fs root args' st'
  | LuaString path :: args' =>
      st' ← globOne fuel sched fs root path st; globArgs fuel sched fs root args' st'
  | _ :: args' => globArgs fuel sched fs root args' st
  end.

(** [lua_glob(L)]: [__DIR_CACHE] ([None] for a null pointer), [SCRIPT_DIR]
    ([None] when it is no string) and the arguments on the stack; the
    result is the table returned.  The same schedule stands for the pool
    in each of the globs. *)
Definition lua_glob (fuel : nat) (sched : list nat) (fs : FileSystem)
    (dirCache : option (DirCache.State unit)) (SCRIPT_DIR : option string)
    (args : list lua_value) : outcome (list Path) :=
  match dirCache with
  | None => LuaError "__DIR_CACHE does not point to any object"
  | Some dc =>
      let scriptDir :=
        match SCRIPT_DIR with
        | None | Some EmptyString => "."
        | Some s => s
        end in
      let st := {| DirCache._cache := DirCache._cache dc;
                   DirCache._deps := DirCache._deps dc;
                   DirCache._pool := [];
                   DirCache.opened := DirCache.opened dc;
                   DirCache.user := {| pool := ""; poolIncludes := []; poolExcludes := [] |} |} in
      match globArgs fuel sched fs scriptDir args st with
      | None => OutOfFuel
      | Some st' => aggregate (DirCache.user st')
      end
  end.

(** What the specification asks of the aggregation: the sorted value,
    without repetition, of the includes that are not among the excludes. *)
Definition sortedDifference (includes excludes : list Path) : list Path :=
  unique (sortPaths (filter (fun p => p ∉ excludes) includes)).

End LuaGlob.

(** ** button-lua.cc: the command line *)

Module ButtonLua.

(** [struct Options]; a field is [None] for the null pointer. *)
Record Options := { script : option string; output : option string }.

(** [struct Args]: [argv] as the list of its [n] strings. *)
Definition Args := list string.

(** [parse_args(opts, args)]: the value returned, and [opts] and [args] as
    the call leaves them (both are passed by reference). *)
Definition parse_args (opts : Options) (args : Args) : bool * Options * Args :=
  match args with
  | argv0 :: args1 =>
      (* [opts.script = args.argv[0]; --args.n; ++args.argv;] *)
      let opts1 := {| script := Some argv0; output := output opts |} in
      match args1 with
      | o :: args2 =>
          if String.eqb o "-o" then
            match args2 with
            | out :: args3 =>
                (true, {| script := Some argv0; output := Some out |}, args3)
            | [] => (false, opts1, args1)
            end
          else (true, {| script := Some argv0; output := None |}, args1)
      | [] => (true, {| script := Some argv0; output := None |}, args1)
      end
  | [] => (false, opts, args)
  end.

End ButtonLua.

(** ** Notions that the further properties are stated with *)

Fixpoint str_map (f : ascii -> ascii) (s : string) : string :=
  match s with
  | EmptyString => EmptyString
  | String c s' => String (f c) (str_map f s')
  end.

(** What [charCmp<CaseSensitive>] looks at of a character: the character,
    or its lower-case form. *)
Definition foldChar (CaseSensitive : bool) (c : ascii) : ascii :=
  if CaseSensitive then c else Glob.tolower c.

Definition foldCase (CaseSensitive : bool) (s : string) : string :=
  str_map (foldChar CaseSensitive) s.

(** The entry that the [readdir] loop pushes back for [r]: a directory when
    [d_type] says so, or when [d_type] is unknown and [fstatat] says so. *)
Definition listedAsDir (r : dirent) : bool :=
  match d_kind r with
  | DT_DIR => true
  | DT_UNKNOWN => match d_stat r with Some S_IFDIR => true | _ => false end
  | _ => false
  end.

(** Two states of a [DirCache] with the same cache, sink and log: they
    differ in the caller's data and in the queue of the pool at most. *)
Definition same_store {U} (st st' : DirCache.State U) : Prop :=
  DirCache._cache st = DirCache._cache st'
  /\ DirCache._deps st = DirCache._deps st'
  /\ DirCache.opened st = DirCache.opened st'.

(** [DirCache::~DirCache()]: [_pool.waitAll()]. *)
Definition destroy {U} (sched : list nat) (fs : FileSystem) (st : DirCache.State U)
  : option (DirCache.State U) :=
  DirCache.waitAll sched fs st.

(** The paths that the offsets of [poolIncludes] and [poolExcludes] stand
    for. *)
Definition included (a : LuaGlob.Pools) : list Path :=
  map (LuaGlob.mapPool (LuaGlob.pool a)) (LuaGlob.poolIncludes a).

Definition excluded (a : LuaGlob.Pools) : list Path :=
  map (LuaGlob.mapPool (LuaGlob.pool a)) (LuaGlob.poolExcludes a).

Definition noPools : LuaGlob.Pools :=
  {| LuaGlob.pool := ""; LuaGlob.poolIncludes := []; LuaGlob.poolExcludes := [] |}.

(** A run of calls of the two closures, in the order they come: [(true, p)]
    for [include(p)], [(false, p)] for [exclude(p)]. *)
Definition collect (calls : list (bool * Path)) (a : LuaGlob.Pools) : LuaGlob.Pools :=
  fold_left (fun (a : LuaGlob.Pools) (c : bool * Path) =>
               if fst c then LuaGlob.include (snd c) false a
               else LuaGlob.exclude (snd c) false a)
            calls a.

(** The sink after some more lookups: still the null pointer, or the sink
    it was with more inputs at its end. *)
Definition sink_grows (d d' : option ImplicitDeps) : Prop :=
  match d with
  | None => d' = None
  | Some deps => exists deps', d' = Some deps' /\ deps `prefix_of` deps'
  end.

(** Every offset of [poolIncludes] and [poolExcludes] lies within the pool. *)
Definition pool_ok (a : LuaGlob.Pools) : Prop :=
  Forall (fun e => fst e + snd e <= String.length (LuaGlob.pool a)) (LuaGlob.poolIncludes a)
  /\ Forall (fun e => fst e + snd e <= String.length (LuaGlob.pool a)) (LuaGlob.poolExcludes a).

(** A chain of the closures of [glob] whose last pattern, the one next to
    the caller's callback, is empty: it hands on directories only. *)
Fixpoint dirsOnly {U} (cb : DirCache.GlobCallback U) : Prop :=
  match cb with
  | DirCache.OnMatch _ => False
  | DirCache.IfDirGlob _ tail next =>
      match next with
      | DirCache.OnMatch _ => tail = ""
      | DirCache.IfDirGlob _ _ _ => dirsOnly next
      end
  end.

(** The part of a pattern before its first component that has a wildcard:
    the directory that [glob] lists first.  [None] for a pattern without
    wildcard, or with more components than [fuel]. *)
Fixpoint wildRoot (fuel : nat) (path : Path) : option Path :=
  match fuel with
  | O => None
  | S fuel' =>
      let '(head, tail) := PathPrim.split path in
      if isGlobPattern head then wildRoot fuel' head
      else if isGlobPattern tail then Some head
      else None
  end.

(** Where [glob] ends up when the first component that has a wildcard is
    [**]: at the recursive walk of the directory before it, with the
    closures that [glob] has built for the components after it in front of
    the callback.  [None] for every other pattern. *)
Fixpoint walkAt {U} (fuel : nat) (root path : Path) (cb : DirCache.GlobCallback U)
  : option (DirCache.GlobCallback U * Path) :=
  match fuel with
  | O => None
  | S fuel' =>
      let '(head, tail) := PathPrim.split path in
      if isGlobPattern head
      then walkAt fuel' root head (DirCache.IfDirGlob root tail cb)
      else if isRecursiveGlob tail then Some (cb, head)
      else None
  end.

(** The root that [lua_glob] globs from: [SCRIPT_DIR], or [.] when it is
    no string or the empty one. *)
Definition scriptDirOf (SCRIPT_DIR : option string) : Path :=
  match SCRIPT_DIR with
  | None | Some EmptyString => "."
  | Some s => s
  end.

(** [opendir] fails for the directory that [dirEntries] opens for [key]. *)
Definition unreadable (fs : FileSystem) (key : string) : Prop :=
  fs (if (0 <? String.length key)%nat then key else ".") = None.

(** The cache holds no listing of [key] with entries in it, as it could
    from a time when the directory could be opened. *)
Definition notStale {U} (key : string) (st : DirCache.State U) : Prop :=
  forall entries, DirCache._cache st !! key = Some entries -> entries = [].

(** The tasks of a recursive walk from [root] for the recording caller. *)
Definition walkTasks (root : Path) (q : list (DirCache.Task (list (Path * bool)))) : Prop :=
  Forall (fun t => DirCache.task_root t = root
                   /\ DirCache.task_callback t = DirCache.onMatch) q.

(** The directory [p] has been walked: it has been listed, and every entry
    of the listing is among what was delivered. *)
Definition walked (root : Path) (st : DirCache.State (list (Path * bool)))
    (delivered : list (Path * bool)) (p : Path) : Prop :=
  exists entries,
    DirCache._cache st !! PathPrim.norm (PathPrim.join p root) = Some entries
    /\ forall e, e ∈ entries -> (PathPrim.join (name e) p, isDir e) ∈ delivered.

(** A task for the directory [p] is in the queue. *)
Definition pending (q : list (DirCache.Task (list (Path * bool)))) (p : Path) : Prop :=
  exists t, t ∈ q /\ DirCache.task_path t = p.

(** What a recursive walk keeps: every directory delivered since the walk
    began has been walked, or has a task waiting for it. *)
Definition walkInv (root : Path) (u0 : list (Path * bool))
    (st : DirCache.State (list (Path * bool))) : Prop :=
  walkTasks root (DirCache._pool st)
  /\ exists delivered,
       DirCache.user st = (u0 ++ delivered)%list
       /\ forall p, (p, true) ∈ delivered ->
                    walked root st delivered p \/ pending (DirCache._pool st) p.

(** * Lemmas *)

(** ** The pattern matcher *)

Module GlobFacts.
Import Glob.

(** *** Facts about the string helpers *)

Lemma str_find_lt c s e : str_find c s = Some e -> e < String.length s.
Proof.
  revert e. induction s as [|x s IH]; intros e; simpl; [discriminate|].
  destruct (Ascii.eqb x c).
  - intros [= <-]. lia.
  - destruct (str_find c s) as [k|]; simpl; [|discriminate].
    intros [= <-]. specialize (IH k eq_refl). lia.
Qed.

Lemma str_find_app_l c s t e :
  str_find c s = Some e -> str_find c (s ++ t) = Some e.
Proof.
  revert e. induction s as [|x s IH]; intros e; simpl; [discriminate|].
  destruct (Ascii.eqb x c); [auto|].
  destruct (str_find c s) as [k|]; simpl; [|discriminate].
  intros [= <-]. now rewrite (IH k eq_refl).
Qed.

Lemma str_find_app_r c s t :
  str_find c s = None ->
  str_find c (s ++ t) = (fun k => String.length s + k) <$> str_find c t.
Proof.
  induction s as [|x s IH]; simpl.
  - intros _. destruct (str_find c t); reflexivity.
  - destruct (Ascii.eqb x c); [discriminate|].
    destruct (str_find c s) as [k|]; simpl; [discriminate|].
    intros _. rewrite IH by reflexivity. destruct (str_find c t); reflexivity.
Qed.

Lemma str_find_drop_None c n s :
  str_find c s = None -> str_find c (str_drop n s) = None.
Proof.
  revert s. induction n as [|n IH]; intros [|x s]; simpl; auto.
  destruct (Ascii.eqb x c); [discriminate|].
  destruct (str_find c s) eqn:E; simpl; [discriminate|]. intros _. now apply IH.
Qed.

Lemma str_drop_app n s t :
  n <= String.length s -> str_drop n (s ++ t) = str_drop n s ++ t.
Proof.
  revert s. induction n as [|n IH]; intros [|x s]; simpl; intros Hn;
    try reflexivity; try lia.
  apply IH. lia.
Qed.

Lemma str_drop_all s t : str_drop (String.length s) (s ++ t) = t.
Proof. induction s; simpl; auto. Qed.

Lemma str_drop_past s x t : str_drop (S (String.length s)) (s ++ String x t) = t.
Proof. induction s; simpl; auto. Qed.

Lemma str_take_all s t : str_take (String.length s) (s ++ t) = s.
Proof. induction s as [|x s IH]; simpl; [now destruct t|]. now rewrite IH. Qed.

Lemma existsb_all_false {A} (f : A -> bool) l :
  (forall x, f x = false) -> existsb f l = false.
Proof. intros Hf. induction l as [|x l IH]; simpl; [reflexivity|]. now rewrite Hf, IH. Qed.

Lemma str_suffixes_spec s t :
  In t (str_suffixes s) <-> exists k, k < String.length s /\ t = str_drop k s.
Proof.
  induction s as [|x s IH]; simpl.
  - split; [tauto|]. intros (k & Hk & _). lia.
  - rewrite IH. split.
    + intros [<-|(k & Hk & ->)]; [exists 0|exists (S k)]; simpl; split; auto; lia.
    + intros ([|k] & Hk & ->); simpl; [now left|]. right. exists k. split; [lia|reflexivity].
Qed.

Lemma bracketScan_existsb cs c cls :
  bracketScan cs c cls = str_existsb (fun x => (charCmp cs c x =? 0)%Z) cls.
Proof.
  unfold bracketScan.
  assert (G : forall m, str_fold (fun m x => if negb m && (charCmp cs c x =? 0)%Z then true else m) cls m
               = m || str_existsb (fun x => (charCmp cs c x =? 0)%Z) cls).
  { induction cls as [|x cls IH]; intros m; simpl.
    - now rewrite orb_false_r.
    - rewrite IH. destruct m; simpl; [reflexivity|].
      now destruct (charCmp cs c x =? 0)%Z. }
  now rewrite G.
Qed.

(** *** The [*] case *)

(** A [*] that ends the pattern matches whatever is left of the path. *)
Lemma globMatch_star_end cs path : globMatch cs path "*" = true.
Proof. now rewrite globMatch_equation_2. Qed.

(** A [*] followed by more pattern: the loop [for (; i < path.length; ++i)]
    tries the rest of the pattern at every start [i] that leaves at least
    one character of the path, and at no other. *)
Lemma globMatch_star_inner cs path c pat :
  globMatch cs path (String "*" (String c pat)) = true <->
  exists k, k < String.length path /\
            globMatch cs (str_drop k path) (String c pat) = true.
Proof.
  rewrite globMatch_equation_2. cbn [Ascii.eqb Bool.eqb].
  rewrite existsb_exists. split.
  - intros (t & Hin & Ht). apply str_suffixes_spec in Hin as (k & Hk & ->). eauto.
  - intros (k & Hk & Ht). exists (str_drop k path). split; [|exact Ht].
    apply str_suffixes_spec. eauto.
Qed.

(** *** Bracket classes *)

Lemma globMatch_bracket cs p path cls pat :
  str_find "]" cls = None ->
  String.get 0 cls <> Some "!"%char ->
  globMatch cs (String p path) ("[" ++ cls ++ "]" ++ pat) =
    str_existsb (fun x => (charCmp cs p x =? 0)%Z) cls && globMatch cs path pat.
Proof.
  intros Hcls Hbang.
  change ("[" ++ cls ++ "]" ++ pat) with (String "[" (cls ++ String "]" pat)).
  rewrite globMatch_equation_2. cbn [Ascii.eqb Bool.eqb].
  assert (Hfind : str_find "]" (cls ++ String "]" pat) = Some (String.length cls)).
  { rewrite str_find_app_r by exact Hcls. simpl. f_equal. lia. }
  destruct (cls ++ String "]" pat) as [|c1 r] eqn:E; [destruct cls; discriminate|].
  assert (Hc1 : Ascii.eqb c1 "!" = false).
  { destruct cls as [|x cls']; simpl in E; injection E as <- _; [reflexivity|].
    apply Ascii.eqb_neq. simpl in Hbang. congruence. }
  rewrite Hc1. cbn zeta. cbn [andb]. rewrite Hfind, <- E.
  rewrite str_take_all, str_drop_past, bracketScan_existsb.
  destruct (str_existsb _ _); reflexivity.
Qed.

Lemma globMatch_bracket_neg cs p path cls pat :
  str_find "]" cls = None ->
  globMatch cs (String p path) ("[!" ++ cls ++ "]" ++ pat) =
    negb (str_existsb (fun x => (charCmp cs p x =? 0)%Z) cls) && globMatch cs path pat.
Proof.
  intros Hcls.
  change ("[!" ++ cls ++ "]" ++ pat) with (String "[" (String "!" (cls ++ String "]" pat))).
  rewrite globMatch_equation_2. cbn [Ascii.eqb Bool.eqb].
  assert (Hfind : str_find "]" (cls ++ String "]" pat) = Some (String.length cls)).
  { rewrite str_find_app_r by exact Hcls. simpl. f_equal. lia. }
  cbn zeta.
  change (str_drop 1 (String "!" (cls ++ String "]" pat))) with (cls ++ String "]" pat).
  rewrite Hfind.
  replace (String.length (cls ++ String "]" pat) =? 0)%nat with false
    by (symmetry; apply Nat.eqb_neq; destruct cls; simpl; lia).
  cbn [andb].
  rewrite str_take_all, str_drop_past, bracketScan_existsb.
  destruct (str_existsb _ _); reflexivity.
Qed.

(** A pattern in which some [[] has no []] after it matches no path. *)
Lemma globMatch_unterminated_aux cs n :
  forall pre post path,
    String.length pre <= n ->
    str_find "]" post = None ->
    globMatch cs path (pre ++ String "[" post) = false.
Proof.
  induction n as [n IH] using lt_wf_ind.
  intros pre post path Hn Hpost.
  destruct pre as [|c pre]; simpl.
  - (* the unterminated bracket is reached *)
    rewrite globMatch_equation_2. cbn [Ascii.eqb Bool.eqb].
    destruct path as [|p0 path']; [reflexivity|].
    destruct post as [|c1 post1] eqn:Epost; [reflexivity|]. rewrite <- Epost in *.
    cbn zeta.
    destruct (Ascii.eqb c1 "!" && _); [reflexivity|].
    replace (str_find "]" (if Ascii.eqb c1 "!" then str_drop 1 post else post)) with (@None nat);
      [reflexivity|].
    destruct (Ascii.eqb c1 "!"); [now rewrite str_find_drop_None|now rewrite Hpost].
  - simpl in Hn. rewrite globMatch_equation_2.
    assert (IH' : forall pre' path', String.length pre' <= String.length pre ->
                    globMatch cs path' (pre' ++ String "[" post) = false).
    { intros pre' path' Hle. apply (IH (String.length pre)); [lia|exact Hle|exact Hpost]. }
    destruct (Ascii.eqb c "?").
    { destruct path; [reflexivity|]. now apply IH'. }
    destruct (Ascii.eqb c "*").
    { destruct (pre ++ String "[" post) eqn:E; [destruct pre; discriminate|].
      rewrite <- E. apply existsb_all_false. intros sub. now apply IH'. }
    destruct (Ascii.eqb c "[").
    { destruct path as [|p0 path']; [reflexivity|].
      destruct (pre ++ String "[" post) as [|c1 pat1] eqn:E; [reflexivity|].
      rewrite <- E. cbn zeta.
      (* the scan for []] starts at [rest], which still carries the open bracket *)
      assert (Hrest : exists pre', String.length pre' <= String.length pre /\
                (if Ascii.eqb c1 "!" then str_drop 1 (pre ++ String "[" post)
                 else pre ++ String "[" post) = pre' ++ String "[" post).
      { destruct (Ascii.eqb_spec c1 "!") as [->|_]; [|exists pre; auto].
        destruct pre as [|x pre0]; simpl in E; [discriminate|].
        exists pre0. simpl. split; [lia|reflexivity]. }
      destruct Hrest as (pre' & Hle & ->).
      destruct (Ascii.eqb c1 "!" && _); [reflexivity|].
      destruct (str_find "]" pre') as [e|] eqn:Ef.
      - rewrite (str_find_app_l _ _ _ _ Ef).
        destruct (Bool.eqb _ _); [reflexivity|].
        pose proof (str_find_lt _ _ _ Ef) as Hlt.
        rewrite str_drop_app by lia.
        apply IH'. pose proof (str_drop_length (S e) pre'). lia.
      - rewrite str_find_app_r by exact Ef. simpl.
        destruct (Ascii.eqb "[" "]") eqn:Hb; [discriminate|].
        now rewrite Hpost. }
    destruct path as [|p0 path']; [reflexivity|].
    destruct (charCmp cs p0 c =? 0)%Z; [|reflexivity]. now apply IH'.
Qed.

End GlobFacts.

(** ** The order of directory entries *)

Module OrderFacts.

Lemma compare_refl s : String.compare s s = Eq.
Proof.
  pose proof (String.compare_antisym s s) as H.
  destruct (String.compare s s); simpl in H; congruence.
Qed.

Lemma ltb_false_le x y : String.ltb x y = false <-> String.le y x.
Proof.
  unfold String.ltb, String.le, String.leb. rewrite (String.compare_antisym x y).
  destruct (String.compare y x); simpl; split; intros H; try done.
Qed.

Lemma ltb_true_lt x y : String.ltb x y = true <-> String.le x y /\ x <> y.
Proof.
  unfold String.ltb, String.le, String.leb.
  destruct (String.compare x y) eqn:E; simpl.
  - apply String.compare_eq_iff in E. split; [done|]. intros [_ H]. done.
  - split; [|reflexivity]. intros _. split; [exact I|].
    intros ->. rewrite compare_refl in E. discriminate.
  - split; [done|]. intros [[] _].
Qed.

(** [!(b < a)] on entries, spelled out on the two fields. *)
Lemma DirEntry_le_spec a b :
  DirEntry_le a b <->
  String.le (name a) (name b) /\
  (name a = name b -> isDir a = true -> isDir b = true).
Proof.
  unfold DirEntry_le, DirEntry_lt.
  rewrite orb_false_iff, andb_false_iff, negb_false_iff, andb_false_iff,
    negb_false_iff, ltb_false_le, ltb_true_lt.
  split.
  - intros [Hle H]. split; [exact Hle|]. intros Heq Ha.
    destruct H as [[_ Hne]|[Hb|Ha']]; [congruence|exact Hb|congruence].
  - intros [Hle H]. split; [exact Hle|].
    destruct (decide (name a = name b)) as [Heq|Hne]; [|left; auto].
    right. destruct (isDir a); [|now right]. left. now apply H.
Qed.

#[export] Instance DirEntry_le_total : Total DirEntry_le.
Proof.
  intros a b. rewrite !DirEntry_le_spec.
  destruct (total String.le (name a) (name b)) as [H|H].
  - destruct (decide (name a = name b)) as [Heq|Hne].
    + destruct (isDir a) eqn:Ea, (isDir b) eqn:Eb.
      * left; auto.
      * right. split; [rewrite Heq; reflexivity|congruence].
      * left; split; [exact H|congruence].
      * left; split; [exact H|congruence].
    + left. split; [exact H|congruence].
  - destruct (decide (name a = name b)) as [Heq|Hne].
    + destruct (isDir a) eqn:Ea, (isDir b) eqn:Eb.
      * right; split; [exact H|congruence].
      * right; split; [exact H|congruence].
      * left; split; [rewrite Heq; reflexivity|congruence].
      * right; split; [exact H|congruence].
    + right. split; [exact H|congruence].
Qed.

#[export] Instance DirEntry_le_trans : Transitive DirEntry_le.
Proof.
  intros a b c. rewrite !DirEntry_le_spec. intros [H1 D1] [H2 D2].
  split; [etrans; eassumption|].
  intros Heq Ha.
  assert (name a = name b) as Hab.
  { apply (anti_symm String.le); [exact H1|]. rewrite Heq. exact H2. }
  apply D2; [congruence|]. now apply D1.
Qed.

#[export] Instance DirEntry_le_antisym : AntiSymm (=) DirEntry_le.
Proof.
  intros [na da] [nb db]. rewrite !DirEntry_le_spec. simpl. intros [H1 D1] [H2 D2].
  assert (na = nb) as -> by (apply (anti_symm String.le); assumption).
  destruct da, db; try reflexivity;
    [specialize (D1 eq_refl eq_refl)|specialize (D2 eq_refl eq_refl)]; discriminate.
Qed.

(** What [operator<] sorts by is the order of the specification. *)
Lemma DirEntry_le_order a b : DirEntry_le a b <-> by_name_then_isDir a b.
Proof.
  rewrite DirEntry_le_spec. unfold by_name_then_isDir. rewrite ltb_true_lt.
  split.
  - intros [Hle H]. destruct (decide (name a = name b)) as [Heq|Hne]; [right|left; auto].
    split; [exact Heq|]. destruct (isDir a); simpl; auto.
  - intros [[Hle Hne]|[Heq Hb]].
    + split; [exact Hle|congruence].
    + split; [rewrite Heq; reflexivity|]. intros _ Ha. now rewrite Ha in Hb.
Qed.

Lemma Sorted_weaken {A} (R R' : relation A) l :
  (forall x y, R x y -> R' x y) -> Sorted R l -> Sorted R' l.
Proof.
  intros HR. induction 1 as [|x l _ IH Hhd]; constructor; [exact IH|].
  destruct Hhd; constructor; auto.
Qed.

Lemma sortEntries_Sorted l : Sorted DirEntry_le (sortEntries l).
Proof. apply Sorted_merge_sort, _. Qed.

Lemma sortEntries_Permutation l : sortEntries l ≡ₚ l.
Proof. apply merge_sort_Permutation. Qed.

(** The sorted vector does not depend on how [std::sort] gets there: it is
    the only sorted arrangement of the entries. *)
Lemma sortEntries_unique l l' :
  Sorted DirEntry_le l' -> l' ≡ₚ l -> l' = sortEntries l.
Proof.
  intros Hs Hp. apply (Sorted_unique DirEntry_le); auto using sortEntries_Sorted.
  now rewrite sortEntries_Permutation.
Qed.

Lemma readdirLoop_Permutation raw raw' :
  raw ≡ₚ raw' -> readdirLoop raw ≡ₚ readdirLoop raw'.
Proof.
  induction 1 as [|x l l' _ IH|x y l|l1 l2 l3 _ IH1 _ IH2]; simpl.
  - reflexivity.
  - destruct (isDotOrDotDot (d_name x)); [exact IH|now constructor].
  - destruct (isDotOrDotDot (d_name x)), (isDotOrDotDot (d_name y));
      try reflexivity. apply perm_swap.
  - etrans; eassumption.
Qed.

Lemma readdirLoop_names raw :
  map name (readdirLoop raw) =
  filter (fun n => isDotOrDotDot n = false) (map d_name raw).
Proof.
  induction raw as [|e raw IH]; simpl; [reflexivity|].
  rewrite filter_cons. destruct (isDotOrDotDot (d_name e)) eqn:E.
  - rewrite decide_False by congruence. exact IH.
  - rewrite decide_True by reflexivity. simpl. now rewrite IH.
Qed.

End OrderFacts.

(** ** The directory cache *)

Module CacheFacts.
Import DirCache.

Section WithUser.
Context {U : Type}.
Implicit Types (st : State U) (fs : FileSystem).

Lemma dirEntries1_hit fs path st entries :
  _cache st !! PathPrim.norm path = Some entries ->
  dirEntries1 fs path st = (entries, st).
Proof. unfold dirEntries1. now intros ->. Qed.

Lemma dirEntries1_user fs path st : user (snd (dirEntries1 fs path st)) = user st.
Proof. unfold dirEntries1. now destruct (_cache st !! _). Qed.

Lemma dirEntries1_pool fs path st : _pool (snd (dirEntries1 fs path st)) = _pool st.
Proof. unfold dirEntries1. now destruct (_cache st !! _). Qed.

Lemma dirEntries1_cached fs path st :
  _cache (snd (dirEntries1 fs path st)) !! PathPrim.norm path
  = Some (fst (dirEntries1 fs path st)).
Proof.
  unfold dirEntries1. destruct (_cache st !! _) eqn:E; simpl; [exact E|].
  apply lookup_insert_eq.
Qed.

(** A second lookup of the same directory is a hit. *)
Lemma dirEntries1_again fs fs' path path' st :
  PathPrim.norm path' = PathPrim.norm path ->
  dirEntries1 fs' path' (snd (dirEntries1 fs path st))
  = (fst (dirEntries1 fs path st), snd (dirEntries1 fs path st)).
Proof.
  intros Hn. apply dirEntries1_hit. rewrite Hn. apply dirEntries1_cached.
Qed.

Lemma dirEntries1_agrees fs path st :
  cache_agrees fs st ->
  fst (dirEntries1 fs path st) = dirEntries fs (PathPrim.norm path)
  /\ cache_agrees fs (snd (dirEntries1 fs path st)).
Proof.
  intros Hc. unfold dirEntries1.
  destruct (_cache st !! PathPrim.norm path) as [es|] eqn:E; simpl.
  - split; [now apply Hc|exact Hc].
  - split; [reflexivity|]. intros key es. simpl.
    rewrite lookup_insert. case_decide as Hk.
    + intros [= <-]. now rewrite Hk.
    + apply Hc.
Qed.

Lemma dirEntries1_sorted fs path st :
  cache_sorted st ->
  Sorted DirEntry_le (fst (dirEntries1 fs path st))
  /\ cache_sorted (snd (dirEntries1 fs path st)).
Proof.
  intros Hc. unfold dirEntries1.
  assert (Hs : Sorted DirEntry_le (dirEntries fs (PathPrim.norm path))).
  { unfold dirEntries. destruct (fs _); [apply OrderFacts.sortEntries_Sorted|constructor]. }
  destruct (_cache st !! PathPrim.norm path) as [es|] eqn:E; simpl.
  - split; [now apply (Hc _ _ E)|exact Hc].
  - split; [exact Hs|]. intros key es. simpl.
    rewrite lookup_insert. case_decide as Hk.
    + now intros [= <-].
    + apply Hc.
Qed.

Lemma logs_match_new (u : U) : logs_match (new (Some []) u).
Proof.
  unfold new, logs_match; simpl. split; [reflexivity|]. split; [constructor|].
  intros p. rewrite lookup_empty. split; [intros H; inversion H|intros [? [=]]].
Qed.

Lemma logs_match_step fs path st :
  logs_match st ->
  logs_match (snd (dirEntries1 fs path st))
  /\ forall p, p ∈ opened (snd (dirEntries1 fs path st))
              <-> p ∈ opened st \/ p = PathPrim.norm path.
Proof.
  intros (Hd & Hn & Hk). unfold dirEntries1.
  destruct (_cache st !! PathPrim.norm path) as [es|] eqn:E; simpl.
  - split; [exact (conj Hd (conj Hn Hk))|]. intros p. split; [auto|].
    intros [H| ->]; [exact H|]. apply Hk. eauto.
  - split.
    + unfold logs_match; simpl. rewrite Hd. split; [reflexivity|]. split.
      * apply NoDup_app. split; [exact Hn|]. split; [|apply NoDup_singleton].
        intros p Hp ->%list_elem_of_singleton. apply Hk in Hp as [? Hp]. congruence.
      * intros p. rewrite elem_of_app, list_elem_of_singleton, lookup_insert, Hk.
        case_decide as Hc; [subst; split; eauto|].
        split; [intros [Hp|Hp]; [exact Hp|congruence]|auto].
    + intros p. now rewrite elem_of_app, list_elem_of_singleton.
Qed.

Lemma logs_match_lookups reqs st :
  logs_match st ->
  logs_match (lookups reqs st)
  /\ forall p, p ∈ opened (lookups reqs st)
              <-> p ∈ opened st \/ p ∈ map (fun r => PathPrim.norm (snd r)) reqs.
Proof.
  revert st. induction reqs as [|[fs path] reqs IH]; intros st Hst; simpl.
  - split; [exact Hst|]. intros p. split; [auto|]. intros [H|H]; [exact H|inversion H].
  - destruct (logs_match_step fs path st Hst) as [Hst' Hop].
    destruct (IH _ Hst') as [Hfin Hin]. split; [exact Hfin|].
    intros p. rewrite Hin, Hop, elem_of_cons. tauto.
Qed.

(** Listing a directory and the caller's data do not touch each other. *)
Lemma dirEntries1_set_user fs path (u : U) st :
  dirEntries1 fs path (set_user u st)
  = (fst (dirEntries1 fs path st), set_user u (snd (dirEntries1 fs path st))).
Proof. unfold dirEntries1. simpl. now destruct (_cache st !! _). Qed.

Lemma cache_agrees_new fs deps (u : U) : cache_agrees fs (new deps u).
Proof. intros key es. unfold new; simpl. rewrite lookup_empty. discriminate. Qed.

Lemma cache_sorted_new deps (u : U) : cache_sorted (new deps u).
Proof. intros key es. unfold new; simpl. rewrite lookup_empty. discriminate. Qed.

Lemma waitAll_nil sched fs st : _pool st = [] -> waitAll sched fs st = Some st.
Proof. intros H. unfold waitAll. now rewrite H. Qed.

Lemma takeTask_elem (k : nat) (q q' : list (Task U)) t :
  takeTask k q = Some (t, q') -> t ∈ q /\ q' ⊆ q.
Proof.
  unfold takeTask. destruct (q !! _) as [t'|] eqn:E; [|discriminate].
  intros [= <- <-]. split; [eapply list_elem_of_lookup_2, E|apply list_subseteq_delete].
Qed.

End WithUser.

End CacheFacts.

(** ** Paths and wildcards *)

Module PathFacts.
Import PathPrim.

Lemma isGlobPattern_take n s :
  isGlobPattern s = false -> isGlobPattern (str_take n s) = false.
Proof.
  unfold isGlobPattern. revert s.
  induction n as [|n IH]; intros [|c s]; simpl; try reflexivity.
  intros [Hc Hs]%orb_false_iff. rewrite Hc. simpl. now apply IH.
Qed.

Lemma isGlobPattern_drop n s :
  isGlobPattern s = false -> isGlobPattern (str_drop n s) = false.
Proof.
  unfold isGlobPattern. revert s.
  induction n as [|n IH]; intros [|c s]; simpl; try tauto.
  intros [Hc Hs]%orb_false_iff. now apply IH.
Qed.

Lemma isGlobPattern_rstripSep s :
  isGlobPattern s = false -> isGlobPattern (rstripSep s) = false.
Proof.
  unfold isGlobPattern.
  induction s as [|c s IH]; simpl; [reflexivity|].
  intros [Hc Hs]%orb_false_iff. specialize (IH Hs).
  destruct (rstripSep s) as [|c' r].
  - destruct (isSep c); simpl; [reflexivity|]. now rewrite Hc.
  - simpl in *. now rewrite Hc.
Qed.

(** Neither part of a split has a wildcard that the path does not have. *)
Lemma split_no_glob p :
  isGlobPattern p = false ->
  isGlobPattern (fst (split p)) = false /\ isGlobPattern (snd (split p)) = false.
Proof.
  intros Hp. unfold split. simpl. split; [|now apply isGlobPattern_drop].
  pose proof (isGlobPattern_take (tailStart p 0 0) p Hp) as Hb.
  pose proof (isGlobPattern_rstripSep _ Hb) as Hr.
  now destruct (rstripSep _).
Qed.

Lemma isRecursiveGlob_isGlobPattern t :
  isRecursiveGlob t = true -> isGlobPattern t = true.
Proof.
  unfold isRecursiveGlob, isGlobPattern, isGlobChar.
  destruct t as [|c t]; simpl; [discriminate|].
  intros [[_ Hc]%andb_prop _]%andb_prop. now rewrite Hc, orb_true_r.
Qed.

Lemma join_inj buf n n' : join n buf = join n' buf -> n = n'.
Proof.
  unfold join. destruct (lastChar buf) as [c|]; [|auto].
  destruct (isSep c); intros H%(inj (String.append buf)); congruence.
Qed.

(** *** Separators at the end of a path *)

Lemma isSep_not_glob c : isSep c = true -> isGlobChar c = false.
Proof. unfold isSep. intros ->%Ascii.eqb_eq. reflexivity. Qed.

Lemma str_app_assoc (a b c : string) : (a ++ b) ++ c = a ++ b ++ c.
Proof. induction a as [|x a IH]; simpl; [reflexivity|]. now rewrite IH. Qed.

Lemma str_length_app (a b : string) :
  String.length (a ++ b) = String.length a + String.length b.
Proof. induction a as [|x a IH]; simpl; [reflexivity|]. now rewrite IH. Qed.

Lemma str_take_app (a b : string) : str_take (String.length a) (a ++ b) = a.
Proof. induction a as [|x a IH]; simpl; [now destruct b|]. now rewrite IH. Qed.

Lemma lastChar_cons c s :
  lastChar (String c s) = match s with EmptyString => Some c | _ => lastChar s end.
Proof. now destruct s. Qed.

Lemma lastChar_app s c t : lastChar (s ++ String c t) = lastChar (String c t).
Proof.
  induction s as [|x s IH]; [reflexivity|].
  change (String x s ++ String c t) with (String x (s ++ String c t)).
  rewrite lastChar_cons, IH. now destruct s.
Qed.

Lemma lastChar_None s : lastChar s = None -> s = "".
Proof.
  induction s as [|c s IH]; [reflexivity|]. rewrite lastChar_cons.
  destruct s; [discriminate|]. intros H. specialize (IH H). discriminate.
Qed.

Lemma rstripSep_app_sep s : rstripSep (s ++ "/") = rstripSep s.
Proof. induction s as [|c s IH]; simpl; [reflexivity|]. now rewrite IH. Qed.

Lemma rstripSep_nonsep s c :
  lastChar s = Some c -> isSep c = false -> rstripSep s = s.
Proof.
  induction s as [|x s IH]; [discriminate|].
  rewrite lastChar_cons. destruct s as [|y s'].
  - intros [= ->] Hc. simpl. now rewrite Hc.
  - intros Hl Hc. specialize (IH Hl Hc). simpl in *. now rewrite IH.
Qed.

Lemma rstripSep_result s :
  rstripSep s = "" \/ exists c, lastChar (rstripSep s) = Some c /\ isSep c = false.
Proof.
  induction s as [|x s IH]; simpl; [now left|].
  destruct (rstripSep s) as [|y r] eqn:E.
  - destruct (isSep x) eqn:Hx; [now left|]. right. exists x. now split.
  - right. destruct IH as [IH|(c & Hc & Hs)]; [discriminate|].
    exists c. split; [|exact Hs]. now rewrite lastChar_cons.
Qed.

(** When everything is stripped the path is made of separators only. *)
Lemma rstripSep_empty_lastChar s c :
  rstripSep s = "" -> lastChar s = Some c -> isSep c = true.
Proof.
  induction s as [|x s IH]; [discriminate|]. intros Hr. simpl in Hr.
  destruct (rstripSep s) eqn:E; [|discriminate].
  destruct (isSep x) eqn:Hx; [|discriminate].
  rewrite lastChar_cons. destruct s; [now intros [= <-]|]. now apply IH.
Qed.

Lemma clean_cases p :
  clean p ->
  p = "" \/ (exists c, lastChar p = Some c /\ isSep c = false)
  \/ (rstripSep p = "" /\ exists c, lastChar p = Some c /\ isSep c = true).
Proof.
  unfold clean. intros H.
  destruct (rstripSep p) as [|x r] eqn:E.
  - destruct (lastChar p) as [c|] eqn:El.
    + right; right. split; [reflexivity|]. exists c. split; [reflexivity|].
      eapply rstripSep_empty_lastChar; eassumption.
    + left. now apply lastChar_None.
  - right; left. destruct (rstripSep_result p) as [H0|(c & Hc & Hs)]; [congruence|].
    exists c. split; [|exact Hs]. rewrite E, H in Hc. exact Hc.
Qed.

Lemma clean_nonsep p c : lastChar p = Some c -> isSep c = false -> clean p.
Proof.
  intros Hl Hc. unfold clean. rewrite (rstripSep_nonsep p c Hl Hc). now destruct p.
Qed.

Lemma clean_split_head p : clean (fst (split p)).
Proof.
  unfold split. simpl. set (before := str_take _ p).
  destruct (rstripSep before) as [|x r] eqn:E.
  - unfold clean. now rewrite E.
  - destruct (rstripSep_result before) as [H0|(c & Hc & Hs)]; [congruence|].
    rewrite E in Hc. eapply clean_nonsep; eassumption.
Qed.

(** *** Where the last component starts *)

Lemma tailStart_nosep s i acc :
  str_existsb isSep s = false -> tailStart s i acc = acc.
Proof.
  revert i acc. induction s as [|c s IH]; intros i acc; simpl; [reflexivity|].
  intros [Hc Hs]%orb_false_iff. rewrite Hc. now apply IH.
Qed.

Lemma tailStart_app s t i acc :
  tailStart (s ++ t) i acc = tailStart t (i + String.length s) (tailStart s i acc).
Proof.
  revert i acc. induction s as [|c s IH]; intros i acc; simpl.
  - now rewrite Nat.add_0_r.
  - rewrite IH. f_equal. lia.
Qed.

Lemma tailStart_seps s i acc c :
  rstripSep s = "" -> lastChar s = Some c ->
  tailStart s i acc = i + String.length s.
Proof.
  revert i acc. induction s as [|x s IH]; intros i acc; [discriminate|].
  intros Hr. simpl in Hr.
  destruct (rstripSep s) eqn:E; [|discriminate].
  destruct (isSep x) eqn:Hx; [|discriminate].
  rewrite lastChar_cons. cbn [tailStart]. rewrite Hx. destruct s as [|y s'].
  - intros _. simpl. lia.
  - intros Hl. rewrite (IH (S i) (S i) eq_refl Hl). simpl. lia.
Qed.

Lemma tailStart_lt s i acc c :
  lastChar s = Some c -> isSep c = false -> acc <= i ->
  tailStart s i acc < i + String.length s.
Proof.
  revert i acc. induction s as [|x s IH]; intros i acc; [discriminate|].
  rewrite lastChar_cons. destruct s as [|y s'].
  - intros [= ->] Hc Hacc. simpl. rewrite Hc. lia.
  - intros Hl Hc Hacc. cbn [tailStart].
    assert (Hle : (if isSep x then S i else acc) <= S i) by (destruct (isSep x); lia).
    pose proof (IH (S i) _ Hl Hc Hle) as H. simpl in *. lia.
Qed.

Lemma str_drop_nonempty n s : n < String.length s -> str_drop n s <> "".
Proof.
  revert s. induction n as [|n IH]; intros [|c s]; simpl; try lia; [discriminate|].
  intros H. apply IH. lia.
Qed.

Lemma tailStart_sep_nosep p n :
  str_existsb isSep n = false ->
  tailStart (p ++ String "/" n) 0 0 = String.length (p ++ "/").
Proof.
  intros Hn. rewrite tailStart_app. cbn [tailStart].
  change (isSep "/") with true. cbn iota.
  rewrite (tailStart_nosep n _ _ Hn), str_length_app. simpl. lia.
Qed.

(** [split] takes back what [join] put on. *)
Lemma split_join n p :
  clean p -> str_existsb isSep n = false -> fst (split (join n p)) = p.
Proof.
  intros Hp Hn. unfold join.
  destruct (clean_cases p Hp) as [->|[(c & Hl & Hc)|(Hr & c & Hl & Hc)]].
  - simpl. unfold split. rewrite (tailStart_nosep n 0 0 Hn). simpl. now destruct n.
  - rewrite Hl, Hc. unfold split. cbn [fst].
    rewrite (tailStart_sep_nosep p n Hn).
    replace (p ++ String "/" n) with ((p ++ "/") ++ n) by now rewrite str_app_assoc.
    rewrite str_take_app, rstripSep_app_sep, (rstripSep_nonsep p c Hl Hc).
    destruct p; [discriminate|reflexivity].
  - rewrite Hl, Hc. unfold split. cbn [fst].
    rewrite tailStart_app, (tailStart_nosep n _ _ Hn), (tailStart_seps p 0 0 c Hr Hl).
    cbn [Nat.add]. now rewrite str_take_app, Hr.
Qed.

Lemma clean_join n p : plainName n -> clean (join n p).
Proof.
  intros [Hne Hn]. destruct n as [|x n]; [congruence|].
  assert (exists c, lastChar (String x n) = Some c /\ isSep c = false) as (c & Hl & Hc).
  { clear Hne. revert x Hn. induction n as [|y n IH]; intros x; simpl.
    - rewrite orb_false_r. eauto.
    - intros [_ H]%orb_false_iff. apply (IH y H). }
  apply (clean_nonsep _ c); [|exact Hc].
  unfold join. destruct (lastChar p) as [z|]; [|exact Hl].
  destruct (isSep z).
  - now rewrite lastChar_app.
  - rewrite (lastChar_app p "/" (String x n)). now rewrite lastChar_cons.
Qed.

(** *** Wildcards and the parts of a split *)

Lemma isGlobPattern_rstripSep_eq s : isGlobPattern (rstripSep s) = isGlobPattern s.
Proof.
  unfold isGlobPattern. induction s as [|c s IH]; simpl; [reflexivity|].
  destruct (rstripSep s) as [|y r] eqn:E.
  - simpl in IH. rewrite <- IH, orb_false_r.
    destruct (isSep c) eqn:Hc; simpl; [now rewrite isSep_not_glob|now rewrite orb_false_r].
  - simpl in *. now rewrite IH.
Qed.

Lemma isGlobPattern_take_drop n s :
  isGlobPattern (str_take n s) || isGlobPattern (str_drop n s) = isGlobPattern s.
Proof.
  unfold isGlobPattern. revert s.
  induction n as [|n IH]; intros [|c s]; simpl; try reflexivity.
  now rewrite <- (IH s), orb_assoc.
Qed.

(** A wildcard of the path is in one of the parts of its split. *)
Lemma split_glob p :
  isGlobPattern p = true ->
  isGlobPattern (fst (split p)) = true \/ isGlobPattern (snd (split p)) = true.
Proof.
  intros Hp. unfold split. simpl.
  rewrite <- (isGlobPattern_take_drop (tailStart p 0 0) p) in Hp.
  apply orb_prop in Hp as [Hp|Hp]; [left|now right].
  rewrite <- isGlobPattern_rstripSep_eq in Hp.
  destruct (rstripSep _); [discriminate|exact Hp].
Qed.

(** The last component of a clean path with a wildcard is not empty. *)
Lemma split_tail_nonempty p :
  clean p -> isGlobPattern p = true -> snd (split p) <> "".
Proof.
  intros Hc Hg.
  destruct (clean_cases p Hc) as [->|[(c & Hl & Hs)|(Hr & _)]].
  - discriminate.
  - unfold split. simpl. apply str_drop_nonempty.
    apply (tailStart_lt p 0 0 c Hl Hs). lia.
  - rewrite <- isGlobPattern_rstripSep_eq, Hr in Hg. discriminate.
Qed.

End PathFacts.

(** ** The walks *)

Module WalkFacts.
Import DirCache.

Lemma glob4_loop_record fs path pattern entries (st : State (list (Path * bool))) :
  fold_left
    (fun st e =>
       if Glob.globMatch_public false (name e) pattern
       then call fs onMatch (PathPrim.join (name e) path) (isDir e) st
       else st)
    entries st
  = set_user (user st ++ matches4 path pattern entries)%list st.
Proof.
  revert st. induction entries as [|e es IH]; intros st; simpl.
  - rewrite app_nil_r. now destruct st.
  - rewrite IH. destruct (Glob.globMatch_public false (name e) pattern); simpl.
    + unfold set_user, record; simpl. now rewrite <- app_assoc.
    + reflexivity.
Qed.

Lemma globRecursive_loop_record fs root path entries (st : State (list (Path * bool))) :
  fold_left
    (fun st e =>
       let p := PathPrim.join (name e) path in
       let st' := call fs onMatch p (isDir e) st in
       if isDir e
       then enqueueTask {| task_root := root; task_path := p; task_callback := onMatch |} st'
       else st')
    entries st
  = set_pool (_pool st ++ entryTasks root path onMatch entries)%list
      (set_user (user st ++ entryMatches path entries)%list st).
Proof.
  revert st. induction entries as [|e es IH]; intros st; simpl.
  - rewrite !app_nil_r. now destruct st.
  - rewrite IH. unfold set_pool, set_user, enqueueTask, record.
    destruct (isDir e); simpl; now rewrite <- !app_assoc.
Qed.

(** [globRecursive] with the recording caller: the directory itself first,
    then the entries; one task for each entry that is a directory. *)
Lemma globRecursive_record fs root path (st : State (list (Path * bool))) :
  let st1 := snd (dirEntries2 fs root path st) in
  let entries := fst (dirEntries2 fs root path st) in
  globRecursive fs root path onMatch st
  = set_pool (_pool st ++ entryTasks root path onMatch entries)%list
      (set_user (user st ++ (path, true) :: entryMatches path entries)%list st1).
Proof.
  unfold globRecursive.
  change (call fs onMatch path true st) with (set_user (record path true (user st)) st).
  unfold dirEntries2. rewrite CacheFacts.dirEntries1_set_user.
  rewrite globRecursive_loop_record. unfold set_pool, set_user, record; simpl.
  now rewrite <- app_assoc, CacheFacts.dirEntries1_pool.
Qed.

Lemma entryTasks_callback {U} root path (cb : GlobCallback U) entries t :
  t ∈ entryTasks root path cb entries -> task_callback t = cb.
Proof.
  unfold entryTasks. rewrite list_elem_of_In, in_flat_map.
  intros (e & _ & Ht). destruct (isDir e); [|inversion Ht].
  destruct Ht as [<-|[]]. reflexivity.
Qed.

(** While the queue holds tasks of the recording caller only, running it
    adds to what was recorded and takes nothing away, whatever the
    schedule. *)
Lemma runTasks_record_grows sched fs (st st' : State (list (Path * bool))) :
  (forall t, t ∈ _pool st -> task_callback t = onMatch) ->
  runTasks sched fs st = Some st' ->
  exists more, user st' = (user st ++ more)%list.
Proof.
  revert st. induction sched as [|k sched IH]; intros st Hq; simpl; [discriminate|].
  destruct (takeTask k (_pool st)) as [[t q]|] eqn:E; [|discriminate].
  apply CacheFacts.takeTask_elem in E as [Ht Hsub].
  rewrite (Hq t Ht), globRecursive_record. simpl.
  set (entries := fst (dirEntries2 fs (task_root t) (task_path t) (set_pool q st))).
  destruct (q ++ entryTasks (task_root t) (task_path t) onMatch entries)%list
    as [|t1 q1] eqn:Eq.
  - intros [= <-]. simpl. eauto.
  - intros H. apply IH in H as [more Hmore].
    + simpl in Hmore. rewrite Hmore, <- app_assoc. eauto.
    + simpl. rewrite <- Eq. intros t' [Ht'|Ht']%elem_of_app.
      * apply Hq, Hsub, Ht'.
      * eapply entryTasks_callback, Ht'.
Qed.

Lemma waitAll_record_grows sched fs (st st' : State (list (Path * bool))) :
  (forall t, t ∈ _pool st -> task_callback t = onMatch) ->
  waitAll sched fs st = Some st' ->
  exists more, user st' = (user st ++ more)%list.
Proof.
  intros Hq. unfold waitAll. destruct (_pool st) eqn:E.
  - intros [= <-]. exists []. now rewrite app_nil_r.
  - apply runTasks_record_grows. now rewrite E.
Qed.

Lemma matches4_elem path pattern entries x :
  x ∈ map fst (matches4 path pattern entries) ->
  exists e, e ∈ entries /\ x = PathPrim.join (name e) path.
Proof.
  unfold matches4. rewrite list_elem_of_In, in_map_iff.
  intros ([q d] & <- & (e & He & Hq)%in_flat_map).
  exists e. split; [now apply list_elem_of_In|].
  destruct (Glob.globMatch_public false (name e) pattern); [|inversion Hq].
  destruct Hq as [[= <- _]|[]]. reflexivity.
Qed.

Lemma matches4_NoDup path pattern entries :
  NoDup (map name entries) -> NoDup (map fst (matches4 path pattern entries)).
Proof.
  induction entries as [|e es IH]; simpl; [constructor|].
  intros [Hne Hnd]%NoDup_cons. specialize (IH Hnd).
  destruct (Glob.globMatch_public false (name e) pattern); simpl; [|exact IH].
  apply NoDup_cons. split; [|exact IH].
  intros (e' & He' & Heq%PathFacts.join_inj)%matches4_elem.
  apply Hne. rewrite Heq. apply list_elem_of_In, in_map, list_elem_of_In, He'.
Qed.

Lemma dirEntries_names_NoDup fs key :
  distinct_names fs -> NoDup (map name (dirEntries fs key)).
Proof.
  intros Hfs. unfold dirEntries.
  destruct (fs _) as [raw|] eqn:E; [|constructor].
  rewrite OrderFacts.sortEntries_Permutation, OrderFacts.readdirLoop_names.
  apply NoDup_filter, (Hfs _ _ E).
Qed.

(** *** Patterns that lead to no recursive walk *)

Section Handed.
Variable fs : FileSystem.
Implicit Types (cb : GlobCallback (list (Path * bool))) (st : State (list (Path * bool))).

Lemma adds_loop (F : DirEntry -> State (list (Path * bool)) -> State (list (Path * bool)))
    (H : DirEntry -> list (Path * bool)) entries :
  (forall e, adds fs (F e) (H e)) ->
  adds fs (fun st => fold_left (fun st e => F e st) entries st) (flat_map H entries).
Proof.
  intros HF. induction entries as [|e es IH]; intros st Hst; simpl.
  - now rewrite app_nil_r.
  - destruct (HF e st Hst) as (Hu & Ha & Hp).
    destruct (IH _ Ha) as (Hu' & Ha' & Hp').
    rewrite Hu', Hu, <- app_assoc. split; [reflexivity|]. split; [exact Ha'|congruence].
Qed.

Lemma call_handed cb p d :
  recording cb -> adds fs (call fs cb p d) (handed fs cb p d).
Proof.
  revert p d. induction cb as [f|root tail next IH]; intros p d Hrec; simpl in Hrec.
  - subst f. intros st Hst. simpl. unfold record. auto.
  - intros st Hst. cbn [call handed]. destruct d.
    2:{ now rewrite app_nil_r. }
    unfold glob4. destruct (String.length tail =? 0)%nat.
    { now apply IH. }
    unfold dirEntries2.
    destruct (CacheFacts.dirEntries1_agrees fs (PathPrim.join p root) st Hst) as [He Ha].
    pose proof (CacheFacts.dirEntries1_user fs (PathPrim.join p root) st) as Hu.
    pose proof (CacheFacts.dirEntries1_pool fs (PathPrim.join p root) st) as Hp.
    destruct (dirEntries1 fs (PathPrim.join p root) st) as [es st1]. simpl in *. subst es.
    rewrite <- Hu, <- Hp.
    apply (adds_loop
             (fun e st => if Glob.globMatch_public false (name e) tail
                          then call fs next (PathPrim.join (name e) p) (isDir e) st else st)
             (fun e => if Glob.globMatch_public false (name e) tail
                       then handed fs next (PathPrim.join (name e) p) (isDir e) else [])).
    + intros e. destruct (Glob.globMatch_public false (name e) tail).
      * now apply IH.
      * intros st0 H0. now rewrite app_nil_r.
    + exact Ha.
Qed.

Hypothesis Hplain : plain_names fs.
Hypothesis Hdistinct : distinct_names fs.

(** Whatever a callback hands on for [p] lies [depth cb] components
    below [p]. *)
Lemma handed_up cb p d q :
  tails_ok cb ->
  (0 < depth cb -> clean p) ->
  q ∈ map fst (handed fs cb p d) ->
  up (depth cb) q = p.
Proof.
  revert p d. induction cb as [f|root tail next IH]; intros p d Hok Hp; simpl.
  - now intros ->%list_elem_of_singleton.
  - destruct Hok as [Htail Hok]. specialize (Hp ltac:(simpl; lia)).
    destruct d; [|intros H; inversion H].
    destruct (String.length tail =? 0)%nat eqn:Hlen.
    + destruct tail; [|discriminate]. destruct next as [f|? ? ?]; [|congruence].
      simpl. intros ->%list_elem_of_singleton. unfold up. simpl.
      now apply PathFacts.split_join.
    + rewrite list_elem_of_In, in_map_iff.
      intros ([q' d'] & <- & (e & He & Hq)%in_flat_map). simpl.
      destruct (Glob.globMatch_public false (name e) tail); [|inversion Hq].
      destruct (Hplain _ e ltac:(apply list_elem_of_In, He)) as [Hne Hsep].
      assert (Hup : up (depth next) q' = PathPrim.join (name e) p).
      { apply (IH _ (isDir e)); [exact Hok| |].
        - intros _. apply PathFacts.clean_join. now split.
        - apply list_elem_of_In, in_map_iff. exists (q', d'). now split. }
      change (fst (PathPrim.split (up (depth next) q')) = p).
      rewrite Hup. now apply PathFacts.split_join.
Qed.

Lemma handed_NoDup cb p d :
  tails_ok cb ->
  (0 < depth cb -> clean p) ->
  NoDup (map fst (handed fs cb p d)).
Proof.
  revert p d. induction cb as [f|root tail next IH]; intros p d Hok Hp; simpl.
  - apply NoDup_singleton.
  - destruct Hok as [Htail Hok]. specialize (Hp ltac:(simpl; lia)).
    destruct d; [|constructor].
    destruct (String.length tail =? 0)%nat eqn:Hlen.
    + apply IH; [exact Hok|].
      destruct tail; [|discriminate]. destruct next; simpl; [lia|congruence].
    + pose proof (dirEntries_names_NoDup fs (PathPrim.norm (PathPrim.join p root)) Hdistinct)
        as Hnd.
      assert (Hpl : forall e, e ∈ dirEntries fs (PathPrim.norm (PathPrim.join p root)) ->
                              plainName (name e)) by (intros e; apply Hplain).
      induction (dirEntries fs (PathPrim.norm (PathPrim.join p root))) as [|e es IHes];
        simpl; [constructor|].
      apply NoDup_cons in Hnd as [Hne Hnd]. rewrite map_app.
      assert (Hce : 0 < depth next -> clean (PathPrim.join (name e) p)).
      { intros _. apply PathFacts.clean_join, Hpl. left. }
      apply NoDup_app. split; [|split].
      * destruct (Glob.globMatch_public false (name e) tail); [|constructor].
        now apply IH.
      * intros q Hq1 Hq2. apply Hne.
        destruct (Glob.globMatch_public false (name e) tail); [|inversion Hq1].
        apply (handed_up next _ _ _ Hok Hce) in Hq1.
        apply list_elem_of_In, in_map_iff in Hq2 as ([q' d'] & <- & (e' & He' & Hq')%in_flat_map).
        destruct (Glob.globMatch_public false (name e') tail); [|inversion Hq'].
        assert (Hup : up (depth next) q' = PathPrim.join (name e') p).
        { apply (handed_up next _ (isDir e')); [exact Hok| |].
          - intros _. apply PathFacts.clean_join, Hpl. right. now apply list_elem_of_In.
          - apply list_elem_of_In, in_map_iff. exists (q', d'). now split. }
        simpl in Hq1. rewrite Hup in Hq1. apply PathFacts.join_inj in Hq1.
        rewrite <- Hq1. apply list_elem_of_In, in_map, He'.
      * apply IHes; [exact Hnd|]. intros e' He'. apply Hpl. now right.
Qed.

End Handed.

Lemma noWalk_dispatch {U} fuel root path (cb : GlobCallback U) :
  noWalk fuel path = true -> is_Some (dispatch fuel root path cb).
Proof.
  revert path cb. induction fuel as [|fuel IH]; intros path cb; [discriminate|].
  cbn [noWalk dispatch]. destruct (PathPrim.split path) as [head tail].
  destruct (isGlobPattern head); [apply IH|].
  destruct (isRecursiveGlob tail); [discriminate|]. intros _.
  destruct (isGlobPattern tail); [eauto|].
  destruct (0 <? String.length tail)%nat; eauto.
Qed.

(** With no recursive walk on its way, [glob] is the one call that
    [dispatch] names. *)
Lemma glob_dispatch fuel sched fs root path cb cb' p0 d0
    (st : State (list (Path * bool))) :
  dispatch fuel root path cb = Some (cb', p0, d0) ->
  recording cb ->
  cache_agrees fs st ->
  _pool st = [] ->
  glob fuel sched fs root path cb st = Some (call fs cb' p0 d0 st) /\ recording cb'.
Proof.
  revert path cb. induction fuel as [|fuel IH]; intros path cb; [discriminate|].
  cbn [dispatch glob]. destruct (PathPrim.split path) as [head tail].
  intros Hd Hrec Hst Hq.
  assert (Hdone : forall cb1 p1 d1, recording cb1 ->
            waitAll sched fs (call fs cb1 p1 d1 st) = Some (call fs cb1 p1 d1 st)).
  { intros cb1 p1 d1 H1. apply CacheFacts.waitAll_nil.
    destruct (call_handed fs cb1 p1 d1 H1 st Hst) as (_ & _ & ->). exact Hq. }
  destruct (isGlobPattern head).
  { destruct (IH head (IfDirGlob root tail cb) Hd Hrec Hst Hq) as [-> Hrec'].
    simpl. split; [now apply Hdone|exact Hrec']. }
  destruct (isRecursiveGlob tail); [discriminate|].
  destruct (isGlobPattern tail).
  { injection Hd as <- <- <-. simpl. split; [|exact Hrec].
    now apply (Hdone (IfDirGlob root tail cb) head true). }
  destruct (0 <? String.length tail)%nat; injection Hd as <- <- <-; simpl;
    (split; [now apply Hdone|exact Hrec]).
Qed.

(** The callback and the path that [dispatch] names are as [handed_NoDup]
    wants them. *)
Lemma dispatch_ok {U} fuel root path (cb cb' : GlobCallback U) p0 d0 :
  dispatch fuel root path cb = Some (cb', p0, d0) ->
  tails_ok cb ->
  match cb with
  | OnMatch _ => True
  | IfDirGlob _ _ _ => clean path /\ isGlobPattern path = true
  end ->
  tails_ok cb' /\ (0 < depth cb' -> clean p0).
Proof.
  revert path cb. induction fuel as [|fuel IH]; intros path cb; [discriminate|].
  cbn [dispatch].
  pose proof (PathFacts.clean_split_head path) as Hch.
  pose proof (PathFacts.split_glob path) as Hsg.
  pose proof (PathFacts.split_tail_nonempty path) as Htn.
  destruct (PathPrim.split path) as [head tail]. simpl in Hch, Hsg, Htn.
  intros Hd Hok Hinv.
  destruct (isGlobPattern head) eqn:Hh.
  { apply (IH head (IfDirGlob root tail cb) Hd).
    - simpl. split; [|exact Hok]. destruct cb; [exact I|]. now apply Htn.
    - now split. }
  destruct (isRecursiveGlob tail); [discriminate|].
  destruct (isGlobPattern tail) eqn:Ht.
  { injection Hd as <- <- <-. simpl. split; [|intros _; exact Hch].
    split; [|exact Hok]. destruct cb; [exact I|]. intros ->. discriminate. }
  assert (Hlit : tails_ok cb /\ forall p1 : Path, 0 < depth cb -> clean p1).
  { split; [exact Hok|]. intros p1 Hdepth. destruct cb; simpl in Hdepth; [lia|].
    destruct Hinv as [_ Hg]. destruct (Hsg Hg); congruence. }
  destruct Hlit as [H1 H2].
  destruct (0 <? String.length tail)%nat; injection Hd as <- <- <-; auto.
Qed.

Lemma tree_fs_distinct : distinct_names tree_fs.
Proof.
  intros p raw. unfold tree_fs.
  destruct (String.eqb p "root"); [|destruct (String.eqb p "root/sub")];
    intros [= <-]; apply (bool_decide_unpack (NoDup _)); vm_compute; exact I.
Qed.

Lemma tree_fs_plain : plain_names tree_fs.
Proof.
  intros key e. unfold dirEntries.
  destruct (tree_fs _) as [raw|] eqn:E; [|intros H; inversion H].
  unfold tree_fs in E.
  destruct (String.eqb _ "root"); [|destruct (String.eqb _ "root/sub")];
    [| |discriminate]; injection E as <-;
    set (l := sortEntries _); vm_compute in l; subst l;
    rewrite !elem_of_cons; intros H;
    repeat (destruct H as [->|H]; [split; [discriminate|reflexivity]|]);
    inversion H.
Qed.

(** [glob] by the branch it takes. *)
Section Dispatch.
Context {U : Type}.
Implicit Types (st : State U) (cb : GlobCallback U).

Lemma glob_recursive fuel sched fs root path cb st :
  isGlobPattern (fst (PathPrim.split path)) = false ->
  isRecursiveGlob (snd (PathPrim.split path)) = true ->
  glob (S fuel) sched fs root path cb st
  = waitAll sched fs (globRecursive fs root (fst (PathPrim.split path)) cb st).
Proof.
  intros Hh Ht. cbn [glob]. destruct (PathPrim.split path) as [head tail]; simpl in *.
  now rewrite Hh, Ht.
Qed.

Lemma glob_single fuel sched fs root path cb st :
  isGlobPattern (fst (PathPrim.split path)) = false ->
  isRecursiveGlob (snd (PathPrim.split path)) = false ->
  isGlobPattern (snd (PathPrim.split path)) = true ->
  glob (S fuel) sched fs root path cb st
  = waitAll sched fs
      (glob4 fs root (fst (PathPrim.split path)) (snd (PathPrim.split path))
         (call fs cb) st).
Proof.
  intros Hh Hr Ht. cbn [glob]. destruct (PathPrim.split path) as [head tail]; simpl in *.
  now rewrite Hh, Hr, Ht.
Qed.

Lemma glob_literal fuel sched fs root path cb st :
  isGlobPattern (fst (PathPrim.split path)) = false ->
  isGlobPattern (snd (PathPrim.split path)) = false ->
  glob (S fuel) sched fs root path cb st
  = waitAll sched fs
      (if (0 <? String.length (snd (PathPrim.split path)))%nat
       then call fs cb path false st
       else call fs cb (fst (PathPrim.split path)) true st).
Proof.
  intros Hh Ht. cbn [glob]. destruct (PathPrim.split path) as [head tail]; simpl in *.
  rewrite Hh, Ht.
  destruct (isRecursiveGlob tail) eqn:Hr.
  - apply PathFacts.isRecursiveGlob_isGlobPattern in Hr. congruence.
  - now destruct (0 <? String.length tail)%nat.
Qed.

Lemma isGlobPattern_nonempty t :
  isGlobPattern t = true -> (String.length t =? 0)%nat = false.
Proof. now destruct t. Qed.

End Dispatch.

End WalkFacts.

(** ** The aggregation *)

Module LuaFacts.
Import LuaGlob.

(** The fuel that [aggregate] gives the merge is enough: the merge ends by
    returning the table or by reading past the end of [includes]. *)
Lemma mergeLoop_fuel fuel includes excludes i e out :
  (length includes - i) + (length excludes - e) <= fuel ->
  mergeLoop fuel includes excludes i e out <> OutOfFuel.
Proof.
  revert i e out. induction fuel as [|fuel IH]; intros i e out Hfuel; simpl.
  - destruct (includes !! i) as [inc|] eqn:Ei; [|discriminate].
    destruct (excludes !! e) as [exc|] eqn:Ee; [|discriminate].
    apply lookup_lt_Some in Ei, Ee. lia.
  - destruct (includes !! i) as [inc|] eqn:Ei; [|discriminate].
    destruct (excludes !! e) as [exc|] eqn:Ee; [|discriminate].
    apply lookup_lt_Some in Ei, Ee.
    destruct (PathPrim.compare inc exc <? 0)%Z.
    + destruct (includes !! S i); [|discriminate]. apply IH. lia.
    + destruct (0 <? PathPrim.compare inc exc)%Z; apply IH; lia.
Qed.

Lemma aggregate_fuel a : aggregate a <> OutOfFuel.
Proof.
  unfold aggregate.
  destruct (transformInto _ (poolIncludes a) _); [|discriminate].
  destruct (transformInto _ (poolExcludes a) _); [|discriminate].
  apply mergeLoop_fuel. lia.
Qed.

End LuaFacts.

(** ** The pattern matcher, further *)

Module MatchFacts.
Import Glob GlobFacts.

Lemma tolower_idem c : tolower (tolower c) = tolower c.
Proof. destruct c as [[] [] [] [] [] [] [] []]; reflexivity. Qed.

Lemma nat_of_ascii_inj a b : nat_of_ascii a = nat_of_ascii b -> a = b.
Proof.
  intros H. rewrite <- (ascii_nat_embedding a), <- (ascii_nat_embedding b).
  now rewrite H.
Qed.

Lemma charCmp_zero cs a b :
  (charCmp cs a b =? 0)%Z = Ascii.eqb (foldChar cs a) (foldChar cs b).
Proof.
  unfold charCmp, foldChar.
  destruct cs.
  - destruct (Ascii.eqb_spec a b) as [->|Hne].
    + rewrite Z.sub_diag. reflexivity.
    + apply Z.eqb_neq. intros H. apply Hne, nat_of_ascii_inj. lia.
  - destruct (Ascii.eqb_spec (tolower a) (tolower b)) as [->|Hne].
    + rewrite Z.sub_diag. reflexivity.
    + apply Z.eqb_neq. intros H. apply Hne, nat_of_ascii_inj. lia.
Qed.

Lemma foldChar_idem cs c : foldChar cs (foldChar cs c) = foldChar cs c.
Proof. destruct cs; [reflexivity|apply tolower_idem]. Qed.

Lemma str_map_length f s : String.length (str_map f s) = String.length s.
Proof. induction s; simpl; congruence. Qed.

Lemma foldCase_sensitive s : foldCase true s = s.
Proof.
  unfold foldCase. induction s as [|c s IH]; simpl; [reflexivity|]. now rewrite IH.
Qed.

Lemma str_take_drop n s : str_take n s ++ str_drop n s = s.
Proof.
  revert s. induction n as [|n IH]; intros [|c s]; simpl; try reflexivity.
  now rewrite IH.
Qed.

Lemma isGlobChar_false c :
  isGlobChar c = false ->
  Ascii.eqb c "?" = false /\ Ascii.eqb c "*" = false /\ Ascii.eqb c "[" = false.
Proof.
  unfold isGlobChar.
  destruct (Ascii.eqb c "?"), (Ascii.eqb c "*"), (Ascii.eqb c "["); simpl;
    intros; try discriminate; auto.
Qed.

(** A character of the pattern that is no wildcard goes through the
    [default] case. *)
Lemma globMatch_literal_cons cs path c pat :
  isGlobChar c = false ->
  globMatch cs path (String c pat) =
  match path with
  | EmptyString => false
  | String p0 path' =>
      Ascii.eqb (foldChar cs p0) (foldChar cs c) && globMatch cs path' pat
  end.
Proof.
  intros Hc. apply isGlobChar_false in Hc as (H1 & H2 & H3).
  rewrite globMatch_equation_2, H1, H2, H3.
  destruct path as [|p0 path']; [reflexivity|].
  rewrite charCmp_zero. destruct (Ascii.eqb _ _); reflexivity.
Qed.

Lemma globMatch_literal_aux cs pattern :
  isGlobPattern pattern = false ->
  forall path,
  globMatch cs path pattern = true <-> foldCase cs path = foldCase cs pattern.
Proof.
  induction pattern as [|c pat IH]; intros Hp path.
  - rewrite globMatch_equation_1. destruct path; simpl; split; auto; discriminate.
  - cbn [isGlobPattern str_existsb] in Hp. apply orb_false_iff in Hp as [Hc Hp].
    rewrite globMatch_literal_cons by exact Hc.
    destruct path as [|p0 path']; [split; discriminate|].
    rewrite andb_true_iff, (IH Hp path'), Ascii.eqb_eq.
    unfold foldCase. simpl. split.
    + intros [-> ->]. reflexivity.
    + intros [= -> ->]. auto.
Qed.

Lemma existsb_map_ext {A B} (f : B -> bool) (g : A -> B) (h : A -> bool) l :
  (forall x, f (g x) = h x) -> existsb f (map g l) = existsb h l.
Proof. intros H. induction l as [|x l IH]; simpl; [reflexivity|]. now rewrite H, IH. Qed.

(** The suffixes of a path with another case. *)
Lemma str_suffixes_map f s :
  str_suffixes (str_map f s) = map (str_map f) (str_suffixes s).
Proof. induction s as [|c s IH]; simpl; [reflexivity|]. now rewrite IH. Qed.

Lemma bracketScan_tolower c cls :
  bracketScan false (tolower c) cls = bracketScan false c cls.
Proof.
  rewrite !bracketScan_existsb.
  induction cls as [|x cls IH]; cbn [str_existsb]; [reflexivity|].
  rewrite IH, !charCmp_zero. unfold foldChar. now rewrite tolower_idem.
Qed.

Lemma globMatch_lower_path_aux n :
  forall pattern path,
    String.length pattern <= n ->
    globMatch false (str_map tolower path) pattern = globMatch false path pattern.
Proof.
  induction n as [|n IH]; intros pattern path Hn.
  - destruct pattern; [|simpl in Hn; lia].
    rewrite !globMatch_equation_1. destruct path; reflexivity.
  - destruct pattern as [|c pat].
    { rewrite !globMatch_equation_1. destruct path; reflexivity. }
    simpl in Hn. rewrite !globMatch_equation_2.
    destruct (Ascii.eqb c "?").
    { destruct path as [|p0 path']; [reflexivity|]. simpl. apply IH. lia. }
    destruct (Ascii.eqb c "*").
    { destruct pat as [|c1 pat1]; [reflexivity|].
      rewrite str_suffixes_map.
      apply existsb_map_ext. intros sub. apply IH. simpl in *. lia. }
    destruct (Ascii.eqb c "[").
    { destruct path as [|p0 path']; [reflexivity|]. cbn [str_map].
      destruct pat as [|c1 pat1]; [reflexivity|].
      cbv zeta.
      destruct (_ && _); [reflexivity|].
      destruct (str_find "]" _) as [e|] eqn:Ef; [|reflexivity].
      rewrite bracketScan_tolower.
      destruct (Bool.eqb _ _); [reflexivity|].
      apply IH.
      pose proof (str_drop_length (S e)
                    (if Ascii.eqb c1 "!" then str_drop 1 (String c1 pat1) else String c1 pat1)) as H1.
      pose proof (str_drop_length 1 (String c1 pat1)) as H2.
      apply str_find_lt in Ef.
      destruct (Ascii.eqb c1 "!"); simpl in *; lia. }
    destruct path as [|p0 path']; [reflexivity|]. cbn [str_map].
    rewrite !charCmp_zero. unfold foldChar. rewrite tolower_idem.
    destruct (Ascii.eqb _ _); [|reflexivity]. apply IH. lia.
Qed.

End MatchFacts.

(** ** The readdir loop *)

Module ListingFacts.
Import OrderFacts.

Lemma isDotOrDotDot_spec n : isDotOrDotDot n = true <-> n = "." \/ n = "..".
Proof.
  destruct n as [|c0 [|c1 [|c2 r]]]; simpl.
  - split; [discriminate|]. intros [H|H]; discriminate.
  - destruct (Ascii.eqb_spec c0 "."); simpl; split; try discriminate; auto.
    + intros _. left. congruence.
    + intros [H|H]; congruence.
  - destruct (Ascii.eqb_spec c0 "."), (Ascii.eqb_spec c1 "."); simpl; split;
      try discriminate; auto; try (intros [H|H]; congruence).
    intros _. right. congruence.
  - rewrite andb_false_r, andb_false_r. split; [discriminate|].
    intros [H|H]; discriminate.
Qed.

Lemma isDotOrDotDot_false n : isDotOrDotDot n = false <-> n <> "." /\ n <> "..".
Proof.
  rewrite <- not_true_iff_false, isDotOrDotDot_spec. tauto.
Qed.

Lemma isDT_DIR_entryType r : isDT_DIR (entryType r) = listedAsDir r.
Proof.
  unfold entryType, listedAsDir.
  destruct (d_kind r); try reflexivity.
  destruct (d_stat r) as [[]|]; reflexivity.
Qed.

Lemma readdirLoop_elem raw e :
  e ∈ readdirLoop raw <->
  exists r, r ∈ raw /\ d_name r <> "." /\ d_name r <> ".." /\
            e = {| name := d_name r; isDir := listedAsDir r |}.
Proof.
  induction raw as [|r0 raw IH]; simpl.
  - split; [intros H; inversion H|]. intros (r & H & _). inversion H.
  - destruct (isDotOrDotDot (d_name r0)) eqn:Ed.
    + rewrite IH. split.
      * intros (r & Hr & H). exists r. split; [now right|exact H].
      * intros (r & Hr & Hn1 & Hn2 & He). apply elem_of_cons in Hr as [->|Hr].
        -- apply isDotOrDotDot_spec in Ed. tauto.
        -- exists r. auto.
    + rewrite elem_of_cons, IH, isDT_DIR_entryType.
      apply isDotOrDotDot_false in Ed as [Hn1 Hn2]. split.
      * intros [->|(r & Hr & H)].
        -- exists r0. split; [now left|auto].
        -- exists r. split; [now right|exact H].
      * intros (r & Hr & H1 & H2 & He). apply elem_of_cons in Hr as [->|Hr].
        -- now left.
        -- right. exists r. auto.
Qed.

Lemma DirEntry_lt_le a b : DirEntry_lt a b = true <-> ~ DirEntry_le b a.
Proof. unfold DirEntry_le. destruct (DirEntry_lt a b); split; congruence. Qed.

End ListingFacts.

(** ** What the operations of the cache keep *)

Module InvariantFacts.
Import DirCache.


(** What every lookup keeps, every operation of the cache keeps: the
    helpers, the callbacks, the recursive walk, the tasks of the pool and
    [glob] act on the cache through [dirEntries] only. *)
Section Preserved.
Context {U : Type}.
Variable fs : FileSystem.
Variable P : State U -> Prop.
Hypothesis P_user : forall u st, P st -> P (set_user u st).
Hypothesis P_lookup : forall path st, P st -> P (snd (dirEntries1 fs path st)).

Lemma fold_inv {A} (F : State U -> A -> State U) (l : list A) st :
  (forall st a, P st -> P (F st a)) -> P st -> P (fold_left F l st).
Proof.
  intros HF. revert st. induction l as [|a l IH]; intros st H; simpl; [exact H|].
  apply IH, HF, H.
Qed.

Lemma glob4_inv root path pattern (k : Path -> bool -> State U -> State U) st :
  (forall p d st, P st -> P (k p d st)) ->
  P st -> P (glob4 fs root path pattern k st).
Proof.
  intros Hk H. unfold glob4.
  destruct (String.length pattern =? 0)%nat; [now apply Hk|].
  unfold dirEntries2.
  pose proof (P_lookup (PathPrim.join path root) st H) as H1.
  destruct (dirEntries1 fs (PathPrim.join path root) st) as [entries st1].
  apply fold_inv; [|exact H1].
  intros st2 e H2. destruct (Glob.globMatch_public false (name e) pattern); auto.
Qed.

Lemma call_inv cb : forall p d st, P st -> P (call fs cb p d st).
Proof.
  induction cb as [f|root tail next IH]; intros p d st H; cbn [call].
  - now apply P_user.
  - destruct d; [|exact H]. now apply glob4_inv.
Qed.

Hypothesis P_pool : forall q st, P st -> P (set_pool q st).

Lemma globRecursive_inv root path cb st :
  P st -> P (globRecursive fs root path cb st).
Proof.
  intros H. unfold globRecursive, dirEntries2.
  pose proof (P_lookup (PathPrim.join path root) _ (call_inv cb path true st H)) as H1.
  destruct (dirEntries1 fs (PathPrim.join path root) (call fs cb path true st))
    as [entries st1].
  apply fold_inv; [|exact H1].
  intros st2 e H2. cbv zeta.
  destruct (isDir e); [apply P_pool|]; now apply call_inv.
Qed.

Lemma runTasks_inv sched : forall st st',
  P st -> runTasks sched fs st = Some st' -> P st'.
Proof.
  induction sched as [|k sched IH]; intros st st' H; cbn [runTasks]; [discriminate|].
  destruct (takeTask k (_pool st)) as [[t q]|]; [|discriminate].
  pose proof (globRecursive_inv (task_root t) (task_path t) (task_callback t)
                (set_pool q st) (P_pool q st H)) as H1.
  destruct (_pool (globRecursive fs _ _ _ _)).
  - now intros [= <-].
  - now apply IH.
Qed.

Lemma waitAll_inv sched st st' : P st -> waitAll sched fs st = Some st' -> P st'.
Proof.
  intros H. unfold waitAll. destruct (_pool st).
  - now intros [= <-].
  - now apply runTasks_inv.
Qed.

Lemma glob_inv fuel sched root : forall path cb st st',
  P st -> glob fuel sched fs root path cb st = Some st' -> P st'.
Proof.
  induction fuel as [|fuel IH]; intros path cb st st' H; cbn [glob]; [discriminate|].
  destruct (PathPrim.split path) as [head tail].
  destruct (isGlobPattern head).
  { destruct (glob fuel sched fs root head (IfDirGlob root tail cb) st) as [st1|] eqn:E;
      [|discriminate].
    simpl. apply waitAll_inv. exact (IH _ _ _ _ H E). }
  destruct (isRecursiveGlob tail);
    [simpl; apply waitAll_inv; now apply globRecursive_inv|].
  destruct (isGlobPattern tail);
    [simpl; apply waitAll_inv; apply glob4_inv; [apply call_inv|exact H]|].
  destruct (0 <? String.length tail)%nat; simpl; apply waitAll_inv; now apply call_inv.
Qed.

End Preserved.

(** *** The queue of the pool *)

Section Pool.
Context {U : Type}.
Implicit Types (st : State U) (cb : GlobCallback U).

Lemma call_pool fs cb p d st : _pool (call fs cb p d st) = _pool st.
Proof.
  apply (call_inv fs (fun st' => _pool st' = _pool st)); [auto| |reflexivity].
  intros path st' H. now rewrite CacheFacts.dirEntries1_pool.
Qed.

Lemma glob4_call_pool fs root path pattern cb st :
  _pool (glob4 fs root path pattern (call fs cb) st) = _pool st.
Proof.
  apply (glob4_inv fs (fun st' => _pool st' = _pool st)); [ | |reflexivity].
  - intros p st' H. now rewrite CacheFacts.dirEntries1_pool.
  - intros p d st' H. now rewrite call_pool.
Qed.

Lemma runTasks_done sched fs : forall st st',
  runTasks sched fs st = Some st' -> _pool st' = [].
Proof.
  induction sched as [|k sched IH]; intros st st'; cbn [runTasks]; [discriminate|].
  destruct (takeTask k (_pool st)) as [[t q]|]; [|discriminate].
  destruct (_pool (globRecursive fs _ _ _ _)) eqn:E.
  - now intros [= <-].
  - apply IH.
Qed.

Lemma waitAll_done sched fs st st' : waitAll sched fs st = Some st' -> _pool st' = [].
Proof.
  unfold waitAll. destruct (_pool st) eqn:E.
  - now intros [= <-].
  - apply runTasks_done.
Qed.

Lemma glob_done fuel sched fs root path cb st st' :
  glob fuel sched fs root path cb st = Some st' -> _pool st' = [].
Proof.
  destruct fuel as [|fuel]; cbn [glob]; [discriminate|].
  destruct (PathPrim.split path) as [head tail].
  destruct (if isGlobPattern head then _ else _) as [st1|]; [|discriminate].
  simpl. apply waitAll_done.
Qed.

(** Without a recursive walk nothing is enqueued: [glob] is the call that
    [dispatch] names, whatever the schedule. *)
Lemma glob_dispatch_any fuel sched fs root : forall path cb cb' p0 d0 st,
  dispatch fuel root path cb = Some (cb', p0, d0) ->
  _pool st = [] ->
  glob fuel sched fs root path cb st = Some (call fs cb' p0 d0 st).
Proof.
  induction fuel as [|fuel IH]; intros path cb cb' p0 d0 st; [discriminate|].
  cbn [dispatch glob]. destruct (PathPrim.split path) as [head tail].
  intros Hd Hq.
  assert (Hdone : forall cb1 p1 d1,
            waitAll sched fs (call fs cb1 p1 d1 st) = Some (call fs cb1 p1 d1 st)).
  { intros cb1 p1 d1. apply CacheFacts.waitAll_nil. now rewrite call_pool. }
  destruct (isGlobPattern head).
  { rewrite (IH head _ _ _ _ st Hd Hq). simpl. apply Hdone. }
  destruct (isRecursiveGlob tail); [discriminate|].
  destruct (isGlobPattern tail).
  { injection Hd as <- <- <-. simpl. apply (Hdone (IfDirGlob root tail cb) head true). }
  destruct (0 <? String.length tail)%nat; injection Hd as <- <- <-; simpl; apply Hdone.
Qed.

End Pool.

(** *** The cache only grows *)

Section Grows.
Context {U : Type}.
Implicit Types (st : State U).

Lemma sink_grows_refl (d : option ImplicitDeps) : sink_grows d d.
Proof. destruct d; simpl; eauto. Qed.

Lemma sink_grows_trans (d1 d2 d3 : option ImplicitDeps) :
  sink_grows d1 d2 -> sink_grows d2 d3 -> sink_grows d1 d3.
Proof.
  destruct d1 as [x1|]; simpl.
  - intros (x2 & -> & H12). simpl. intros (x3 & -> & H23).
    exists x3. split; [reflexivity|]. now transitivity x2.
  - intros ->. simpl. auto.
Qed.

Lemma dirEntries1_grows fs path st :
  _cache st ⊆ _cache (snd (dirEntries1 fs path st))
  /\ opened st `prefix_of` opened (snd (dirEntries1 fs path st))
  /\ sink_grows (_deps st) (_deps (snd (dirEntries1 fs path st))).
Proof.
  unfold dirEntries1.
  destruct (_cache st !! PathPrim.norm path) eqn:E; simpl.
  - split; [reflexivity|]. split; [reflexivity|]. apply sink_grows_refl.
  - split; [now apply insert_subseteq|]. split; [now apply prefix_app_r|].
    destruct (_deps st) as [d|]; simpl; [|reflexivity].
    eexists. split; [reflexivity|]. unfold addInput. now apply prefix_app_r.
Qed.

End Grows.

End InvariantFacts.

(** ** Callbacks that hand on directories only *)

Module DirsFacts.
Import DirCache.

Lemma handed_dirs fs cb : forall p d m,
  dirsOnly cb -> m ∈ handed fs cb p d -> snd m = true.
Proof.
  induction cb as [f|root tail next IH]; intros p d m Hcb; [destruct Hcb|].
  cbn [handed]. destruct d; [|intros H; inversion H].
  destruct next as [f|root' tail' next'].
  - simpl in Hcb. subst tail. simpl. intros ->%list_elem_of_singleton. reflexivity.
  - simpl in Hcb. destruct (String.length tail =? 0)%nat; [now apply IH|].
    rewrite list_elem_of_In, in_flat_map. intros (e & _ & He).
    destruct (Glob.globMatch_public false (name e) tail); [|destruct He].
    apply list_elem_of_In in He. revert He. now apply IH.
Qed.

Lemma dispatch_dirs {U} fuel root : forall path (cb cb' : GlobCallback U) p0 d0,
  dispatch fuel root path cb = Some (cb', p0, d0) ->
  dirsOnly cb -> dirsOnly cb'.
Proof.
  induction fuel as [|fuel IH]; intros path cb cb' p0 d0; [discriminate|].
  cbn [dispatch]. destruct (PathPrim.split path) as [head tail].
  intros Hd Hcb.
  assert (Hwrap : dirsOnly (IfDirGlob root tail cb)).
  { destruct cb; [destruct Hcb|exact Hcb]. }
  destruct (isGlobPattern head); [exact (IH _ _ _ _ _ Hd Hwrap)|].
  destruct (isRecursiveGlob tail); [discriminate|].
  destruct (isGlobPattern tail); [now injection Hd as <- <- <-|].
  destruct (0 <? String.length tail)%nat; now injection Hd as <- <- <-.
Qed.

Lemma entryTasks_paths {U} root path (cb : GlobCallback U) entries :
  map task_path (entryTasks root path cb entries)
  = map (fun e => PathPrim.join (name e) path) (List.filter isDir entries).
Proof.
  unfold entryTasks. induction entries as [|e es IH]; simpl; [reflexivity|].
  destruct (isDir e); simpl; now rewrite IH.
Qed.

Lemma entryTasks_flat {U} root path (cb : GlobCallback U) entries :
  Forall (fun e => isDir e = false) entries -> entryTasks root path cb entries = [].
Proof.
  unfold entryTasks. induction 1 as [|e es He _ IH]; simpl; [reflexivity|].
  now rewrite He.
Qed.

End DirsFacts.

(** ** The string pool and the order of paths *)

Module PoolFacts.
Import LuaGlob.

(** *** The string pool *)

Lemma substring_app_l s : forall n m t,
  n + m <= String.length s -> substring n m (s ++ t) = substring n m s.
Proof.
  induction s as [|c s IH]; intros n m t H; simpl in H.
  - assert (n = 0) as -> by lia. assert (m = 0) as -> by lia.
    simpl. destruct t; reflexivity.
  - destruct n as [|n]; simpl.
    + destruct m as [|m]; [reflexivity|]. simpl. rewrite IH by lia. reflexivity.
    + apply IH. lia.
Qed.

Lemma substring_all t : substring 0 (String.length t) t = t.
Proof. induction t as [|c t IH]; simpl; [reflexivity|]. now rewrite IH. Qed.

Lemma substring_app_r s t : substring (String.length s) (String.length t) (s ++ t) = t.
Proof. induction s as [|c s IH]; simpl; [apply substring_all|exact IH]. Qed.

Lemma map_mapPool_app s t l :
  Forall (fun e => fst e + snd e <= String.length s) l ->
  map (mapPool (s ++ t)) l = map (mapPool s) l.
Proof.
  induction 1 as [|e l He _ IH]; simpl; [reflexivity|].
  rewrite IH. unfold mapPool at 1 3. now rewrite substring_app_l.
Qed.

Lemma Forall_offsets_app s t l :
  Forall (fun e => fst e + snd e <= String.length s) l ->
  Forall (fun e => fst e + snd e <= String.length (s ++ t)) l.
Proof.
  intros H. eapply Forall_impl; [exact H|].
  intros e He. simpl in *. rewrite PathFacts.str_length_app. lia.
Qed.

Lemma include_decodes p d a :
  pool_ok a ->
  pool_ok (include p d a)
  /\ included (include p d a) = (included a ++ [p])%list
  /\ excluded (include p d a) = excluded a.
Proof.
  intros [Hi He]. unfold included, excluded, include, pool_ok. simpl.
  split; [split|split].
  - apply Forall_app. split; [now apply Forall_offsets_app|].
    constructor; [|constructor]. simpl. rewrite PathFacts.str_length_app. lia.
  - now apply Forall_offsets_app.
  - rewrite map_app, map_mapPool_app by exact Hi. simpl.
    unfold mapPool at 2. simpl. now rewrite substring_app_r.
  - now apply map_mapPool_app.
Qed.

Lemma exclude_decodes p d a :
  pool_ok a ->
  pool_ok (exclude p d a)
  /\ included (exclude p d a) = included a
  /\ excluded (exclude p d a) = (excluded a ++ [p])%list.
Proof.
  intros [Hi He]. unfold included, excluded, exclude, pool_ok. simpl.
  split; [split|split].
  - now apply Forall_offsets_app.
  - apply Forall_app. split; [now apply Forall_offsets_app|].
    constructor; [|constructor]. simpl. rewrite PathFacts.str_length_app. lia.
  - now apply map_mapPool_app.
  - rewrite map_app, map_mapPool_app by exact He. simpl.
    unfold mapPool at 2. simpl. now rewrite substring_app_r.
Qed.

Lemma pool_ok_noPools : pool_ok noPools.
Proof. split; constructor. Qed.

Lemma collect_decodes calls : forall a,
  pool_ok a ->
  pool_ok (collect calls a)
  /\ included (collect calls a) = (included a ++ map snd (List.filter fst calls))%list
  /\ excluded (collect calls a)
     = (excluded a ++ map snd (List.filter (fun c => negb (fst c)) calls))%list.
Proof.
  induction calls as [|[[] p] calls IH]; intros a Ha; cbn [collect fold_left fst snd].
  - rewrite !app_nil_r. auto.
  - destruct (include_decodes p false a Ha) as (H1 & H2 & H3).
    destruct (IH _ H1) as (K1 & K2 & K3). fold (collect calls (include p false a)).
    split; [exact K1|]. simpl. rewrite K2, K3, H2, H3, <- app_assoc. auto.
  - destruct (exclude_decodes p false a Ha) as (H1 & H2 & H3).
    destruct (IH _ H1) as (K1 & K2 & K3). fold (collect calls (exclude p false a)).
    split; [exact K1|]. simpl. rewrite K2, K3, H2, H3, <- app_assoc. auto.
Qed.

(** *** The order of paths *)

Lemma compare_lt_iff a b : (PathPrim.compare a b <? 0)%Z = String.ltb a b.
Proof. unfold PathPrim.compare, String.ltb. destruct (String.compare a b); reflexivity. Qed.

Lemma Path_le_le a b : Path_le a b <-> String.le a b.
Proof.
  unfold Path_le, PathPrim.lt. rewrite compare_lt_iff. apply OrderFacts.ltb_false_le.
Qed.

Lemma Path_lt_spec a b : PathPrim.lt a b = true <-> String.le a b /\ a <> b.
Proof. unfold PathPrim.lt. rewrite compare_lt_iff. apply OrderFacts.ltb_true_lt. Qed.

Lemma Path_eq_spec a b : PathPrim.eq a b = true <-> a = b.
Proof.
  unfold PathPrim.eq, PathPrim.compare.
  destruct (String.compare a b) eqn:E; simpl.
  - apply String.compare_eq_iff in E. split; auto.
  - split; [discriminate|]. intros ->. rewrite OrderFacts.compare_refl in E. discriminate.
  - split; [discriminate|]. intros ->. rewrite OrderFacts.compare_refl in E. discriminate.
Qed.

#[export] Instance Path_le_total : Total Path_le.
Proof.
  intros a b. rewrite !Path_le_le. apply (total String.le).
Qed.

#[export] Instance Path_le_trans : Transitive Path_le.
Proof.
  intros a b c. rewrite !Path_le_le. apply (transitivity (R := String.le)).
Qed.

Lemma empty_least x : String.le "" x.
Proof. unfold String.le, String.leb. destruct x; simpl; exact I. Qed.

Lemma sortPaths_Permutation l : sortPaths l ≡ₚ l.
Proof. apply merge_sort_Permutation. Qed.

Lemma sortPaths_Sorted l : StronglySorted Path_le (sortPaths l).
Proof. apply StronglySorted_merge_sort; apply _. Qed.

(** [std::unique] on a sorted vector: what is left is strictly increasing,
    and has the same elements. *)
Lemma unique_sorted l :
  StronglySorted Path_le l ->
  StronglySorted (fun a b => PathPrim.lt a b = true) (unique l)
  /\ forall x, x ∈ unique l <-> x ∈ l.
Proof.
  induction l as [|a l IH]; intros Hs.
  - split; [constructor|reflexivity].
  - apply StronglySorted_inv in Hs as [Hs Ha]. specialize (IH Hs) as [IH1 IH2].
    destruct l as [|b r]; cbn [unique].
    + split; [repeat constructor|reflexivity].
    + destruct (PathPrim.eq a b) eqn:Eab.
      * apply Path_eq_spec in Eab as ->. split; [exact IH1|].
        intros x. rewrite IH2, !elem_of_cons. tauto.
      * split.
        -- constructor; [exact IH1|].
           apply Forall_forall. intros y Hy%IH2.
           apply Path_lt_spec.
           assert (Hab : String.le a b).
           { apply Path_le_le. now inversion Ha. }
           assert (Hby : String.le b y).
           { apply elem_of_cons in Hy as [->|Hy]; [reflexivity|].
             apply StronglySorted_inv in Hs as [_ Hb].
             apply Path_le_le. rewrite Forall_forall in Hb. now apply Hb. }
           split; [now transitivity b|].
           intros ->. assert (b = y) by (now apply (anti_symm String.le)).
           subst b. rewrite (proj2 (Path_eq_spec y y) eq_refl) in Eab. discriminate.
        -- intros x. rewrite elem_of_cons, IH2, !elem_of_cons. tauto.
Qed.

Lemma strict_NoDup l :
  StronglySorted (fun a b => PathPrim.lt a b = true) l -> NoDup l.
Proof.
  induction 1 as [|a l Hs IH Ha]; constructor; [|exact IH].
  intros Hin. rewrite Forall_forall in Ha. apply Ha, Path_lt_spec in Hin as [_ Hne].
  congruence.
Qed.

(** In a strictly increasing vector the empty path can only stand first. *)
Lemma strict_tail_nonempty a l :
  StronglySorted (fun a b => PathPrim.lt a b = true) (a :: l) ->
  Forall (fun p => p <> "") l.
Proof.
  intros [Hs Ha]%StronglySorted_inv. apply Forall_forall. intros y Hy ->.
  rewrite Forall_forall in Ha. apply Ha, Path_lt_spec in Hy as [Hle Hne].
  apply Hne. apply (anti_symm String.le); [exact Hle|apply empty_least].
Qed.

Lemma filter_all {A} (P : A -> Prop) `{!forall x, Decision (P x)} (l : list A) :
  Forall P l -> filter P l = l.
Proof.
  induction 1 as [|x l Hx _ IH]; [reflexivity|].
  rewrite filter_cons_True by exact Hx. now rewrite IH.
Qed.

Lemma unique_replicate n : unique (replicate (S n) PathPrim.default) = [PathPrim.default].
Proof.
  induction n as [|n IH]; [reflexivity|].
  change (replicate (S (S n)) PathPrim.default)
    with (PathPrim.default :: replicate (S n) PathPrim.default).
  cbn [unique]. change (replicate (S n) PathPrim.default)
    with (PathPrim.default :: replicate n PathPrim.default) at 1.
  cbv iota beta. exact IH.
Qed.

Lemma sortPaths_replicate n x : sortPaths (replicate n x) = replicate n x.
Proof.
  symmetry. apply replicate_Permutation. symmetry. apply sortPaths_Permutation.
Qed.

Lemma transformInto_fits {A B} (f : A -> B) (src : list A) (x : B) :
  transformInto f src (replicate (length src) x) = Some (map f src).
Proof.
  unfold transformInto. rewrite length_replicate, Nat.leb_refl.
  rewrite drop_ge by (rewrite length_replicate; lia). now rewrite app_nil_r.
Qed.

Lemma transformInto_none {A B} (f : A -> B) n (x : B) :
  transformInto f [] (replicate n x) = Some (replicate n x).
Proof. reflexivity. Qed.

Lemma transformInto_overrun {A B} (f : A -> B) (src : list A) n (x : B) :
  n < length src -> transformInto f src (replicate n x) = None.
Proof.
  intros H. unfold transformInto. rewrite length_replicate.
  destruct (Nat.leb_spec (length src) n); [lia|reflexivity].
Qed.

(** *** The merge loop *)

Lemma mergeLoop_sub fuel : forall includes excludes i e out res,
  mergeLoop fuel includes excludes i e out = Returned res ->
  forall x, x ∈ res -> x ∈ out \/ x ∈ includes.
Proof.
  assert (Hend : forall (includes : list Path) i out res,
            Returned (out ++ drop i includes)%list = Returned res ->
            forall x, x ∈ res -> x ∈ out \/ x ∈ includes).
  { intros includes i out res [= <-] x [H|H]%elem_of_app; [now left|right].
    eapply subseteq_drop, H. }
  induction fuel as [|fuel IH]; intros includes excludes i e out res; cbn [mergeLoop].
  - destruct (includes !! i), (excludes !! e); try discriminate; apply Hend.
  - destruct (includes !! i) as [inc|] eqn:Ei; [|apply Hend].
    destruct (excludes !! e) as [exc|] eqn:Ee; [|apply Hend].
    destruct (PathPrim.compare inc exc <? 0)%Z.
    + destruct (includes !! S i) as [pushed|] eqn:Ep; [|discriminate].
      intros H x Hx. destruct (IH _ _ _ _ _ _ H x Hx) as [Ho|Ho]; [|now right].
      apply elem_of_app in Ho as [Ho|Ho]; [now left|right].
      apply list_elem_of_singleton in Ho as ->.
      eapply list_elem_of_lookup_2, Ep.
    + destruct (0 <? PathPrim.compare inc exc)%Z; apply IH.
Qed.

End PoolFacts.

(** ** The aggregation, further *)

Module AggregateFacts.
Import LuaGlob PoolFacts.

Lemma mergeLoop_end fuel includes excludes i e out :
  excludes !! e = None ->
  mergeLoop fuel includes excludes i e out = Returned (out ++ drop i includes)%list.
Proof.
  intros H. destruct fuel; cbn [mergeLoop]; rewrite H;
    destruct (includes !! i); reflexivity.
Qed.

Lemma aggregate_includes_only a :
  poolExcludes a = [] ->
  aggregate a = Returned (filter (fun p => p <> "") (unique (sortPaths (included a)))).
Proof.
  intros Hex. unfold aggregate. rewrite Hex, transformInto_fits, transformInto_none.
  fold (included a). rewrite sortPaths_replicate.
  destruct (unique_sorted _ (sortPaths_Sorted (included a))) as [Hs _].
  destruct (poolIncludes a) as [|e0 es] eqn:Ei.
  - unfold included. rewrite Ei. reflexivity.
  - cbn [length]. rewrite unique_replicate.
    destruct (unique (sortPaths (included a))) as [|x L] eqn:EL; [reflexivity|].
    pose proof (strict_tail_nonempty x L Hs) as Hne.
    cbn [length Nat.add mergeLoop lookup list_lookup].
    destruct x as [|c s].
    + change (PathPrim.compare "" PathPrim.default) with 0%Z.
      cbn [Z.ltb Z.compare].
      rewrite mergeLoop_end by reflexivity.
      rewrite filter_cons_False by (intros H; now apply H).
      rewrite filter_all by exact Hne. reflexivity.
    + change (PathPrim.compare (String c s) PathPrim.default) with 1%Z.
      cbn [Z.ltb Z.compare].
      rewrite ?mergeLoop_end by reflexivity.
      rewrite filter_all; [reflexivity|]. constructor; [discriminate|exact Hne].
Qed.

(** *** The loop over the arguments *)

Lemma include_only_collect l a :
  poolExcludes (collect (map (pair true) l) a) = poolExcludes a.
Proof.
  revert a. induction l as [|p l IH]; intros a; [reflexivity|].
  cbn [map collect fold_left fst snd]. fold (collect (map (pair true) l) (include p false a)).
  now rewrite IH.
Qed.

End AggregateFacts.

(** ** The loop over the arguments of [lua_glob] *)

Module LevelFacts.
Import DirCache.

Section WithUser.
Context {U : Type}.
Implicit Types (st : DirCache.State U).

Lemma set_user_user st : set_user (user st) st = st.
Proof. now destruct st. Qed.

(** The loop of the helper with the caller's callback: the matches are
    handed on in the order of the listing. *)
Lemma glob4_loop_onMatch fs (f : Path -> bool -> U -> U) path pattern entries st :
  fold_left
    (fun st e =>
       if Glob.globMatch_public false (name e) pattern
       then call fs (OnMatch f) (PathPrim.join (name e) path) (isDir e) st
       else st)
    entries st
  = set_user (fold_left (fun u m => f (fst m) (snd m) u)
                (matches4 path pattern entries) (user st)) st.
Proof.
  revert st. induction entries as [|e es IH]; intros st; cbn [fold_left].
  - symmetry. apply set_user_user.
  - unfold matches4. cbn [flat_map]. fold (matches4 path pattern es).
    destruct (Glob.globMatch_public false (name e) pattern); rewrite IH; reflexivity.
Qed.

Lemma glob_one_level_onMatch fuel sched fs root path (f : Path -> bool -> U -> U) st :
  isGlobPattern (fst (PathPrim.split path)) = false ->
  isRecursiveGlob (snd (PathPrim.split path)) = false ->
  isGlobPattern (snd (PathPrim.split path)) = true ->
  _pool st = [] ->
  glob (S fuel) sched fs root path (OnMatch f) st
  = Some (set_user
            (fold_left (fun u m => f (fst m) (snd m) u)
               (matches4 (fst (PathPrim.split path)) (snd (PathPrim.split path))
                  (fst (dirEntries2 fs root (fst (PathPrim.split path)) st)))
               (user st))
            (snd (dirEntries2 fs root (fst (PathPrim.split path)) st))).
Proof.
  intros Hh Hr Ht Hq.
  rewrite (WalkFacts.glob_single fuel sched fs root path (OnMatch f) st Hh Hr Ht).
  unfold glob4. rewrite (WalkFacts.isGlobPattern_nonempty _ Ht).
  pose proof (CacheFacts.dirEntries1_pool fs
                (PathPrim.join (fst (PathPrim.split path)) root) st) as Hp.
  pose proof (CacheFacts.dirEntries1_user fs
                (PathPrim.join (fst (PathPrim.split path)) root) st) as Hu.
  unfold dirEntries2.
  destruct (dirEntries1 fs (PathPrim.join (fst (PathPrim.split path)) root) st)
    as [entries st1].
  cbn [fst snd] in *. rewrite glob4_loop_onMatch, Hu.
  apply CacheFacts.waitAll_nil. simpl. congruence.
Qed.

Lemma glob_literal_onMatch fuel sched fs root path (f : Path -> bool -> U -> U) st :
  isGlobPattern path = false ->
  snd (PathPrim.split path) <> "" ->
  _pool st = [] ->
  glob (S fuel) sched fs root path (OnMatch f) st
  = Some (set_user (f path false (user st)) st).
Proof.
  intros Hp Ht Hq. destruct (PathFacts.split_no_glob path Hp) as [H1 H2].
  rewrite (WalkFacts.glob_literal fuel sched fs root path (OnMatch f) st H1 H2).
  destruct (snd (PathPrim.split path)) as [|c t]; [congruence|].
  cbn [String.length Nat.ltb Nat.leb call].
  now apply CacheFacts.waitAll_nil.
Qed.

End WithUser.

Lemma fold_record (ms seen : list (Path * bool)) :
  fold_left (fun u m => record (fst m) (snd m) u) ms seen = (seen ++ ms)%list.
Proof.
  revert seen. induction ms as [|[p d] ms IH]; intros seen; simpl.
  - now rewrite app_nil_r.
  - rewrite IH. unfold record. now rewrite <- app_assoc.
Qed.

Lemma matches4_filter path pattern entries :
  matches4 path pattern entries
  = map (fun e => (PathPrim.join (name e) path, isDir e))
      (List.filter (fun e => Glob.globMatch_public false (name e) pattern) entries).
Proof.
  unfold matches4. induction entries as [|e es IH]; simpl; [reflexivity|].
  destruct (Glob.globMatch_public false (name e) pattern); simpl; now rewrite IH.
Qed.

(** A one-level [glob] with the recording caller. *)
Lemma glob_one_level_record fuel sched fs root path
    (st : State (list (Path * bool))) :
  isGlobPattern (fst (PathPrim.split path)) = false ->
  isRecursiveGlob (snd (PathPrim.split path)) = false ->
  isGlobPattern (snd (PathPrim.split path)) = true ->
  _pool st = [] ->
  glob (S fuel) sched fs root path onMatch st
  = Some (set_user
            (user st
             ++ matches4 (fst (PathPrim.split path)) (snd (PathPrim.split path))
                  (fst (dirEntries2 fs root (fst (PathPrim.split path)) st)))%list
            (snd (dirEntries2 fs root (fst (PathPrim.split path)) st))).
Proof.
  intros Hh Hr Ht Hq. unfold onMatch.
  rewrite (glob_one_level_onMatch fuel sched fs root path record st Hh Hr Ht Hq).
  now rewrite fold_record.
Qed.

End LevelFacts.

Module ArgFacts.
Import LuaGlob DirCache PoolFacts AggregateFacts LevelFacts.

Lemma globOne_include fuel sched fs root p (st : LuaGlob.State) :
  String.get 0 p <> Some "!"%char ->
  globOne fuel sched fs root p st = glob fuel sched fs root p (OnMatch include) st.
Proof.
  intros H. destruct p as [|c r]; [reflexivity|].
  destruct c as [[] [] [] [] [] [] [] []]; try reflexivity.
  exfalso. apply H. reflexivity.
Qed.

Lemma fold_include ms a :
  fold_left (fun u (m : Path * bool) => include (fst m) (snd m) u) ms a
  = collect (map (fun m => (true, fst m)) ms) a.
Proof.
  revert a. induction ms as [|m ms IH]; intros a; [reflexivity|].
  cbn [fold_left map collect fst snd]. rewrite IH. reflexivity.
Qed.

Lemma matches4_paths head tail entries :
  map snd (List.filter fst
             (map (fun m : Path * bool => (true, fst m)) (matches4 head tail entries)))
  = map (fun e => PathPrim.join (name e) head)
      (List.filter (fun e => Glob.globMatch_public false (name e) tail) entries).
Proof.
  unfold matches4. induction entries as [|e es IH]; simpl; [reflexivity|].
  destruct (Glob.globMatch_public false (name e) tail); simpl; now rewrite IH.
Qed.

Lemma dirEntries1_fst {U} fs path (st : DirCache.State U) :
  fst (dirEntries1 fs path st)
  = match _cache st !! PathPrim.norm path with
    | Some entries => entries
    | None => dirEntries fs (PathPrim.norm path)
    end.
Proof. unfold dirEntries1. now destruct (_cache st !! PathPrim.norm path). Qed.

Lemma collect_includes (l : list Path) :
  map snd (List.filter fst (map (pair true) l)) = l.
Proof. induction l as [|p l IH]; simpl; [reflexivity|]. now rewrite IH. Qed.

Lemma included_collect (l : list Path) : included (collect (map (pair true) l) noPools) = l.
Proof.
  destruct (collect_decodes (map (pair true) l) noPools pool_ok_noPools) as (_ & H & _).
  rewrite H. simpl. apply collect_includes.
Qed.

Lemma globArgs_literals fuel sched fs root l : forall st : LuaGlob.State,
  Forall (fun p => String.get 0 p <> Some "!"%char /\ isGlobPattern p = false
                   /\ snd (PathPrim.split p) <> "") l ->
  _pool st = [] ->
  globArgs (S fuel) sched fs root (map LuaString l) st
  = Some (set_user (collect (map (pair true) l) (user st)) st).
Proof.
  induction l as [|p l IH]; intros st Hl Hq.
  - simpl. now rewrite set_user_user.
  - apply Forall_cons in Hl as [(H1 & H2 & H3) Hl].
    cbn [map globArgs]. rewrite (globOne_include _ _ _ _ _ _ H1).
    rewrite (glob_literal_onMatch fuel sched fs root p include st H2 H3 Hq).
    simpl. rewrite (IH _ Hl) by exact Hq. reflexivity.
Qed.

End ArgFacts.

(** ** The bounds of the merge *)

Module MergeFacts.
Import LuaGlob PoolFacts.

Lemma lt_irrefl a : PathPrim.lt a a = false.
Proof.
  destruct (PathPrim.lt a a) eqn:E; [|reflexivity].
  apply Path_lt_spec in E as [_ H]. congruence.
Qed.

Lemma lt_trans a b c :
  PathPrim.lt a b = true -> PathPrim.lt b c = true -> PathPrim.lt a c = true.
Proof.
  rewrite !Path_lt_spec. intros [H1 N1] [H2 N2].
  split; [now transitivity b|].
  intros ->. apply N1. now apply (anti_symm String.le).
Qed.

Lemma lt_asym a b : PathPrim.lt a b = true -> PathPrim.lt b a = false.
Proof.
  intros H. destruct (PathPrim.lt b a) eqn:E; [|reflexivity].
  pose proof (lt_trans _ _ _ H E) as H1. now rewrite lt_irrefl in H1.
Qed.

(** The three branches of the loop. *)
Lemma compare_cases a b :
  ((PathPrim.compare a b <? 0)%Z = true /\ PathPrim.lt a b = true)
  \/ ((PathPrim.compare a b <? 0)%Z = false /\ (0 <? PathPrim.compare a b)%Z = true
      /\ PathPrim.lt b a = true)
  \/ ((PathPrim.compare a b <? 0)%Z = false /\ (0 <? PathPrim.compare a b)%Z = false
      /\ a = b).
Proof.
  unfold PathPrim.lt, PathPrim.compare. rewrite (String.compare_antisym a b).
  destruct (String.compare b a) eqn:E; simpl.
  - right. right. apply String.compare_eq_iff in E. auto.
  - right. left. auto.
  - left. auto.
Qed.

Lemma sorted_lookup (l : list Path) i j a b :
  StronglySorted (fun a b : Path => PathPrim.lt a b = true) l -> i < j -> l !! i = Some a -> l !! j = Some b ->
  PathPrim.lt a b = true.
Proof.
  intros Hs. revert i j. induction Hs as [|x l Hs IH Hx]; intros i j Hij Hi Hj.
  - discriminate.
  - destruct j as [|j]; [lia|]. simpl in Hj. destruct i as [|i].
    + injection Hi as ->. rewrite Forall_forall in Hx.
      apply Hx. eapply list_elem_of_lookup_2, Hj.
    + simpl in Hi. apply (IH i j); [lia|assumption|assumption].
Qed.

Lemma last_is_lookup (l : list Path) i x :
  l !! i = Some x -> l !! S i = None -> last l = Some x.
Proof.
  intros Hi Hn. rewrite last_lookup.
  pose proof (lookup_lt_Some _ _ _ Hi) as Hlt. apply lookup_ge_None in Hn.
  assert (pred (length l) = i) as -> by lia. exact Hi.
Qed.

Lemma lookup_below_last (l : list Path) i x M :
  StronglySorted (fun a b : Path => PathPrim.lt a b = true) l -> l !! i = Some x -> last l = Some M ->
  x = M \/ PathPrim.lt x M = true.
Proof.
  intros Hs Hi Hl. rewrite last_lookup in Hl.
  pose proof (lookup_lt_Some _ _ _ Hi) as Hlt.
  destruct (decide (i = pred (length l))) as [->|Hne].
  - left. congruence.
  - right. apply (sorted_lookup l i (pred (length l))); [assumption|lia|assumption|assumption].
Qed.

Section Merge.
Variables L E : list Path.
Hypothesis HL : StronglySorted (fun a b : Path => PathPrim.lt a b = true) L.
Hypothesis HE : StronglySorted (fun a b : Path => PathPrim.lt a b = true) E.

(** When the largest include is excluded, or no exclude is above it, the
    branch [c < 0] is never taken at the last include. *)
Lemma mergeLoop_within fuel :
  (forall M, last L = Some M ->
             M ∈ E \/ forall y, y ∈ E -> PathPrim.lt M y = false) ->
  forall i e out,
    (length L - i) + (length E - e) <= fuel ->
    (forall k y x, k < e -> E !! k = Some y -> L !! i = Some x ->
                   PathPrim.lt y x = true) ->
    exists res, mergeLoop fuel L E i e out = Returned res.
Proof.
  intros G. induction fuel as [|fuel IH]; intros i e out Hfuel Hinv; cbn [mergeLoop].
  - destruct (L !! i) as [inc|] eqn:Ei; [|eauto].
    destruct (E !! e) as [exc|] eqn:Ee; [|eauto].
    apply lookup_lt_Some in Ei, Ee. lia.
  - destruct (L !! i) as [inc|] eqn:Ei; [|eauto].
    destruct (E !! e) as [exc|] eqn:Ee; [|eauto].
    pose proof (lookup_lt_Some _ _ _ Ei) as Hi.
    pose proof (lookup_lt_Some _ _ _ Ee) as He.
    assert (Hinv' : forall k y, k < e -> E !! k = Some y -> PathPrim.lt y inc = true).
    { intros k y Hk Hy. now apply (Hinv k y inc). }
    clear Hinv.
    destruct (compare_cases inc exc) as [[-> Hlt]|[(-> & -> & Hgt)|(-> & -> & Heq)]].
    + destruct (L !! S i) as [pushed|] eqn:Ep.
      * apply IH; [lia|]. intros k y x Hk Hy Hx.
        apply (lt_trans _ inc); [now apply (Hinv' k y)|].
        apply (sorted_lookup L i (S i)); [assumption|lia|assumption|assumption].
      * exfalso. pose proof (last_is_lookup L i inc Ei Ep) as Hlast.
        destruct (G inc Hlast) as [Hin|Hno].
        -- apply list_elem_of_lookup_1 in Hin as [k Hk].
           destruct (Nat.lt_trichotomy k e) as [H|[H|H]].
           ++ pose proof (Hinv' k inc H Hk) as Hc. now rewrite lt_irrefl in Hc.
           ++ subst k. assert (exc = inc) as -> by congruence.
              now rewrite lt_irrefl in Hlt.
           ++ pose proof (sorted_lookup E e k exc inc HE H Ee Hk) as Hc.
              apply lt_asym in Hc. congruence.
        -- rewrite Hno in Hlt; [discriminate|]. eapply list_elem_of_lookup_2, Ee.
    + apply IH; [lia|]. intros k y x Hk Hy Hx.
      assert (x = inc) as -> by congruence.
      destruct (decide (k = e)) as [->|Hne].
      * assert (y = exc) as -> by congruence. exact Hgt.
      * apply (Hinv' k y); [lia|assumption].
    + subst exc. apply IH; [lia|]. intros k y x Hk Hy Hx.
      assert (Hix : PathPrim.lt inc x = true).
      { apply (sorted_lookup L i (S i)); [assumption|lia|assumption|assumption]. }
      destruct (decide (k = e)) as [->|Hne].
      * assert (y = inc) as -> by congruence. exact Hix.
      * apply (lt_trans _ inc); [|exact Hix].
        apply (Hinv' k y); [lia|assumption].
Qed.

(** When the largest include is not excluded and some exclude is above it,
    the loop comes to the last include with excludes left, and takes the
    branch [c < 0] there. *)
Lemma mergeLoop_overrun fuel M y k0 :
  last L = Some M -> (M ∉ E) -> E !! k0 = Some y -> PathPrim.lt M y = true ->
  forall i e out,
    (length L - i) + (length E - e) <= fuel ->
    i < length L -> e <= k0 ->
    mergeLoop fuel L E i e out = OutOfBounds.
Proof.
  intros Hlast Hnin Hy Hlt.
  induction fuel as [|fuel IH]; intros i e out Hfuel Hi He; cbn [mergeLoop].
  - pose proof (lookup_lt_Some _ _ _ Hy). lia.
  - destruct (lookup_lt_is_Some_2 L i Hi) as [inc Ei]. rewrite Ei.
    assert (He' : e < length E) by (pose proof (lookup_lt_Some _ _ _ Hy); lia).
    destruct (lookup_lt_is_Some_2 E e He') as [exc Ee]. rewrite Ee.
    assert (Hincy : PathPrim.lt inc y = true).
    { destruct (lookup_below_last L i inc M HL Ei Hlast) as [->|H]; [exact Hlt|].
      now apply (lt_trans _ M). }
    assert (Hstep : exc <> y -> S e <= k0).
    { intros Hne. destruct (decide (e = k0)) as [->|]; [congruence|lia]. }
    destruct (compare_cases inc exc) as [[-> Hc]|[(-> & -> & Hc)|(-> & -> & Hc)]].
    + destruct (L !! S i) as [pushed|] eqn:Ep; [|reflexivity].
      apply IH; [lia|eapply lookup_lt_Some, Ep|exact He].
    + apply IH; [lia|exact Hi|]. apply Hstep. intros ->.
      apply lt_asym in Hincy. congruence.
    + subst exc.
      assert (Hny : inc <> y) by (intros ->; now rewrite lt_irrefl in Hincy).
      destruct (L !! S i) as [next|] eqn:Ep.
      * apply IH; [lia|eapply lookup_lt_Some, Ep|now apply Hstep].
      * exfalso. pose proof (last_is_lookup L i inc Ei Ep) as Hl.
        assert (inc = M) as -> by congruence.
        apply Hnin. eapply list_elem_of_lookup_2, Ee.
Qed.

Lemma mergeLoop_bounds :
  mergeLoop (length L + length E) L E 0 0 [] = OutOfBounds <->
  exists M y, last L = Some M /\ (M ∉ E) /\ y ∈ E /\ PathPrim.lt M y = true.
Proof.
  split.
  - intros Hoob.
    assert (Hcase : (exists M y, last L = Some M /\ (M ∉ E) /\ y ∈ E
                                 /\ PathPrim.lt M y = true)
                    \/ (forall M, last L = Some M ->
                          M ∈ E \/ forall y, y ∈ E -> PathPrim.lt M y = false)).
    { destruct (last L) as [M|]; [|right; intros M [=]].
      destruct (decide (M ∈ E)) as [Hin|Hnin].
      { right. intros M' [= <-]. now left. }
      destruct (decide (Exists (fun y => PathPrim.lt M y = true) E)) as [Hex|Hno].
      - apply Exists_exists in Hex as (y & Hy & Hlt). left. eauto 10.
      - right. intros M' [= <-]. right. intros y Hy.
        destruct (PathPrim.lt M y) eqn:E1; [|reflexivity].
        exfalso. apply Hno, Exists_exists. eauto. }
    destruct Hcase as [H|G]; [exact H|].
    destruct (mergeLoop_within (length L + length E) G 0 0 []) as [res Hres];
      [lia|intros; lia|congruence].
  - intros (M & y & Hlast & Hnin & Hy & Hlt).
    apply list_elem_of_lookup_1 in Hy as [k0 Hk0].
    apply (mergeLoop_overrun _ M y k0); try assumption; try lia.
    destruct L; [discriminate|simpl; lia].
Qed.

End Merge.

Lemma mergeLoop_no_error fuel L E : forall i e out msg,
  mergeLoop fuel L E i e out <> LuaError msg.
Proof.
  induction fuel as [|fuel IH]; intros i e out msg; cbn [mergeLoop];
    destruct (L !! i), (E !! e); try discriminate.
  destruct (PathPrim.compare _ _ <? 0)%Z.
  - destruct (L !! S i); [apply IH|discriminate].
  - destruct (0 <? PathPrim.compare _ _)%Z; apply IH.
Qed.

Lemma aggregate_no_error a msg : aggregate a <> LuaError msg.
Proof.
  unfold aggregate.
  destruct (transformInto _ (poolIncludes a) _); [|discriminate].
  destruct (transformInto _ (poolExcludes a) _); [|discriminate].
  apply mergeLoop_no_error.
Qed.

Lemma transformInto_pads {A B} (f : A -> B) (src : list A) n (x : B) :
  length src <= n ->
  transformInto f src (replicate n x)
  = Some (map f src ++ replicate (n - length src) x)%list.
Proof.
  intros H. unfold transformInto. rewrite length_replicate.
  destruct (Nat.leb_spec (length src) n); [|lia].
  now rewrite drop_replicate.
Qed.

End MergeFacts.

(** ** The recursive walk, to its end *)

Module VisitFacts.
Import DirCache.

Lemma takeTask_Permutation {U} (k : nat) (q q' : list (Task U)) t :
  takeTask k q = Some (t, q') -> q ≡ₚ t :: q'.
Proof.
  unfold takeTask. destruct (q !! (k mod length q)) as [t0|] eqn:E; [|discriminate].
  intros [= <- <-]. now apply delete_Permutation.
Qed.

Lemma entryTasks_ok root path entries :
  walkTasks root (entryTasks root path onMatch entries).
Proof.
  unfold walkTasks, entryTasks. induction entries as [|e es IH]; simpl; [constructor|].
  destruct (isDir e); simpl; [constructor; [split; reflexivity|exact IH]|exact IH].
Qed.

Lemma entryMatches_elem path entries e :
  e ∈ entries -> (PathPrim.join (name e) path, isDir e) ∈ entryMatches path entries.
Proof.
  intros He. unfold entryMatches.
  apply (list_elem_of_fmap_2 (fun e => (PathPrim.join (name e) path, isDir e))), He.
Qed.

Lemma entryMatches_dir_pending root path entries x :
  (x, true) ∈ entryMatches path entries ->
  pending (entryTasks root path onMatch entries) x.
Proof.
  unfold entryMatches, entryTasks, pending.
  induction entries as [|e es IH]; simpl; [intros H; inversion H|].
  intros [Hx|Hx]%elem_of_cons.
  - injection Hx as -> He. rewrite <- He. simpl.
    eexists. split; [left|]. reflexivity.
  - destruct (IH Hx) as (t & Ht & Hp). exists t. split; [|exact Hp].
    destruct (isDir e); [right|]; exact Ht.
Qed.

(** One call of [globRecursive] for a directory that was waiting for it. *)
Lemma globRecursive_walk fs root u0 p st delivered :
  walkTasks root (_pool st) ->
  user st = (u0 ++ delivered)%list ->
  (forall x, (x, true) ∈ delivered ->
             walked root st delivered x \/ pending (_pool st) x \/ x = p) ->
  walkInv root u0 (globRecursive fs root p onMatch st).
Proof.
  intros Hq Hu Hd. rewrite WalkFacts.globRecursive_record.
  unfold dirEntries2.
  pose proof (CacheFacts.dirEntries1_cached fs (PathPrim.join p root) st) as Hc.
  destruct (InvariantFacts.dirEntries1_grows fs (PathPrim.join p root) st) as (Hg & _ & _).
  set (entries := fst (dirEntries1 fs (PathPrim.join p root) st)) in *.
  set (st1 := snd (dirEntries1 fs (PathPrim.join p root) st)) in *.
  set (D' := (delivered ++ (p, true) :: entryMatches p entries)%list).
  assert (Hp : walked root
                 (set_pool (_pool st ++ entryTasks root p onMatch entries)%list
                    (set_user (user st ++ (p, true) :: entryMatches p entries)%list st1))
                 D' p).
  { exists entries. split; [exact Hc|].
    intros e He. subst D'. apply elem_of_app. right. right.
    now apply entryMatches_elem. }
  split.
  - simpl. apply Forall_app. split; [exact Hq|apply entryTasks_ok].
  - exists D'. split.
    + simpl. rewrite Hu. subst D'. now rewrite app_assoc.
    + intros x Hx. subst D'. apply elem_of_app in Hx as [Hx|Hx].
      * destruct (Hd x Hx) as [(es & Hes & Hall)|[(t & Ht & Htp)|Heq]]; [| |subst x].
        -- left. exists es. split.
           ++ simpl. eapply lookup_weaken; eassumption.
           ++ intros e He. apply elem_of_app. left. now apply Hall.
        -- right. exists t. split; [|exact Htp]. simpl. apply elem_of_app. now left.
        -- left. exact Hp.
      * apply elem_of_cons in Hx as [Hx|Hx].
        -- injection Hx as ->. left. exact Hp.
        -- right. destruct (entryMatches_dir_pending root p entries x Hx) as (t & Ht & Htp).
           exists t. split; [|exact Htp]. simpl. apply elem_of_app. now right.
Qed.

Lemma runTasks_walk sched fs root u0 : forall st st',
  walkInv root u0 st -> runTasks sched fs st = Some st' -> walkInv root u0 st'.
Proof.
  induction sched as [|k sched IH]; intros st st' Hinv; cbn [runTasks]; [discriminate|].
  destruct (takeTask k (_pool st)) as [[t q]|] eqn:Et; [|discriminate].
  apply takeTask_Permutation in Et.
  destruct Hinv as (Hq & D & Hu & Hd).
  unfold walkTasks in Hq. rewrite Et in Hq. apply Forall_cons in Hq as [[Hr Hcb] Hq].
  rewrite Hr, Hcb.
  assert (Hstep : walkInv root u0
                    (globRecursive fs root (task_path t) onMatch (set_pool q st))).
  { apply (globRecursive_walk fs root u0 (task_path t) (set_pool q st) D).
    - exact Hq.
    - exact Hu.
    - intros x Hx. destruct (Hd x Hx) as [Hw|(t' & Ht' & Htp)].
      + left. exact Hw.
      + rewrite Et in Ht'. apply elem_of_cons in Ht' as [->|Ht'].
        * right. right. now symmetry.
        * right. left. exists t'. split; assumption. }
  destruct (_pool (globRecursive fs root (task_path t) onMatch (set_pool q st))) eqn:Ep.
  - now intros [= <-].
  - now apply IH.
Qed.

Lemma waitAll_walk sched fs root u0 st st' :
  walkInv root u0 st -> waitAll sched fs st = Some st' -> walkInv root u0 st'.
Proof.
  intros Hinv. unfold waitAll. destruct (_pool st).
  - now intros [= <-].
  - now apply runTasks_walk.
Qed.

End VisitFacts.

(** ** Directories that cannot be opened *)

Module UnreadableFacts.
Import DirCache.

Section WithUser.
Context {U : Type}.
Implicit Types (st : State U) (cb : GlobCallback U).

Lemma dirEntries_unreadable fs key : unreadable fs key -> dirEntries fs key = [].
Proof. unfold unreadable, dirEntries. now intros ->. Qed.

Lemma lookup_unreadable fs p st :
  unreadable fs (PathPrim.norm p) ->
  notStale (PathPrim.norm p) st ->
  fst (dirEntries1 fs p st) = []
  /\ notStale (PathPrim.norm p) (snd (dirEntries1 fs p st)).
Proof.
  intros Hfs Hc. unfold dirEntries1.
  destruct (_cache st !! PathPrim.norm p) as [es|] eqn:E; simpl.
  - split; [now apply Hc|exact Hc].
  - rewrite (dirEntries_unreadable fs _ Hfs). split; [reflexivity|].
    intros entries. simpl. rewrite lookup_insert_eq. now intros [= <-].
Qed.

(** The closure for a pattern that is not empty, called for a directory
    that cannot be opened: it lists the directory and hands on nothing. *)
Lemma closure_unreadable fs root dir t next st :
  t <> "" ->
  unreadable fs (PathPrim.norm (PathPrim.join dir root)) ->
  notStale (PathPrim.norm (PathPrim.join dir root)) st ->
  call fs (IfDirGlob root t next) dir true st
  = snd (dirEntries1 fs (PathPrim.join dir root) st).
Proof.
  intros Ht Hfs Hc. cbn [call]. unfold glob4.
  destruct t as [|c t]; [congruence|]. cbn [String.length Nat.eqb].
  unfold dirEntries2.
  destruct (lookup_unreadable fs (PathPrim.join dir root) st Hfs Hc) as [He _].
  destruct (dirEntries1 fs (PathPrim.join dir root) st) as [es st1].
  simpl in He. subst es. reflexivity.
Qed.

(** The recursive walk of a directory that cannot be opened: the call of
    the callback for the directory itself, and a listing that is empty. *)
Lemma globRecursive_unreadable fs root dir cb st :
  unreadable fs (PathPrim.norm (PathPrim.join dir root)) ->
  notStale (PathPrim.norm (PathPrim.join dir root)) (call fs cb dir true st) ->
  globRecursive fs root dir cb st
  = snd (dirEntries1 fs (PathPrim.join dir root) (call fs cb dir true st)).
Proof.
  intros Hfs Hc. unfold globRecursive, dirEntries2. cbv zeta.
  destruct (lookup_unreadable fs (PathPrim.join dir root) _ Hfs Hc) as [He _].
  destruct (dirEntries1 fs (PathPrim.join dir root) (call fs cb dir true st)) as [es st1].
  simpl in He. subst es. reflexivity.
Qed.

Lemma dispatch_at_wildRoot fuel root : forall path dir cb cb' p0 d0,
  wildRoot fuel path = Some dir ->
  dispatch fuel root path cb = Some (cb', p0, d0) ->
  p0 = dir /\ d0 = true
  /\ exists t next, cb' = IfDirGlob root t next /\ isGlobPattern t = true.
Proof.
  induction fuel as [|fuel IH]; intros path dir cb cb' p0 d0; [discriminate|].
  cbn [wildRoot dispatch]. destruct (PathPrim.split path) as [head tail].
  destruct (isGlobPattern head); [apply IH|].
  destruct (isGlobPattern tail) eqn:Ht; [|discriminate].
  intros [= <-]. destruct (isRecursiveGlob tail); [discriminate|].
  intros [= <- <- <-]. eauto 10.
Qed.

(** With [**] as the first component that has a wildcard, [glob] is the
    recursive walk that [walkAt] names, when that walk enqueues nothing. *)
Lemma glob_walkAt fuel sched fs root : forall path cb cb' dir st,
  walkAt fuel root path cb = Some (cb', dir) ->
  _pool (globRecursive fs root dir cb' st) = [] ->
  glob fuel sched fs root path cb st = Some (globRecursive fs root dir cb' st).
Proof.
  induction fuel as [|fuel IH]; intros path cb cb' dir st; [discriminate|].
  cbn [walkAt glob]. destruct (PathPrim.split path) as [head tail].
  intros Hw Hq.
  destruct (isGlobPattern head).
  { rewrite (IH head _ _ _ st Hw Hq). simpl. now apply CacheFacts.waitAll_nil. }
  destruct (isRecursiveGlob tail); [|discriminate].
  injection Hw as <- <-. simpl. now apply CacheFacts.waitAll_nil.
Qed.

(** The closures that [walkAt] puts in front of the callback: only the
    one next to it may carry an empty pattern. *)
Lemma walkAt_deep fuel root : forall path cb cb' dir,
  walkAt fuel root path cb = Some (cb', dir) ->
  clean path -> isGlobPattern path = true ->
  cb' = cb \/ exists t next, cb' = IfDirGlob root t next /\ t <> "".
Proof.
  induction fuel as [|fuel IH]; intros path cb cb' dir; [discriminate|].
  cbn [walkAt].
  pose proof (PathFacts.clean_split_head path) as Hch.
  pose proof (PathFacts.split_tail_nonempty path) as Htn.
  destruct (PathPrim.split path) as [head tail]. simpl in Hch, Htn.
  intros Hw Hc Hg. specialize (Htn Hc Hg).
  destruct (isGlobPattern head) eqn:Hh.
  - destruct (IH head _ _ _ Hw Hch Hh) as [->|H]; [|right; exact H].
    right. eauto.
  - destruct (isRecursiveGlob tail); [|discriminate].
    injection Hw as <- <-. now left.
Qed.

Lemma walkAt_shape fuel root path cb cb' dir :
  walkAt fuel root path cb = Some (cb', dir) ->
  cb' = cb \/ exists t next, cb' = IfDirGlob root t next /\ (t = "" -> next = cb).
Proof.
  destruct fuel as [|fuel]; [discriminate|]. cbn [walkAt].
  pose proof (PathFacts.clean_split_head path) as Hch.
  destruct (PathPrim.split path) as [head tail]. simpl in Hch.
  intros Hw. destruct (isGlobPattern head) eqn:Hh.
  - destruct (walkAt_deep fuel root head _ _ _ Hw Hch Hh) as [->|(t & next & -> & Ht)].
    + right. eauto.
    + right. exists t, next. split; [reflexivity|]. intros ->. congruence.
  - destruct (isRecursiveGlob tail); [|discriminate].
    injection Hw as <- <-. now left.
Qed.

(** A pattern whose first component with a wildcard is not [**], in a
    directory that cannot be opened: nothing is handed on. *)
Lemma glob_unreadable_nowalk fuel sched fs root path dir cb st :
  unreadable fs (PathPrim.norm (PathPrim.join dir root)) ->
  notStale (PathPrim.norm (PathPrim.join dir root)) st ->
  _pool st = [] ->
  wildRoot fuel path = Some dir ->
  noWalk fuel path = true ->
  exists st', glob fuel sched fs root path cb st = Some st' /\ user st' = user st.
Proof.
  intros Hfs Hc Hq Hr Hw.
  destruct (WalkFacts.noWalk_dispatch fuel root path cb Hw) as [[[cb' p0] d0] Hd].
  destruct (dispatch_at_wildRoot fuel root path dir cb cb' p0 d0 Hr Hd)
    as (-> & -> & t & next & -> & Ht).
  rewrite (InvariantFacts.glob_dispatch_any fuel sched fs root path _ _ _ _ st Hd Hq).
  eexists. split; [reflexivity|].
  rewrite closure_unreadable; [|intros ->; discriminate|exact Hfs|exact Hc].
  apply CacheFacts.dirEntries1_user.
Qed.

End WithUser.

(** The recursive walk of a directory that cannot be opened, with the
    recording caller at the end of the closures. *)
Lemma glob_unreadable_walk fuel sched fs root path dir cb'
    (st : State (list (Path * bool))) :
  unreadable fs (PathPrim.norm (PathPrim.join dir root)) ->
  notStale (PathPrim.norm (PathPrim.join dir root)) st ->
  _pool st = [] ->
  walkAt fuel root path onMatch = Some (cb', dir) ->
  exists st',
    glob fuel sched fs root path onMatch st = Some st' /\
    user st'
    = (user st ++ match cb' with
                  | OnMatch _ => [(dir, true)]
                  | IfDirGlob _ t _ =>
                      if (String.length t =? 0)%nat
                      then [(PathPrim.join t dir, true)] else []
                  end)%list.
Proof.
  intros Hfs Hc Hq Hw.
  assert (Hrec : forall p, call fs onMatch p true st
                           = set_user (user st ++ [(p, true)])%list st) by reflexivity.
  assert (Hdone : forall st0 : State (list (Path * bool)),
            call fs cb' dir true st = st0 ->
            notStale (PathPrim.norm (PathPrim.join dir root)) st0 ->
            _pool st0 = [] ->
            exists st', glob fuel sched fs root path onMatch st = Some st'
                        /\ user st' = user st0).
  { intros st0 H0 Hc0 Hq0.
    assert (Hg : globRecursive fs root dir cb' st
                 = snd (dirEntries1 fs (PathPrim.join dir root) st0)).
    { rewrite <- H0 in Hc0 |- *. now apply globRecursive_unreadable. }
    exists (globRecursive fs root dir cb' st). split.
    - apply (glob_walkAt fuel sched fs root path onMatch cb' dir st Hw).
      rewrite Hg, CacheFacts.dirEntries1_pool. exact Hq0.
    - rewrite Hg. apply CacheFacts.dirEntries1_user. }
  destruct (walkAt_shape fuel root path onMatch cb' dir Hw)
    as [->|(t & next & -> & Ht)].
  - destruct (Hdone _ (Hrec dir) Hc Hq) as (st' & Hg & Hu).
    exists st'. split; [exact Hg|]. rewrite Hu. reflexivity.
  - destruct t as [|c t].
    + rewrite (Ht eq_refl) in *.
      destruct (Hdone _ (Hrec (PathPrim.join "" dir)) Hc Hq) as (st' & Hg & Hu).
      exists st'. split; [exact Hg|]. rewrite Hu. reflexivity.
    + assert (Hcall : call fs (IfDirGlob root (String c t) next) dir true st
                      = snd (dirEntries1 fs (PathPrim.join dir root) st)).
      { apply closure_unreadable; [discriminate|exact Hfs|exact Hc]. }
      destruct (Hdone _ Hcall) as (st' & Hg & Hu).
      * exact (proj2 (lookup_unreadable fs _ st Hfs Hc)).
      * now rewrite CacheFacts.dirEntries1_pool.
      * exists st'. split; [exact Hg|]. rewrite Hu, CacheFacts.dirEntries1_user.
        cbn [String.length Nat.eqb]. now rewrite app_nil_r.
Qed.

Lemma lua_glob_no_error fuel sched fs dc SCRIPT_DIR args msg :
  LuaGlob.lua_glob fuel sched fs (Some dc) SCRIPT_DIR args <> LuaGlob.LuaError msg.
Proof.
  unfold LuaGlob.lua_glob. destruct (LuaGlob.globArgs _ _ _ _ _ _); [|discriminate].
  apply MergeFacts.aggregate_no_error.
Qed.

Lemma lua_glob_unreadable fuel sched fs (dc : State unit) SCRIPT_DIR path dir :
  unreadable fs (PathPrim.norm (PathPrim.join dir (scriptDirOf SCRIPT_DIR))) ->
  notStale (PathPrim.norm (PathPrim.join dir (scriptDirOf SCRIPT_DIR))) dc ->
  String.get 0 path <> Some "!"%char ->
  wildRoot fuel path = Some dir ->
  noWalk fuel path = true ->
  LuaGlob.lua_glob fuel sched fs (Some dc) SCRIPT_DIR [LuaGlob.LuaString path]
  = LuaGlob.Returned [].
Proof.
  intros Hfs Hc Hbang Hr Hw. unfold LuaGlob.lua_glob. fold (scriptDirOf SCRIPT_DIR).
  cbn [LuaGlob.globArgs]. rewrite (ArgFacts.globOne_include _ _ _ _ _ _ Hbang).
  match goal with
  | |- context [glob fuel sched fs ?r path ?cb ?s] =>
      destruct (glob_unreadable_nowalk fuel sched fs r path dir cb s Hfs Hc eq_refl Hr Hw)
        as (st' & -> & Hu)
  end.
  simpl. rewrite Hu. reflexivity.
Qed.

End UnreadableFacts.

(** * Properties *)

(** ** The pattern matcher *)

(** C10.  The matcher answers the table of the specification:
    ["abc"] matches ["a?c"] and ["a*"] and not ["*d"], ["b"] matches
    ["[abc]"], ["d"] matches ["[!abc]"].  A bracket class knows no ranges:
    [[cls]] takes one character of the path exactly when that character is
    one of the characters written between the brackets ([[!cls]] when it is
    none of them), so that ["b"] does not match ["[a-c]"] while ["-"] does.
    And a pattern with a [[] after which no []] comes matches no path at
    all.  This holds for both case policies. *)
Theorem globMatch_table_and_brackets
    (cs : bool) (p : ascii) (path pat cls pre post : Path) :
  str_find "]" cls = None ->
  String.get 0 cls <> Some "!"%char ->
  str_find "]" post = None ->
  (Glob.globMatch cs "abc" "a?c" = true /\
   Glob.globMatch cs "abc" "a*" = true /\
   Glob.globMatch cs "abc" "*d" = false /\
   Glob.globMatch cs "b" "[abc]" = true /\
   Glob.globMatch cs "d" "[!abc]" = true) /\
  (Glob.globMatch cs (String p path) ("[" ++ cls ++ "]" ++ pat) =
     str_existsb (fun x => (Glob.charCmp cs p x =? 0)%Z) cls
     && Glob.globMatch cs path pat) /\
  (Glob.globMatch cs (String p path) ("[!" ++ cls ++ "]" ++ pat) =
     negb (str_existsb (fun x => (Glob.charCmp cs p x =? 0)%Z) cls)
     && Glob.globMatch cs path pat) /\
  (Glob.globMatch cs "b" "[a-c]" = false /\ Glob.globMatch cs "-" "[a-c]" = true) /\
  Glob.globMatch cs path (pre ++ String "[" post) = false.
Proof.
  intros Hcls Hbang Hpost.
  split; [|split; [|split; [|split]]].
  - destruct cs; vm_compute; auto.
  - now apply GlobFacts.globMatch_bracket.
  - now apply GlobFacts.globMatch_bracket_neg.
  - destruct cs; vm_compute; auto.
  - now apply (GlobFacts.globMatch_unterminated_aux cs (String.length pre)).
Qed.

Lemma globMatch_table_and_brackets_witness :
  str_find "]" "xyz" = None /\
  String.get 0 "xyz" <> Some "!"%char /\
  str_find "]" "!ab" = None /\
  Glob.globMatch true "y.c" ("[" ++ "xyz" ++ "]" ++ ".c") =
    str_existsb (fun x => (Glob.charCmp true "y" x =? 0)%Z) "xyz"
    && Glob.globMatch true ".c" ".c" /\
  Glob.globMatch true ".c" ("*" ++ String "[" "!ab") = false.
Proof.
  assert (H1 : str_find "]" "xyz" = None) by reflexivity.
  assert (H2 : String.get 0 "xyz" <> Some "!"%char) by discriminate.
  assert (H3 : str_find "]" "!ab" = None) by reflexivity.
  pose proof (globMatch_table_and_brackets true "y" ".c" ".c" "xyz" "*" "!ab" H1 H2 H3)
    as (_ & Hb & _ & _ & Hu).
  repeat split; assumption.
Defined.

(** C4.  A [*] that ends the pattern matches whatever is left of the path,
    but a [*] elsewhere does not try the split that leaves the empty
    remainder: ["a**"] does not match ["a"], and ["**"] does not match the
    empty path, although the rest of the pattern, ["*"], matches the empty
    remainder. *)
Theorem globMatch_star_misses_empty_remainder (cs : bool) :
  (forall path, Glob.globMatch cs path "*" = true) /\
  Glob.globMatch cs (str_drop 1 "a") "*" = true /\
  Glob.globMatch cs "a" "a**" = false /\
  Glob.globMatch cs "" "**" = false.
Proof.
  split; [apply GlobFacts.globMatch_star_end|].
  destruct cs; vm_compute; auto.
Qed.

(** ** The aggregation of includes and excludes *)

(** C1.  With the patterns ["a"], ["c"], ["!b"], ["!c"], none of which has
    a wildcard, the includes are [a, c] and the excludes [b, c]; their
    sorted difference is [a], and [lua_glob] returns [c]. *)
Theorem lua_glob_not_the_sorted_difference
    (fuel : nat) (sched : list nat) (fs : FileSystem)
    (dc : DirCache.State unit) (SCRIPT_DIR : option string) :
  LuaGlob.lua_glob (S fuel) sched fs (Some dc) SCRIPT_DIR
    [LuaGlob.LuaString "a"; LuaGlob.LuaString "c";
     LuaGlob.LuaString "!b"; LuaGlob.LuaString "!c"]
  = LuaGlob.Returned ["c"]
  /\ LuaGlob.sortedDifference ["a"; "c"] ["b"; "c"] = ["a"].
Proof. split; vm_compute; reflexivity. Qed.

(** C2.  The lists [a] and [b] are sorted and without repetition, and on
    them the first round of the merge moves [includesIter] to the end of
    the vector and reads through it; [lua_glob] gets there with the
    patterns ["a"] and ["!b"]. *)
Theorem mergeLoop_reads_past_the_end
    (fuel : nat) (sched : list nat) (fs : FileSystem)
    (dc : DirCache.State unit) (SCRIPT_DIR : option string) :
  LuaGlob.unique (LuaGlob.sortPaths ["a"]) = ["a"] /\
  LuaGlob.unique (LuaGlob.sortPaths ["b"]) = ["b"] /\
  LuaGlob.mergeLoop 2 ["a"] ["b"] 0 0 [] = LuaGlob.OutOfBounds /\
  LuaGlob.lua_glob (S fuel) sched fs (Some dc) SCRIPT_DIR
    [LuaGlob.LuaString "a"; LuaGlob.LuaString "!b"] = LuaGlob.OutOfBounds.
Proof. repeat split; vm_compute; reflexivity. Qed.

(** ** The directory cache *)

(** C5.  Listing a directory a second time through the cache, by any path
    with the same normal form, gives the entries of the first time and
    leaves the cache object as it is: no directory is opened and nothing
    is added to the sink, whatever the file system holds by then.  And
    over the life of a cache that starts empty with a sink attached, the
    inputs added to the sink are the directories opened, each once: the
    normal forms of the paths looked up. *)
Theorem dirEntries_idempotent {U : Type}
    (fs fs' : FileSystem) (path path' : string) (st : DirCache.State U)
    (reqs : list (FileSystem * string)) (u : U) :
  PathPrim.norm path' = PathPrim.norm path ->
  let first := DirCache.dirEntries1 fs path st in
  let second := DirCache.dirEntries1 fs' path' (snd first) in
  let final := DirCache.lookups reqs (DirCache.new (Some []) u) in
  (fst second = fst first /\
   snd second = snd first /\
   DirCache.opened (snd second) = DirCache.opened (snd first) /\
   DirCache._deps (snd second) = DirCache._deps (snd first)) /\
  (DirCache._deps final = Some (DirCache.opened final) /\
   NoDup (DirCache.opened final) /\
   forall p, p ∈ DirCache.opened final
             <-> p ∈ map (fun r => PathPrim.norm (snd r)) reqs).
Proof.
  intros Hn first second final. split.
  - subst second first. rewrite (CacheFacts.dirEntries1_again fs fs' path path' st Hn).
    simpl. auto.
  - subst final.
    destruct (CacheFacts.logs_match_lookups reqs _ (CacheFacts.logs_match_new u))
      as [(Hd & Hnd & _) Hin].
    split; [exact Hd|]. split; [exact Hnd|].
    intros p. rewrite (Hin p). simpl. split; [intros [H|H]; [inversion H|exact H]|auto].
Qed.

Lemma dirEntries_idempotent_witness :
  PathPrim.norm "root//sub/" = PathPrim.norm "root/./sub" /\
  fst (DirCache.dirEntries1 no_fs "root//sub/"
         (snd (DirCache.dirEntries1 tree_fs "root/./sub" (DirCache.new (Some []) tt))))
  = fst (DirCache.dirEntries1 tree_fs "root/./sub" (DirCache.new (Some []) tt)).
Proof.
  assert (Hn : PathPrim.norm "root//sub/" = PathPrim.norm "root/./sub") by reflexivity.
  split; [exact Hn|].
  exact (proj1 (proj1 (dirEntries_idempotent tree_fs no_fs "root/./sub" "root//sub/"
                         (DirCache.new (Some []) tt) [] tt Hn))).
Defined.

(** C7.  The listing of a directory is sorted by name and then by the
    directory flag, whatever order [readdir] hands the entries out in: two
    file systems with the same contents give the same listing.  The cache
    hands on sorted listings only. *)
Theorem dirEntries_sorted_and_deterministic {U : Type}
    (fs fs' : FileSystem) (path : string) (st : DirCache.State U) :
  same_contents fs fs' ->
  DirCache.cache_sorted st ->
  Sorted by_name_then_isDir (dirEntries fs path) /\
  dirEntries fs path = dirEntries fs' path /\
  Sorted by_name_then_isDir (fst (DirCache.dirEntries1 fs path st)) /\
  DirCache.cache_sorted (snd (DirCache.dirEntries1 fs path st)).
Proof.
  intros Hsame Hst.
  assert (Hw : forall l, Sorted DirEntry_le l -> Sorted by_name_then_isDir l).
  { intros l. apply OrderFacts.Sorted_weaken. intros x y. apply OrderFacts.DirEntry_le_order. }
  assert (Hs : forall f p, Sorted DirEntry_le (dirEntries f p)).
  { intros f p. unfold dirEntries.
    destruct (f _); [apply OrderFacts.sortEntries_Sorted|constructor]. }
  destruct (CacheFacts.dirEntries1_sorted fs path st Hst) as [H1 H2].
  split; [apply Hw, Hs|]. split; [|split; [apply Hw, H1|exact H2]].
  unfold dirEntries.
  specialize (Hsame (if (0 <? String.length path)%nat then path else ".")).
  destruct (fs _) as [raw|], (fs' _) as [raw'|]; try contradiction; [|reflexivity].
  apply OrderFacts.sortEntries_unique; [apply OrderFacts.sortEntries_Sorted|].
  rewrite OrderFacts.sortEntries_Permutation.
  now apply OrderFacts.readdirLoop_Permutation.
Qed.

Lemma dirEntries_sorted_and_deterministic_witness :
  same_contents tree_fs tree_fs' /\
  dirEntries tree_fs "root" = dirEntries tree_fs' "root" /\
  dirEntries tree_fs "root"
  = [{| name := "a.txt"; isDir := false |}; {| name := "sub"; isDir := true |}].
Proof.
  assert (Hsame : same_contents tree_fs tree_fs').
  { intros p. unfold tree_fs'. destruct (tree_fs p); [|exact I].
    apply Permutation_rev. }
  split; [exact Hsame|]. split; [|reflexivity].
  exact (proj1 (proj2 (dirEntries_sorted_and_deterministic tree_fs tree_fs' "root"
                         (DirCache.new None tt) Hsame (CacheFacts.cache_sorted_new _ _)))).
Defined.

(** ** The glob dispatch *)

(** C9.  A pattern without [?], [*] and [[] is handed to the callback as
    it is, once, and nothing else happens: the cache, the sink and the
    list of opened directories stay as they were.  The match is the whole
    pattern as a file when its last component is not empty, and the head
    as a directory when it is; whether the path exists plays no part. *)
Theorem glob_literal_passes_through {U : Type}
    (fuel : nat) (sched : list nat) (fs : FileSystem) (root path : Path)
    (f : Path -> bool -> U -> U) (st : DirCache.State U) :
  isGlobPattern path = false ->
  DirCache._pool st = [] ->
  let head := fst (PathPrim.split path) in
  let tail := snd (PathPrim.split path) in
  exists st',
    DirCache.glob (S fuel) sched fs root path (DirCache.OnMatch f) st = Some st' /\
    DirCache.user st' =
      (if (0 <? String.length tail)%nat
       then f path false (DirCache.user st)
       else f head true (DirCache.user st)) /\
    DirCache._cache st' = DirCache._cache st /\
    DirCache.opened st' = DirCache.opened st /\
    DirCache._deps st' = DirCache._deps st.
Proof.
  intros Hp Hq head tail.
  destruct (PathFacts.split_no_glob path Hp) as [Hh Ht].
  rewrite (WalkFacts.glob_literal fuel sched fs root path _ st Hh Ht).
  fold tail head.
  destruct (0 <? String.length tail)%nat; simpl;
    (rewrite CacheFacts.waitAll_nil by exact Hq); eauto 10.
Qed.

Lemma glob_literal_passes_through_witness :
  isGlobPattern "no/such/file.c" = false /\
  exists st',
    DirCache.glob 1 [] no_fs "." "no/such/file.c" DirCache.onMatch (DirCache.new (Some []) [])
    = Some st' /\
    DirCache.user st' = [("no/such/file.c", false)] /\
    DirCache.opened st' = [].
Proof.
  assert (Hp : isGlobPattern "no/such/file.c" = false) by reflexivity.
  split; [exact Hp|].
  destruct (glob_literal_passes_through 0 [] no_fs "." "no/such/file.c" DirCache.record
              (DirCache.new (Some []) []) Hp eq_refl) as (st' & Hg & Hu & _ & Ho & _).
  exists st'. split; [exact Hg|]. split; [exact Hu|exact Ho].
Defined.

(** C8 (as amended).  A directory that cannot be opened lists as empty,
    from the free function and through the cache alike, unless the cache
    holds a listing of it from before, which it returns as it is.  With such
    a directory before the first component of the pattern that has a
    wildcard, [glob] returns, and hands nothing to the callback when that
    component is not [**]; when it is [**], the walk hands on the directory
    itself and nothing else, so that the directory followed by [**] yields
    the directory, and a pattern that goes on after the [**] yields nothing
    (or, when only a separator follows, the directory).  [lua_glob] returns
    the empty table for a pattern of the first kind, and raises no error
    whatever the file system answers. *)
Theorem unreadable_directory_lists_empty
    (fuel : nat) (sched : list nat) (fs : FileSystem) (root path dir : Path)
    (st : DirCache.State (list (Path * bool))) :
  let key := PathPrim.norm (PathPrim.join dir root) in
  unreadable fs key ->
  DirCache._pool st = [] ->
  dirEntries fs key = [] /\
  (forall entries, DirCache._cache st !! key = Some entries ->
     fst (DirCache.dirEntries2 fs root dir st) = entries) /\
  (notStale key st ->
   fst (DirCache.dirEntries2 fs root dir st) = [] /\
   (wildRoot fuel path = Some dir -> DirCache.noWalk fuel path = true ->
    exists st',
      DirCache.glob fuel sched fs root path DirCache.onMatch st = Some st' /\
      DirCache.user st' = DirCache.user st) /\
   (forall cb', walkAt fuel root path DirCache.onMatch = Some (cb', dir) ->
    exists st',
      DirCache.glob fuel sched fs root path DirCache.onMatch st = Some st' /\
      DirCache.user st'
      = (DirCache.user st
         ++ match cb' with
            | DirCache.OnMatch _ => [(dir, true)]
            | DirCache.IfDirGlob _ t _ =>
                if (String.length t =? 0)%nat then [(PathPrim.join t dir, true)] else []
            end)%list) /\
   (isGlobPattern (fst (PathPrim.split path)) = false ->
    isRecursiveGlob (snd (PathPrim.split path)) = true ->
    dir = fst (PathPrim.split path) ->
    exists st',
      DirCache.glob (S fuel) sched fs root path DirCache.onMatch st = Some st' /\
      DirCache.user st' = (DirCache.user st ++ [(dir, true)])%list)) /\
  (forall (dc : DirCache.State unit) (SCRIPT_DIR : option string),
     root = scriptDirOf SCRIPT_DIR -> notStale key dc ->
     String.get 0 path <> Some "!"%char ->
     wildRoot fuel path = Some dir -> DirCache.noWalk fuel path = true ->
     LuaGlob.lua_glob fuel sched fs (Some dc) SCRIPT_DIR [LuaGlob.LuaString path]
     = LuaGlob.Returned []) /\
  (forall fuel' sched' (dc : DirCache.State unit) SCRIPT_DIR args msg,
     LuaGlob.lua_glob fuel' sched' fs (Some dc) SCRIPT_DIR args <> LuaGlob.LuaError msg).
Proof.
  intros key Hfs Hq.
  split; [now apply UnreadableFacts.dirEntries_unreadable|].
  split.
  { intros entries He. unfold DirCache.dirEntries2.
    now rewrite (CacheFacts.dirEntries1_hit fs _ st entries He). }
  split.
  { intros Hc.
    split; [exact (proj1 (UnreadableFacts.lookup_unreadable fs _ st Hfs Hc))|].
    split;
      [intros Hr Hw; now apply UnreadableFacts.glob_unreadable_nowalk with (dir := dir)|].
    split; [intros cb' Hw; now apply UnreadableFacts.glob_unreadable_walk|].
    intros Hh Hr ->.
    apply (UnreadableFacts.glob_unreadable_walk (S fuel) sched fs root path _
             DirCache.onMatch st Hfs Hc Hq).
    cbn [walkAt]. destruct (PathPrim.split path) as [head tail]. simpl in *.
    now rewrite Hh, Hr. }
  split.
  { intros dc sd -> Hdc Hbang Hr Hw.
    now apply UnreadableFacts.lua_glob_unreadable with (dir := dir). }
  intros fuel' sched' dc sd args msg. apply UnreadableFacts.lua_glob_no_error.
Qed.

Lemma unreadable_directory_lists_empty_witness :
  unreadable no_fs (PathPrim.norm (PathPrim.join "missing" "root")) /\
  notStale (PathPrim.norm (PathPrim.join "missing" "root"))
    (DirCache.new None ([] : list (Path * bool))) /\
  wildRoot 2 "missing/*/*.c" = Some "missing" /\
  DirCache.noWalk 2 "missing/*/*.c" = true /\
  exists st',
    DirCache.glob 2 [] no_fs "root" "missing/*/*.c" DirCache.onMatch (DirCache.new None [])
    = Some st' /\
    DirCache.user st' = [].
Proof.
  assert (Hc : notStale (PathPrim.norm (PathPrim.join "missing" "root"))
                 (DirCache.new None ([] : list (Path * bool)))).
  { intros entries H. simpl in H. rewrite lookup_empty in H. discriminate. }
  split; [reflexivity|]. split; [exact Hc|]. split; [reflexivity|]. split; [reflexivity|].
  exact (proj1 (proj2 (proj1 (proj2 (proj2
           (unreadable_directory_lists_empty 2 [] no_fs "root" "missing/*/*.c" "missing"
              (DirCache.new None []) eq_refl eq_refl))) Hc))
           eq_refl eq_refl).
Defined.

(** C8, the claim as it stands: a glob against a missing directory may
    well yield a match.  Nothing can be opened in [no_fs], and
    ["missing/**"] yields [missing]. *)
Lemma glob_on_missing_directory_yields_a_match :
  ~ (forall (fs : FileSystem) (root path : Path) st',
       let key := PathPrim.norm (PathPrim.join (fst (PathPrim.split path)) root) in
       fs (if (0 <? String.length key)%nat then key else ".") = None ->
       isGlobPattern path = true ->
       DirCache.glob 1 [] fs root path DirCache.onMatch (DirCache.new None []) = Some st' ->
       DirCache.user st' = []).
Proof.
  intros H.
  specialize (H no_fs "root" "missing/**" _ eq_refl eq_refl eq_refl).
  vm_compute in H. discriminate.
Qed.

(** C6 (as amended).  For a pattern whose head has no wildcard and whose
    last component is [**], [glob] is the recursive walk from the head:
    the first thing the walk hands to the callback is the head itself, as a
    directory, and a walk that comes to its end has it still.  For the tree
    [root/{a.txt, sub/b.txt}], the pattern [**] from [root] yields the
    matches [root], [root/a.txt], [root/sub] and [root/sub/b.txt] (as paths
    relative to [root]: the empty path, [a.txt], [sub], [sub/b.txt]), and
    no other. *)
Theorem recursive_glob_yields_its_root
    (fuel : nat) (sched : list nat) (fs : FileSystem) (root path : Path)
    (st : DirCache.State (list (Path * bool))) :
  isGlobPattern (fst (PathPrim.split path)) = false ->
  isRecursiveGlob (snd (PathPrim.split path)) = true ->
  DirCache._pool st = [] ->
  let head := fst (PathPrim.split path) in
  DirCache.glob (S fuel) sched fs root path DirCache.onMatch st
  = DirCache.waitAll sched fs (DirCache.globRecursive fs root head DirCache.onMatch st) /\
  (exists rest,
     DirCache.user (DirCache.globRecursive fs root head DirCache.onMatch st)
     = (DirCache.user st ++ (head, true) :: rest)%list) /\
  (forall st',
     DirCache.glob (S fuel) sched fs root path DirCache.onMatch st = Some st' ->
     exists rest, DirCache.user st' = (DirCache.user st ++ (head, true) :: rest)%list) /\
  (forall k sched',
   exists st',
     DirCache.glob 1 (k :: sched') tree_fs "root" "**" DirCache.onMatch (DirCache.new None [])
     = Some st' /\
     DirCache.user st'
     = [("", true); ("a.txt", false); ("sub", true); ("sub", true); ("sub/b.txt", false)] /\
     forall m, m ∈ map (DirCache.resolve "root") (DirCache.user st') <->
               m ∈ [("root", true); ("root/a.txt", false);
                    ("root/sub", true); ("root/sub/b.txt", false)]).
Proof.
  intros Hh Ht Hq head.
  pose proof (WalkFacts.globRecursive_record fs root head st) as Hrec. cbv zeta in Hrec.
  split; [now apply WalkFacts.glob_recursive|]. split; [|split].
  - rewrite Hrec. simpl. eauto.
  - intros st'. rewrite (WalkFacts.glob_recursive fuel sched fs root path _ st Hh Ht).
    fold head. intros Hw.
    apply WalkFacts.waitAll_record_grows in Hw as [more Hmore].
    + rewrite Hmore, Hrec. simpl. rewrite <- app_assoc. simpl. eauto.
    + rewrite Hrec. simpl. rewrite Hq. simpl.
      intros t. apply WalkFacts.entryTasks_callback.
  - intros k sched'. eexists. split; [vm_compute; reflexivity|]. split; [reflexivity|].
    intros m. set (l := map (DirCache.resolve "root") _). vm_compute in l. subst l.
    rewrite !elem_of_cons. tauto.
Qed.

Lemma recursive_glob_yields_its_root_witness :
  isGlobPattern (fst (PathPrim.split "root/**")) = false /\
  isRecursiveGlob (snd (PathPrim.split "root/**")) = true /\
  exists rest,
    DirCache.user (DirCache.globRecursive tree_fs "." "root" DirCache.onMatch
                     (DirCache.new None []))
    = ("root", true) :: rest.
Proof.
  split; [reflexivity|]. split; [reflexivity|].
  exact (proj1 (proj2
           (recursive_glob_yields_its_root 0 [] tree_fs "." "root/**" (DirCache.new None [])
              eq_refl eq_refl eq_refl))).
Defined.

(** C6, the claim as it stands: the last component being [**] does not
    make a recursive walk.  From [root] in [tree_fs], the pattern ["*/**"]
    yields [sub/b.txt] only: no directory at all, and not [sub], which the
    [**] is rooted at. *)
Lemma recursive_wildcard_after_wildcard_yields_no_directory :
  ~ (forall (path : Path) st',
       isRecursiveGlob (snd (PathPrim.split path)) = true ->
       DirCache.glob 2 [] tree_fs "root" path DirCache.onMatch (DirCache.new None [])
       = Some st' ->
       exists dir, (dir, true) ∈ DirCache.user st').
Proof.
  intros H.
  destruct (H "*/**" _ eq_refl eq_refl) as [dir Hdir].
  vm_compute in Hdir.
  apply list_elem_of_singleton in Hdir. discriminate.
Qed.

(** C3 (as amended).  When no recursive walk is on the way of [glob], that
    is when the first component of the pattern that has a wildcard is not
    [**], no two calls of the callback carry the same path (the entries of
    a directory having distinct names, without separator).  The recursive
    walk calls it for a directory among the entries of its parent and
    enqueues a task that begins by calling it for that directory again. *)
Theorem glob_delivers_each_path_once
    (fuel : nat) (sched : list nat) (fs : FileSystem) (root path : Path)
    (st : DirCache.State (list (Path * bool))) :
  distinct_names fs ->
  plain_names fs ->
  DirCache.cache_agrees fs st ->
  DirCache._pool st = [] ->
  DirCache.noWalk fuel path = true ->
  (exists st' delivered,
     DirCache.glob fuel sched fs root path DirCache.onMatch st = Some st' /\
     DirCache.user st' = (DirCache.user st ++ delivered)%list /\
     NoDup (map fst delivered)) /\
  (forall (dir : string) (e : DirEntry),
     let walked := DirCache.globRecursive fs root dir DirCache.onMatch st in
     let sub := PathPrim.join (name e) dir in
     e ∈ fst (DirCache.dirEntries2 fs root dir st) ->
     isDir e = true ->
     (exists before after,
        DirCache.user walked = (DirCache.user st ++ before ++ (sub, true) :: after)%list) /\
     (exists t, t ∈ DirCache._pool walked /\ DirCache.task_path t = sub /\
        forall st0, exists rest,
          DirCache.user (DirCache.globRecursive fs (DirCache.task_root t)
                           (DirCache.task_path t) DirCache.onMatch st0)
          = (DirCache.user st0 ++ (sub, true) :: rest)%list)).
Proof.
  intros Hfs Hpl Hc Hq Hw. split.
  - destruct (WalkFacts.noWalk_dispatch fuel root path DirCache.onMatch Hw)
      as [[[cb' p0] d0] Hd].
    destruct (WalkFacts.glob_dispatch fuel sched fs root path _ cb' p0 d0 st
                Hd eq_refl Hc Hq) as [Hg Hrec].
    destruct (WalkFacts.dispatch_ok fuel root path _ cb' p0 d0 Hd I I) as [Hok Hcl].
    destruct (WalkFacts.call_handed fs cb' p0 d0 Hrec st Hc) as (Hu & _ & _).
    exists (DirCache.call fs cb' p0 d0 st), (DirCache.handed fs cb' p0 d0).
    split; [exact Hg|]. split; [exact Hu|].
    now apply WalkFacts.handed_NoDup.
  - intros dir e walked sub He Hd. subst walked.
    rewrite WalkFacts.globRecursive_record. simpl. split.
    + apply list_elem_of_In, in_split in He as (l1 & l2 & ->).
      exists ((dir, true) :: DirCache.entryMatches dir l1), (DirCache.entryMatches dir l2).
      unfold DirCache.entryMatches. rewrite map_app. simpl. rewrite Hd.
      reflexivity.
    + exists {| DirCache.task_root := root; DirCache.task_path := sub;
                DirCache.task_callback := DirCache.onMatch |}.
      split; [|split; [reflexivity|]].
      * apply elem_of_app. right. unfold DirCache.entryTasks.
        apply list_elem_of_In, in_flat_map. exists e.
        split; [now apply list_elem_of_In|]. rewrite Hd. now left.
      * intros st0. simpl. rewrite WalkFacts.globRecursive_record. simpl. eauto.
Qed.

Lemma glob_delivers_each_path_once_witness :
  distinct_names tree_fs /\
  plain_names tree_fs /\
  DirCache.noWalk 2 "*/*.txt" = true /\
  exists st' delivered,
    DirCache.glob 2 [] tree_fs "root" "*/*.txt" DirCache.onMatch (DirCache.new None [])
    = Some st' /\
    DirCache.user st' = delivered /\
    NoDup (map fst delivered).
Proof.
  split; [exact WalkFacts.tree_fs_distinct|].
  split; [exact WalkFacts.tree_fs_plain|].
  split; [reflexivity|].
  exact (proj1 (glob_delivers_each_path_once 2 [] tree_fs "root" "*/*.txt"
                  (DirCache.new None [])
                  WalkFacts.tree_fs_distinct WalkFacts.tree_fs_plain
                  (CacheFacts.cache_agrees_new _ _ _) eq_refl eq_refl)).
Defined.

(** With a wildcard in the head the same happens when the head is expanded
    by a recursive walk: ["**/*.txt"] hands [sub/b.txt] to the callback
    twice, once for each time the walk hands on [sub]. *)
Fact recursive_head_delivers_a_file_twice :
  exists st',
    DirCache.glob 2 [0] tree_fs "root" "**/*.txt" DirCache.onMatch (DirCache.new None [])
    = Some st' /\
    DirCache.user st' = [("a.txt", false); ("sub/b.txt", false); ("sub/b.txt", false)].
Proof. eexists. split; vm_compute; reflexivity. Qed.

(** C3, the claim as it stands: from [root] in [tree_fs], the pattern [**]
    hands [sub] to the callback twice. *)
Lemma recursive_glob_delivers_a_directory_twice :
  ~ (forall (fs : FileSystem) (root path : Path) st',
       DirCache.glob 1 [0] fs root path DirCache.onMatch (DirCache.new None []) = Some st' ->
       NoDup (map fst (DirCache.user st'))).
Proof.
  intros H.
  specialize (H tree_fs "root" "**" _ eq_refl).
  vm_compute in H.
  apply NoDup_cons in H as [_ H]. apply NoDup_cons in H as [_ H].
  apply NoDup_cons in H as [H _]. apply H. left.
Qed.

(** * Further properties *)

(** ** The pattern matcher, further *)

(** X1.  A pattern without wildcard character matches the paths that are
    equal to it character by character, as [charCmp] compares them: the
    same bytes in the case-sensitive build, the same bytes after [tolower]
    in the other.  Such a pattern matches itself. *)
Theorem globMatch_literal_is_equality (cs : bool) (path pattern : Path) :
  isGlobPattern pattern = false ->
  (Glob.globMatch cs path pattern = true <-> foldCase cs path = foldCase cs pattern) /\
  (Glob.globMatch true path pattern = true <-> path = pattern) /\
  Glob.globMatch cs pattern pattern = true.
Proof.
  intros Hp. split; [|split].
  - now apply MatchFacts.globMatch_literal_aux.
  - rewrite (MatchFacts.globMatch_literal_aux true pattern Hp path).
    now rewrite !MatchFacts.foldCase_sensitive.
  - now apply MatchFacts.globMatch_literal_aux.
Qed.

(** X1 at work on a concrete input. *)
Lemma globMatch_literal_is_equality_witness :
  isGlobPattern "Makefile" = false /\
  (Glob.globMatch false "MAKEFILE" "Makefile" = true
   <-> foldCase false "MAKEFILE" = foldCase false "Makefile").
Proof.
  split; [reflexivity|].
  apply (globMatch_literal_is_equality false "MAKEFILE" "Makefile"). reflexivity.
Defined.

(** X2.  A pattern that begins with wildcard-free text [lit] matches a
    path exactly when the path splits into a first part that equals [lit]
    (as [charCmp] compares) and a rest that the rest of the pattern
    matches. *)
Theorem globMatch_literal_prefix (cs : bool) (path lit pat : Path) :
  isGlobPattern lit = false ->
  Glob.globMatch cs path (lit ++ pat) = true <->
  exists pre rest,
    path = pre ++ rest /\ foldCase cs pre = foldCase cs lit /\
    Glob.globMatch cs rest pat = true.
Proof.
  revert path. induction lit as [|c lit IH]; intros path Hlit.
  - simpl. split.
    + intros H. exists "", path. auto.
    + intros (pre & rest & -> & Hpre & H). destruct pre; [exact H|discriminate].
  - cbn [isGlobPattern str_existsb] in Hlit. apply orb_false_iff in Hlit as [Hc Hlit].
    change (String c lit ++ pat) with (String c (lit ++ pat)).
    rewrite MatchFacts.globMatch_literal_cons by exact Hc.
    destruct path as [|p0 path'].
    + split; [discriminate|].
      intros (pre & rest & Hp & Hpre & _). destruct pre; discriminate.
    + rewrite andb_true_iff, (IH path' Hlit). split.
      * intros [He (pre & rest & -> & Hpre & H)].
        apply Ascii.eqb_eq in He.
        exists (String p0 pre), rest. split; [reflexivity|]. split; [|exact H].
        unfold foldCase in *. simpl. congruence.
      * intros (pre & rest & Hp & Hpre & H).
        destruct pre as [|x pre]; [discriminate|].
        simpl in Hp. injection Hp as -> ->.
        unfold foldCase in Hpre. simpl in Hpre. injection Hpre as Hx Hpre.
        split; [now apply Ascii.eqb_eq|]. exists pre, rest. auto.
Qed.

(** X2 at work on a concrete input. *)
Lemma globMatch_literal_prefix_witness :
  Glob.globMatch true "main.c" ("main" ++ ".?") = true <->
  exists pre rest,
    "main.c" = pre ++ rest /\ foldCase true pre = foldCase true "main" /\
    Glob.globMatch true rest ".?" = true.
Proof. apply (globMatch_literal_prefix true "main.c" "main" ".?"). reflexivity. Defined.

(** X3.  A [*] followed by non-empty wildcard-free text, as in [*.cc]:
    the paths matched are those that end with that text (as [charCmp]
    compares); what stands before it is arbitrary, and may be empty. *)
Theorem globMatch_star_then_literal (cs : bool) (path lit : Path) :
  isGlobPattern lit = false ->
  lit <> "" ->
  Glob.globMatch cs path (String "*" lit) = true <->
  exists pre suf, path = pre ++ suf /\ foldCase cs suf = foldCase cs lit.
Proof.
  intros Hlit Hne. destruct lit as [|c lit]; [congruence|].
  rewrite GlobFacts.globMatch_star_inner. split.
  - intros (k & Hk & H).
    apply (MatchFacts.globMatch_literal_aux cs _ Hlit) in H.
    exists (str_take k path), (str_drop k path). split; [|exact H].
    symmetry. apply MatchFacts.str_take_drop.
  - intros (pre & suf & -> & H).
    exists (String.length pre). split.
    + rewrite PathFacts.str_length_app.
      assert (String.length suf = String.length (String c lit)) as ->.
      { rewrite <- (MatchFacts.str_map_length (foldChar cs) suf).
        rewrite <- (MatchFacts.str_map_length (foldChar cs) (String c lit)).
        unfold foldCase in H. now rewrite H. }
      simpl. lia.
    + rewrite GlobFacts.str_drop_all.
      now apply (MatchFacts.globMatch_literal_aux cs _ Hlit).
Qed.

(** X3 at work on a concrete input. *)
Lemma globMatch_star_then_literal_witness :
  Glob.globMatch true "glob.cc" (String "*" ".cc") = true <->
  exists pre suf, "glob.cc" = pre ++ suf /\ foldCase true suf = foldCase true ".cc".
Proof.
  apply (globMatch_star_then_literal true "glob.cc" ".cc"); [reflexivity|discriminate].
Defined.

(** X4.  A pattern made of [?] only matches the paths that have as many
    characters as the pattern. *)
Theorem globMatch_question_marks_count (cs : bool) (path pattern : Path) :
  str_existsb (fun c => negb (Ascii.eqb c "?")) pattern = false ->
  Glob.globMatch cs path pattern = true <-> String.length path = String.length pattern.
Proof.
  revert path. induction pattern as [|c pat IH]; intros path Hp.
  - rewrite Glob.globMatch_equation_1. destruct path; simpl; split; auto; discriminate.
  - simpl in Hp. apply orb_false_iff in Hp as [Hc Hp].
    apply negb_false_iff in Hc.
    rewrite Glob.globMatch_equation_2, Hc.
    destruct path as [|p0 path']; simpl; [split; discriminate|].
    rewrite (IH path' Hp). split; intros; lia.
Qed.

(** X4 at work on a concrete input. *)
Lemma globMatch_question_marks_count_witness :
  Glob.globMatch true "a.c" "???" = true <-> String.length "a.c" = String.length "???".
Proof. apply (globMatch_question_marks_count true "a.c" "???"). reflexivity. Defined.

(** X5.  The empty path is matched by the empty pattern and by the
    pattern [*], and by no other pattern. *)
Theorem globMatch_empty_path (cs : bool) (pattern : Path) :
  Glob.globMatch cs "" pattern = true <-> pattern = "" \/ pattern = "*".
Proof.
  destruct pattern as [|c pat].
  - rewrite Glob.globMatch_equation_1. split; auto.
  - rewrite Glob.globMatch_equation_2.
    destruct (Ascii.eqb_spec c "?") as [->|H1].
    { split; [discriminate|]. intros [H|H]; discriminate. }
    destruct (Ascii.eqb_spec c "*") as [->|H2].
    { destruct pat as [|c1 pat1].
      - split; auto.
      - simpl. split; [discriminate|]. intros [H|H]; discriminate. }
    destruct (Ascii.eqb c "[").
    { split; [discriminate|]. intros [H|H]; [discriminate|]. congruence. }
    split; [discriminate|]. intros [H|H]; [discriminate|]. congruence.
Qed.

(** X6.  In the case-insensitive build (the one for Windows) the case of
    the letters of the path plays no part: the path and the path turned to
    lower case match the same patterns. *)
Theorem globMatch_insensitive_to_case_of_path (path pattern : Path) :
  Glob.globMatch false (str_map Glob.tolower path) pattern
  = Glob.globMatch false path pattern
  /\ Glob.globMatch_public true (str_map Glob.tolower path) pattern
     = Glob.globMatch_public true path pattern.
Proof.
  split; [|unfold Glob.globMatch_public; cbn [negb]];
    apply (MatchFacts.globMatch_lower_path_aux (String.length pattern)); lia.
Qed.

(** ** The listing of a directory *)

(** X7.  For a directory that can be opened, the names of the listing
    are the names that [readdir] hands out without [.] and [..]: each of
    the others is listed as often as it was handed out, none is lost and
    none is added. *)
Theorem dirEntries_lists_every_name_but_dots
    (fs : FileSystem) (path : string) (raw : list dirent) :
  fs (if (0 <? String.length path)%nat then path else ".") = Some raw ->
  map name (dirEntries fs path)
  ≡ₚ filter (fun n => n <> "." /\ n <> "..") (map d_name raw).
Proof.
  intros Hfs. unfold dirEntries. rewrite Hfs.
  rewrite (OrderFacts.sortEntries_Permutation (readdirLoop raw)).
  rewrite OrderFacts.readdirLoop_names.
  erewrite list_filter_iff; [reflexivity|].
  intros n. apply ListingFacts.isDotOrDotDot_false.
Qed.

(** X7 at work on a concrete input. *)
Lemma dirEntries_lists_every_name_but_dots_witness :
  tree_fs "root" = Some [ {| d_name := "."; d_kind := DT_DIR; d_stat := None |};
                          {| d_name := "sub"; d_kind := DT_DIR; d_stat := None |};
                          {| d_name := ".."; d_kind := DT_DIR; d_stat := None |};
                          {| d_name := "a.txt"; d_kind := DT_REG; d_stat := None |} ] /\
  map name (dirEntries tree_fs "root") ≡ₚ ["sub"; "a.txt"].
Proof.
  split; [reflexivity|].
  exact (dirEntries_lists_every_name_but_dots tree_fs "root" _ eq_refl).
Defined.

(** X8.  For a directory that can be opened, the listing holds, for each
    answer of [readdir] other than [.] and [..], the entry with that name,
    flagged as a directory exactly when [d_type] is [DT_DIR], or [d_type]
    is [DT_UNKNOWN] and [fstatat] succeeds and says [S_IFDIR]; it holds no
    other entry.  An entry of unknown type whose [fstatat] fails is listed,
    as a file. *)
Theorem dirEntries_entry_kinds
    (fs : FileSystem) (path : string) (raw : list dirent) (e : DirEntry) :
  fs (if (0 <? String.length path)%nat then path else ".") = Some raw ->
  e ∈ dirEntries fs path <->
  exists r, r ∈ raw /\ d_name r <> "." /\ d_name r <> ".." /\
            e = {| name := d_name r; isDir := listedAsDir r |}.
Proof.
  intros Hfs. unfold dirEntries. rewrite Hfs.
  rewrite (OrderFacts.sortEntries_Permutation (readdirLoop raw)).
  apply ListingFacts.readdirLoop_elem.
Qed.

(** X8 at work on a concrete input. *)
Lemma dirEntries_entry_kinds_witness :
  let fs : FileSystem := fun _ =>
    Some [ {| d_name := ".."; d_kind := DT_DIR; d_stat := None |};
           {| d_name := "obj"; d_kind := DT_UNKNOWN; d_stat := Some S_IFDIR |};
           {| d_name := "gone"; d_kind := DT_UNKNOWN; d_stat := None |} ] in
  {| name := "obj"; isDir := true |} ∈ dirEntries fs "build" /\
  {| name := "gone"; isDir := false |} ∈ dirEntries fs "build".
Proof.
  intros fs. split.
  - apply (dirEntries_entry_kinds fs "build" _ _ eq_refl).
    exists {| d_name := "obj"; d_kind := DT_UNKNOWN; d_stat := Some S_IFDIR |}.
    split; [right; left|]. repeat split; discriminate.
  - apply (dirEntries_entry_kinds fs "build" _ _ eq_refl).
    exists {| d_name := "gone"; d_kind := DT_UNKNOWN; d_stat := None |}.
    split; [right; right; left|]. repeat split; discriminate.
Defined.

(** X9.  [operator<] on directory entries is a strict total order:
    irreflexive, transitive, asymmetric, and two entries neither of which
    is below the other are equal.  It is what [std::sort] asks of it. *)
Theorem DirEntry_lt_strict_total_order :
  (forall a, DirEntry_lt a a = false) /\
  (forall a b c, DirEntry_lt a b = true -> DirEntry_lt b c = true -> DirEntry_lt a c = true) /\
  (forall a b, DirEntry_lt a b = true -> DirEntry_lt b a = false) /\
  (forall a b, DirEntry_lt a b = false -> DirEntry_lt b a = false -> a = b).
Proof.
  split; [|split; [|split]].
  - intros a. destruct (OrderFacts.DirEntry_le_total a a) as [H|H]; exact H.
  - intros a b c Hab Hbc.
    apply ListingFacts.DirEntry_lt_le in Hab, Hbc. apply ListingFacts.DirEntry_lt_le.
    intros Hca.
    destruct (OrderFacts.DirEntry_le_total a b) as [H|H]; [|contradiction].
    apply Hbc. exact (OrderFacts.DirEntry_le_trans c a b Hca H).
  - intros a b Hab. apply ListingFacts.DirEntry_lt_le in Hab.
    destruct (OrderFacts.DirEntry_le_total a b) as [H|H]; [exact H|contradiction].
  - intros a b Hab Hba. apply (OrderFacts.DirEntry_le_antisym a b); assumption.
Qed.

(** ** What [glob] keeps of the cache *)

(** X10.  A [glob] that returns has only added to the cache: every listing
    that was cached before is cached after, unchanged, for whatever
    pattern, callback and schedule of the pool; the directories opened
    before stay the first of the log, and the sink is the null pointer it
    was, or the sink it was with more inputs at its end. *)
Theorem glob_only_adds_to_the_cache {U : Type}
    (fuel : nat) (sched : list nat) (fs : FileSystem) (root path : Path)
    (cb : DirCache.GlobCallback U) (st st' : DirCache.State U) :
  DirCache.glob fuel sched fs root path cb st = Some st' ->
  (forall key entries,
     DirCache._cache st !! key = Some entries ->
     DirCache._cache st' !! key = Some entries) /\
  DirCache.opened st `prefix_of` DirCache.opened st' /\
  match DirCache._deps st with
  | None => DirCache._deps st' = None
  | Some deps => exists deps', DirCache._deps st' = Some deps' /\ deps `prefix_of` deps'
  end.
Proof.
  intros H.
  assert (DirCache._cache st ⊆ DirCache._cache st'
          /\ DirCache.opened st `prefix_of` DirCache.opened st'
          /\ sink_grows (DirCache._deps st) (DirCache._deps st'))
    as (H1 & H2 & H3).
  { refine (InvariantFacts.glob_inv fs
              (fun s => DirCache._cache st ⊆ DirCache._cache s
                        /\ DirCache.opened st `prefix_of` DirCache.opened s
                        /\ sink_grows (DirCache._deps st) (DirCache._deps s))
              _ _ _ fuel sched root path cb st st' _ H).
    - intros u s Hs. exact Hs.
    - intros p s (Hs1 & Hs2 & Hs3).
      destruct (InvariantFacts.dirEntries1_grows fs p s) as (G1 & G2 & G3).
      split; [etransitivity; eassumption|].
      split; [etransitivity; eassumption|].
      eapply InvariantFacts.sink_grows_trans; eassumption.
    - intros q s Hs. exact Hs.
    - split; [reflexivity|]. split; [reflexivity|]. apply InvariantFacts.sink_grows_refl. }
  split; [|split; [exact H2|exact H3]].
  intros key entries Hk. eapply lookup_weaken; eassumption.
Qed.

(** X10 at work on a concrete input. *)
Lemma glob_only_adds_to_the_cache_witness :
  exists st',
    DirCache.glob 1 [0] tree_fs "root" "**" DirCache.onMatch
      (snd (DirCache.dirEntries1 no_fs "root/sub" (DirCache.new (Some []) []))) = Some st' /\
    DirCache._cache st' !! "root/sub" = Some [] /\
    ["root/sub"] `prefix_of` DirCache.opened st' /\
    exists deps', DirCache._deps st' = Some deps' /\ ["root/sub"] `prefix_of` deps'.
Proof.
  destruct (DirCache.glob 1 [0] tree_fs "root" "**" DirCache.onMatch
              (snd (DirCache.dirEntries1 no_fs "root/sub" (DirCache.new (Some []) []))))
    as [st'|] eqn:E.
  - exists st'. split; [reflexivity|].
    destruct (glob_only_adds_to_the_cache _ _ _ _ _ _ _ _ E) as (H1 & H2 & H3).
    split; [apply H1; reflexivity|]. split; [exact H2|exact H3].
  - vm_compute in E. discriminate.
Defined.

(** X11.  With a sink that has been told of every directory opened so far,
    each once, a [glob] that returns leaves it so: the inputs of the sink
    are the directories opened, none of them twice, and they are the keys of
    the cache.  No directory is read from the disk a second time. *)
Theorem glob_reports_each_directory_once {U : Type}
    (fuel : nat) (sched : list nat) (fs : FileSystem) (root path : Path)
    (cb : DirCache.GlobCallback U) (st st' : DirCache.State U) :
  DirCache.logs_match st ->
  DirCache.glob fuel sched fs root path cb st = Some st' ->
  DirCache._deps st' = Some (DirCache.opened st') /\
  NoDup (DirCache.opened st') /\
  (forall p, p ∈ DirCache.opened st' <-> is_Some (DirCache._cache st' !! p)).
Proof.
  intros Hst H.
  refine (InvariantFacts.glob_inv fs DirCache.logs_match
            _ _ _ fuel sched root path cb st st' Hst H).
  - intros u s Hs. exact Hs.
  - intros p s Hs. exact (proj1 (CacheFacts.logs_match_step fs p s Hs)).
  - intros q s Hs. exact Hs.
Qed.

(** X11 at work on a concrete input. *)
Lemma glob_reports_each_directory_once_witness :
  DirCache.logs_match (DirCache.new (Some []) ([] : list (Path * bool))) /\
  exists st',
    DirCache.glob 1 [0] tree_fs "root" "**" DirCache.onMatch (DirCache.new (Some []) [])
    = Some st' /\
    DirCache._deps st' = Some (DirCache.opened st') /\
    NoDup (DirCache.opened st').
Proof.
  split; [apply CacheFacts.logs_match_new|].
  destruct (DirCache.glob 1 [0] tree_fs "root" "**" DirCache.onMatch
              (DirCache.new (Some []) [])) as [st'|] eqn:E.
  - exists st'. split; [reflexivity|].
    destruct (glob_reports_each_directory_once _ _ _ _ _ _ _ _
                (CacheFacts.logs_match_new _) E) as (H1 & H2 & _).
    split; assumption.
  - vm_compute in E. discriminate.
Defined.

(** X12.  If every cached listing is sorted and is the listing of the
    file system, the same holds after a [glob] that returns, for whatever
    pattern, callback and schedule. *)
Theorem glob_keeps_listings_sorted_and_faithful {U : Type}
    (fuel : nat) (sched : list nat) (fs : FileSystem) (root path : Path)
    (cb : DirCache.GlobCallback U) (st st' : DirCache.State U) :
  DirCache.cache_sorted st ->
  DirCache.cache_agrees fs st ->
  DirCache.glob fuel sched fs root path cb st = Some st' ->
  DirCache.cache_sorted st' /\ DirCache.cache_agrees fs st'.
Proof.
  intros Hs Ha H.
  refine (InvariantFacts.glob_inv fs
            (fun s => DirCache.cache_sorted s /\ DirCache.cache_agrees fs s)
            _ _ _ fuel sched root path cb st st' (conj Hs Ha) H).
  - intros u s Hs'. exact Hs'.
  - intros p s [H1 H2]. split.
    + exact (proj2 (CacheFacts.dirEntries1_sorted fs p s H1)).
    + exact (proj2 (CacheFacts.dirEntries1_agrees fs p s H2)).
  - intros q s Hs'. exact Hs'.
Qed.

(** X12 at work on a concrete input. *)
Lemma glob_keeps_listings_sorted_and_faithful_witness :
  exists st',
    DirCache.glob 2 [0] tree_fs "root" "*/*.txt" DirCache.onMatch (DirCache.new None [])
    = Some st' /\
    DirCache.cache_sorted st' /\ DirCache.cache_agrees tree_fs st'.
Proof.
  destruct (DirCache.glob 2 [0] tree_fs "root" "*/*.txt" DirCache.onMatch
              (DirCache.new None [])) as [st'|] eqn:E.
  - exists st'. split; [reflexivity|].
    exact (glob_keeps_listings_sorted_and_faithful _ _ _ _ _ _ _ _
             (CacheFacts.cache_sorted_new _ _) (CacheFacts.cache_agrees_new _ _ _) E).
  - vm_compute in E. discriminate.
Defined.

(** X13.  When a recursive glob, a directory followed by [**], returns,
    the walk is complete: no task is left in the queue, so that the
    destructor has nothing to wait for, and none was lost, for every
    directory that was handed to the callback, the start of the walk
    included, has been listed, and every entry of its listing has been
    handed to the callback too. *)
Theorem recursive_glob_leaves_no_directory_unvisited
    (fuel : nat) (sched : list nat) (fs : FileSystem) (root path : Path)
    (st st' : DirCache.State (list (Path * bool))) :
  let head := fst (PathPrim.split path) in
  isGlobPattern head = false ->
  isRecursiveGlob (snd (PathPrim.split path)) = true ->
  DirCache._pool st = [] ->
  DirCache.glob (S fuel) sched fs root path DirCache.onMatch st = Some st' ->
  DirCache._pool st' = [] /\
  (forall sched' fs', destroy sched' fs' st' = Some st') /\
  exists delivered,
    DirCache.user st' = (DirCache.user st ++ delivered)%list /\
    (head, true) ∈ delivered /\
    forall p, (p, true) ∈ delivered ->
      exists entries,
        DirCache._cache st' !! PathPrim.norm (PathPrim.join p root) = Some entries /\
        forall e, e ∈ entries -> (PathPrim.join (name e) p, isDir e) ∈ delivered.
Proof.
  intros head Hh Hr Hq Hg.
  rewrite (WalkFacts.glob_recursive fuel sched fs root path DirCache.onMatch st Hh Hr) in Hg.
  fold head in Hg.
  set (g := DirCache.globRecursive fs root head DirCache.onMatch st) in *.
  assert (Hinv : walkInv root (DirCache.user st) g).
  { apply (VisitFacts.globRecursive_walk fs root (DirCache.user st) head st []).
    - rewrite Hq. constructor.
    - now rewrite app_nil_r.
    - intros x Hx. inversion Hx. }
  pose proof (InvariantFacts.waitAll_done _ _ _ _ Hg) as Hdone.
  assert (Hgrow : exists more, DirCache.user st' = (DirCache.user g ++ more)%list).
  { apply (WalkFacts.waitAll_record_grows sched fs g st'); [|exact Hg].
    intros t Ht. destruct Hinv as [Hts _]. unfold walkTasks in Hts.
    rewrite Forall_forall in Hts. now apply Hts. }
  destruct Hgrow as [more Hmore].
  destruct (VisitFacts.waitAll_walk sched fs root _ g st' Hinv Hg) as (_ & D & Hu & Hd).
  split; [exact Hdone|]. split.
  { intros sched' fs'. now apply CacheFacts.waitAll_nil. }
  exists D. split; [exact Hu|]. split.
  - subst g. rewrite WalkFacts.globRecursive_record in Hmore. simpl in Hmore.
    rewrite Hu, <- !app_assoc in Hmore. apply app_inv_head in Hmore. rewrite Hmore.
    now left.
  - intros p Hp. destruct (Hd p Hp) as [Hw|(t & Ht & _)]; [exact Hw|].
    rewrite Hdone in Ht. inversion Ht.
Qed.

(** X13 at work on a concrete input. *)
Lemma recursive_glob_leaves_no_directory_unvisited_witness :
  isGlobPattern (fst (PathPrim.split "**")) = false /\
  isRecursiveGlob (snd (PathPrim.split "**")) = true /\
  exists st' delivered,
    DirCache.glob 1 [0] tree_fs "root" "**" DirCache.onMatch (DirCache.new None [])
    = Some st' /\
    DirCache._pool st' = [] /\
    DirCache.user st' = delivered /\
    ("sub", true) ∈ delivered /\
    forall p, (p, true) ∈ delivered ->
      exists entries,
        DirCache._cache st' !! PathPrim.norm (PathPrim.join p "root") = Some entries /\
        forall e, e ∈ entries -> (PathPrim.join (name e) p, isDir e) ∈ delivered.
Proof.
  split; [reflexivity|]. split; [reflexivity|].
  destruct (DirCache.glob 1 [0] tree_fs "root" "**" DirCache.onMatch
              (DirCache.new None [])) as [st'|] eqn:E.
  - destruct (recursive_glob_leaves_no_directory_unvisited 0 [0] tree_fs "root" "**"
                (DirCache.new None []) st' eq_refl eq_refl eq_refl E)
      as (H1 & _ & D & H2 & _ & H3).
    exists st', D. split; [reflexivity|]. split; [exact H1|]. split; [exact H2|].
    split; [|exact H3].
    simpl in H2. rewrite <- H2. vm_compute in E. injection E as <-.
    simpl. right. right. left.
  - vm_compute in E. discriminate.
Defined.

(** X14.  When the first component of the pattern that holds a wildcard
    is not [**], [glob] enqueues no task: it returns, with the same state
    for every schedule of the pool, and with the queue empty. *)
Theorem glob_without_walk_uses_no_pool {U : Type}
    (fuel : nat) (fs : FileSystem) (root path : Path)
    (cb : DirCache.GlobCallback U) (st : DirCache.State U) :
  DirCache.noWalk fuel path = true ->
  DirCache._pool st = [] ->
  exists st',
    (forall sched, DirCache.glob fuel sched fs root path cb st = Some st') /\
    DirCache._pool st' = [].
Proof.
  intros Hw Hq.
  destruct (WalkFacts.noWalk_dispatch fuel root path cb Hw) as [[[cb' p0] d0] Hd].
  exists (DirCache.call fs cb' p0 d0 st). split.
  - intros sched. now apply InvariantFacts.glob_dispatch_any.
  - now rewrite InvariantFacts.call_pool.
Qed.

(** X14 at work on a concrete input. *)
Lemma glob_without_walk_uses_no_pool_witness :
  DirCache.noWalk 2 "*/*.txt" = true /\
  exists st',
    (forall sched,
       DirCache.glob 2 sched tree_fs "root" "*/*.txt" DirCache.onMatch (DirCache.new None [])
       = Some st') /\
    DirCache._pool st' = [].
Proof.
  split; [reflexivity|].
  exact (glob_without_walk_uses_no_pool 2 tree_fs "root" "*/*.txt" DirCache.onMatch
           (DirCache.new None []) eq_refl eq_refl).
Defined.

(** ** What [glob] delivers *)

(** X15.  For a pattern whose directory part has no wildcard and whose
    last component has one and is not [**], [glob] makes one lookup, of the
    directory part under the root, and hands to the callback the entries of
    that listing whose name matches the last component, in the order of the
    listing, each as the directory part joined with the name, with its
    directory flag. *)
Theorem glob_one_level
    (fuel : nat) (sched : list nat) (fs : FileSystem) (root path : Path)
    (st : DirCache.State (list (Path * bool))) :
  let head := fst (PathPrim.split path) in
  let tail := snd (PathPrim.split path) in
  let listing := fst (DirCache.dirEntries2 fs root head st) in
  isGlobPattern head = false ->
  isRecursiveGlob tail = false ->
  isGlobPattern tail = true ->
  DirCache._pool st = [] ->
  exists st' delivered,
    DirCache.glob (S fuel) sched fs root path DirCache.onMatch st = Some st' /\
    DirCache.user st' = (DirCache.user st ++ delivered)%list /\
    same_store st' (snd (DirCache.dirEntries2 fs root head st)) /\
    delivered
    = map (fun e => (PathPrim.join (name e) head, isDir e))
        (List.filter (fun e => Glob.globMatch_public false (name e) tail) listing).
Proof.
  intros head tail listing Hh Hr Ht Hq.
  eexists. exists (DirCache.matches4 head tail listing).
  split; [exact (LevelFacts.glob_one_level_record fuel sched fs root path st Hh Hr Ht Hq)|].
  split; [reflexivity|]. split; [repeat split|].
  apply LevelFacts.matches4_filter.
Qed.

(** X15 at work on a concrete input. *)
Lemma glob_one_level_witness :
  isGlobPattern (fst (PathPrim.split "sub/*.txt")) = false /\
  isRecursiveGlob (snd (PathPrim.split "sub/*.txt")) = false /\
  isGlobPattern (snd (PathPrim.split "sub/*.txt")) = true /\
  exists st' delivered,
    DirCache.glob 1 [] tree_fs "root" "sub/*.txt" DirCache.onMatch (DirCache.new None [])
    = Some st' /\
    DirCache.user st' = delivered /\
    delivered = [("sub/b.txt", false)].
Proof.
  split; [reflexivity|]. split; [reflexivity|]. split; [reflexivity|].
  destruct (glob_one_level 0 [] tree_fs "root" "sub/*.txt" (DirCache.new None [])
              eq_refl eq_refl eq_refl eq_refl) as (st' & delivered & H1 & H2 & _ & H3).
  exists st', delivered. split; [exact H1|]. split; [exact H2|].
  rewrite H3. vm_compute. reflexivity.
Defined.

(** X16.  The same one-level [glob] a second time opens no directory and
    hands on the same matches as the first, whatever the file system has
    become in between: the listing comes from the cache. *)
Theorem glob_again_reads_nothing
    (fuel : nat) (sched : list nat) (fs fs' : FileSystem) (root path : Path)
    (st st1 : DirCache.State (list (Path * bool))) :
  isGlobPattern (fst (PathPrim.split path)) = false ->
  isRecursiveGlob (snd (PathPrim.split path)) = false ->
  isGlobPattern (snd (PathPrim.split path)) = true ->
  DirCache._pool st = [] ->
  DirCache.glob (S fuel) sched fs root path DirCache.onMatch st = Some st1 ->
  exists st2 delivered,
    DirCache.glob (S fuel) sched fs' root path DirCache.onMatch st1 = Some st2 /\
    DirCache.user st1 = (DirCache.user st ++ delivered)%list /\
    DirCache.user st2 = (DirCache.user st1 ++ delivered)%list /\
    same_store st2 st1.
Proof.
  intros Hh Hr Ht Hq H1.
  rewrite (LevelFacts.glob_one_level_record fuel sched fs root path st Hh Hr Ht Hq) in H1.
  apply (inj Some) in H1.
  set (head := fst (PathPrim.split path)) in *.
  set (tail := snd (PathPrim.split path)) in *.
  set (first := DirCache.dirEntries2 fs root head st) in *.
  assert (Hq1 : DirCache._pool st1 = []).
  { rewrite <- H1. subst first. unfold DirCache.dirEntries2. simpl.
    now rewrite CacheFacts.dirEntries1_pool. }
  assert (Hhit : DirCache.dirEntries2 fs' root head st1 = (fst first, st1)).
  { rewrite <- H1. subst first. unfold DirCache.dirEntries2.
    apply CacheFacts.dirEntries1_hit. simpl.
    apply CacheFacts.dirEntries1_cached. }
  exists (DirCache.set_user
            (DirCache.user st1 ++ DirCache.matches4 head tail (fst first))%list st1),
         (DirCache.matches4 head tail (fst first)).
  split.
  - rewrite (LevelFacts.glob_one_level_record fuel sched fs' root path st1 Hh Hr Ht Hq1).
    fold head tail. now rewrite Hhit.
  - split; [now rewrite <- H1|]. split; [reflexivity|]. repeat split.
Qed.

(** X16 at work on a concrete input. *)
Lemma glob_again_reads_nothing_witness :
  exists st1 st2,
    DirCache.glob 1 [] tree_fs "root" "*.txt" DirCache.onMatch (DirCache.new None [])
    = Some st1 /\
    DirCache.glob 1 [] no_fs "root" "*.txt" DirCache.onMatch st1 = Some st2 /\
    DirCache.user st2 = (DirCache.user st1 ++ DirCache.user st1)%list /\
    DirCache.opened st2 = DirCache.opened st1.
Proof.
  destruct (DirCache.glob 1 [] tree_fs "root" "*.txt" DirCache.onMatch
              (DirCache.new None [])) as [st1|] eqn:E.
  - destruct (glob_again_reads_nothing 0 [] tree_fs no_fs "root" "*.txt"
                (DirCache.new None []) st1 eq_refl eq_refl eq_refl eq_refl E)
      as (st2 & delivered & H1 & H2 & H3 & H4).
    exists st1, st2. split; [reflexivity|]. split; [exact H1|].
    simpl in H2. split; [rewrite H3, H2; reflexivity|apply H4].
  - vm_compute in E. discriminate.
Defined.

(** X17.  One call of [globRecursive] hands to the callback the directory
    it is called for, flagged as a directory, and then every entry of its
    listing in the order of the listing; it enqueues one task for each
    entry that is a directory, in that order, and makes one lookup. *)
Theorem globRecursive_one_directory
    (fs : FileSystem) (root : Path) (path : string)
    (st : DirCache.State (list (Path * bool))) :
  let listing := fst (DirCache.dirEntries2 fs root path st) in
  let walked := DirCache.globRecursive fs root path DirCache.onMatch st in
  DirCache.user walked
  = (DirCache.user st
     ++ (path, true) :: map (fun e => (PathPrim.join (name e) path, isDir e)) listing)%list
  /\ map DirCache.task_path (DirCache._pool walked)
     = (map DirCache.task_path (DirCache._pool st)
        ++ map (fun e => PathPrim.join (name e) path) (List.filter isDir listing))%list
  /\ same_store walked (snd (DirCache.dirEntries2 fs root path st)).
Proof.
  intros listing walked. subst walked.
  rewrite WalkFacts.globRecursive_record. subst listing.
  unfold DirCache.dirEntries2.
  split; [|split].
  - reflexivity.
  - simpl. now rewrite map_app, DirsFacts.entryTasks_paths.
  - repeat split.
Qed.

(** X18.  A recursive glob [head/**] of a directory that holds no
    directory returns for every schedule of the pool, the empty one
    included, and hands on the directory itself followed by its entries. *)
Theorem recursive_glob_of_a_flat_directory
    (fuel : nat) (sched : list nat) (fs : FileSystem) (root path : Path)
    (st : DirCache.State (list (Path * bool))) :
  let head := fst (PathPrim.split path) in
  let listing := fst (DirCache.dirEntries2 fs root head st) in
  isGlobPattern head = false ->
  isRecursiveGlob (snd (PathPrim.split path)) = true ->
  DirCache._pool st = [] ->
  Forall (fun e => isDir e = false) listing ->
  exists st',
    DirCache.glob (S fuel) sched fs root path DirCache.onMatch st = Some st' /\
    DirCache.user st'
    = (DirCache.user st
       ++ (head, true) :: map (fun e => (PathPrim.join (name e) head, false)) listing)%list.
Proof.
  intros head listing Hh Hr Hq Hflat.
  rewrite (WalkFacts.glob_recursive fuel sched fs root path DirCache.onMatch st Hh Hr).
  fold head. rewrite WalkFacts.globRecursive_record. fold listing.
  rewrite (DirsFacts.entryTasks_flat _ _ _ _ Hflat), app_nil_r.
  unfold DirCache.dirEntries2.
  eexists. split.
  - apply CacheFacts.waitAll_nil. simpl. exact Hq.
  - simpl. do 2 f_equal.
    unfold DirCache.entryMatches. clear -Hflat.
    induction Hflat as [|e es He _ IH]; simpl; [reflexivity|]. now rewrite He, IH.
Qed.

(** X18 at work on a concrete input. *)
Lemma recursive_glob_of_a_flat_directory_witness :
  isGlobPattern (fst (PathPrim.split "sub/**")) = false /\
  isRecursiveGlob (snd (PathPrim.split "sub/**")) = true /\
  exists st',
    DirCache.glob 1 [] tree_fs "root" "sub/**" DirCache.onMatch (DirCache.new None [])
    = Some st' /\
    DirCache.user st' = [("sub", true); ("sub/b.txt", false)].
Proof.
  split; [reflexivity|]. split; [reflexivity|].
  destruct (recursive_glob_of_a_flat_directory 0 [] tree_fs "root" "sub/**"
              (DirCache.new None []) eq_refl eq_refl eq_refl) as (st' & H1 & H2).
  { vm_compute. repeat constructor. }
  exists st'. split; [exact H1|]. rewrite H2. vm_compute. reflexivity.
Defined.

(** X19.  A pattern whose last component is empty (it ends with a
    separator), with no recursive walk on its way, yields directories
    only: every match handed to the callback carries the directory flag. *)
Theorem glob_with_trailing_separator_yields_directories
    (fuel : nat) (sched : list nat) (fs : FileSystem) (root path : Path)
    (st : DirCache.State (list (Path * bool))) :
  snd (PathPrim.split path) = "" ->
  DirCache.noWalk fuel path = true ->
  DirCache.cache_agrees fs st ->
  DirCache._pool st = [] ->
  exists st' delivered,
    DirCache.glob fuel sched fs root path DirCache.onMatch st = Some st' /\
    DirCache.user st' = (DirCache.user st ++ delivered)%list /\
    Forall (fun m => snd m = true) delivered.
Proof.
  intros Ht Hw Hst Hq.
  destruct (WalkFacts.noWalk_dispatch fuel root path DirCache.onMatch Hw)
    as [[[cb' p0] d0] Hd].
  destruct (WalkFacts.glob_dispatch fuel sched fs root path _ _ _ _ st Hd eq_refl Hst Hq)
    as [Hg Hrec].
  destruct (WalkFacts.call_handed fs cb' p0 d0 Hrec st Hst) as (Hu & _ & _).
  exists (DirCache.call fs cb' p0 d0 st), (DirCache.handed fs cb' p0 d0).
  split; [exact Hg|]. split; [exact Hu|].
  apply Forall_forall. intros m Hm.
  destruct fuel as [|fuel]; [discriminate|].
  cbn [DirCache.dispatch] in Hd.
  destruct (PathPrim.split path) as [head tail]. simpl in Ht. subst tail.
  destruct (isGlobPattern head).
  - apply (DirsFacts.handed_dirs fs cb' p0 d0 m); [|exact Hm].
    apply (DirsFacts.dispatch_dirs fuel root head _ _ _ _ Hd). reflexivity.
  - simpl in Hd. injection Hd as <- <- <-. simpl in Hm.
    apply list_elem_of_singleton in Hm as ->. reflexivity.
Qed.

(** X19 at work on a concrete input. *)
Lemma glob_with_trailing_separator_yields_directories_witness :
  snd (PathPrim.split "*/") = "" /\
  DirCache.noWalk 2 "*/" = true /\
  exists st' delivered,
    DirCache.glob 2 [] tree_fs "root" "*/" DirCache.onMatch (DirCache.new None [])
    = Some st' /\
    DirCache.user st' = delivered /\
    Forall (fun m => snd m = true) delivered.
Proof.
  split; [reflexivity|]. split; [reflexivity|].
  exact (glob_with_trailing_separator_yields_directories 2 [] tree_fs "root" "*/"
           (DirCache.new None []) eq_refl eq_refl
           (CacheFacts.cache_agrees_new _ _ _) eq_refl).
Defined.

(** ** The pools and the table of [lua_glob] *)

(** X20.  The [(offset, length)] pairs that [include] and [exclude] write
    down stand, in the pool as it is in the end, for the paths that were
    passed to the two closures, in the order of the calls: appending to the
    pool leaves the earlier offsets valid. *)
Theorem pool_offsets_round_trip (calls : list (bool * Path)) :
  included (collect calls noPools) = map snd (List.filter fst calls) /\
  excluded (collect calls noPools)
  = map snd (List.filter (fun c => negb (fst c)) calls).
Proof.
  destruct (PoolFacts.collect_decodes calls noPools PoolFacts.pool_ok_noPools)
    as (_ & H1 & H2).
  exact (conj H1 H2).
Qed.

(** X21.  [std::sort] followed by [std::unique] leaves the paths of the
    vector, each once, in strictly increasing order. *)
Theorem unique_of_sorted_is_the_set (l : list Path) :
  NoDup (LuaGlob.unique (LuaGlob.sortPaths l)) /\
  (forall x, x ∈ LuaGlob.unique (LuaGlob.sortPaths l) <-> x ∈ l) /\
  StronglySorted (fun a b => PathPrim.lt a b = true)
    (LuaGlob.unique (LuaGlob.sortPaths l)).
Proof.
  destruct (PoolFacts.unique_sorted _ (PoolFacts.sortPaths_Sorted l)) as [H1 H2].
  split; [now apply PoolFacts.strict_NoDup|]. split; [|exact H1].
  intros x. rewrite H2. now rewrite PoolFacts.sortPaths_Permutation.
Qed.

(** X22.  When no exclude pattern has matched anything, the table that
    [lua_glob] builds holds the included paths in increasing order, each
    once, the empty path left out: the vector of excludes has been given
    the size of the includes and holds empty paths. *)
Theorem aggregate_without_excludes (a : LuaGlob.Pools) :
  LuaGlob.poolExcludes a = [] ->
  LuaGlob.aggregate a
  = LuaGlob.Returned
      (filter (fun p => p <> "") (LuaGlob.unique (LuaGlob.sortPaths (included a)))).
Proof. apply AggregateFacts.aggregate_includes_only. Qed.

(** X22 at work on a concrete input. *)
Lemma aggregate_without_excludes_witness :
  LuaGlob.poolExcludes (collect [(true, "b"); (true, ""); (true, "a"); (true, "b")] noPools)
  = [] /\
  LuaGlob.aggregate (collect [(true, "b"); (true, ""); (true, "a"); (true, "b")] noPools)
  = LuaGlob.Returned ["a"; "b"].
Proof.
  split; [reflexivity|].
  rewrite (aggregate_without_excludes
             (collect [(true, "b"); (true, ""); (true, "a"); (true, "b")] noPools) eq_refl).
  vm_compute. reflexivity.
Defined.

(** X23.  When the excludes have collected more paths than the includes,
    [std::transform] writes past the end of the vector [excludes], which
    has been given the size of the includes. *)
Theorem aggregate_overruns_with_more_excludes (a : LuaGlob.Pools) :
  length (LuaGlob.poolIncludes a) < length (LuaGlob.poolExcludes a) ->
  LuaGlob.aggregate a = LuaGlob.OutOfBounds.
Proof.
  intros H. unfold LuaGlob.aggregate.
  rewrite PoolFacts.transformInto_fits, (PoolFacts.transformInto_overrun _ _ _ _ H).
  reflexivity.
Qed.

(** X23 at work on a concrete input. *)
Lemma aggregate_overruns_with_more_excludes_witness :
  length (LuaGlob.poolIncludes (collect [(true, "a"); (false, "b"); (false, "c")] noPools))
  < length (LuaGlob.poolExcludes (collect [(true, "a"); (false, "b"); (false, "c")] noPools))
  /\ LuaGlob.aggregate (collect [(true, "a"); (false, "b"); (false, "c")] noPools)
     = LuaGlob.OutOfBounds.
Proof.
  split; [simpl; lia|].
  apply (aggregate_overruns_with_more_excludes
           (collect [(true, "a"); (false, "b"); (false, "c")] noPools)).
  simpl. lia.
Defined.

(** X24.  The aggregation reads or writes past the end of a vector in
    two cases and no other: when the excludes have collected more paths
    than the includes, and when the largest included path is not among the
    excludes (as padded, sorted and deduplicated) and is smaller than one
    of them.  In every other case it returns a table, and every path of a
    table that it returns is a path that was passed to [include]. *)
Theorem aggregate_bounds_and_contents (a : LuaGlob.Pools) :
  let n := length (LuaGlob.poolIncludes a) in
  let m := length (LuaGlob.poolExcludes a) in
  let L := LuaGlob.unique (LuaGlob.sortPaths (included a)) in
  let E := LuaGlob.unique (LuaGlob.sortPaths
                             (excluded a ++ replicate (n - m) PathPrim.default)) in
  (LuaGlob.aggregate a = LuaGlob.OutOfBounds <->
   n < m \/
   exists M y, last L = Some M /\ (M ∉ E) /\ y ∈ E /\ PathPrim.lt M y = true) /\
  (LuaGlob.aggregate a <> LuaGlob.OutOfBounds ->
   exists res, LuaGlob.aggregate a = LuaGlob.Returned res /\
               forall x, x ∈ res -> x ∈ included a) /\
  (forall res x, LuaGlob.aggregate a = LuaGlob.Returned res -> x ∈ res -> x ∈ included a).
Proof.
  intros n m L E.
  assert (HL : StronglySorted (fun a b => PathPrim.lt a b = true) L).
  { apply PoolFacts.unique_sorted, PoolFacts.sortPaths_Sorted. }
  assert (HE : StronglySorted (fun a b => PathPrim.lt a b = true) E).
  { apply PoolFacts.unique_sorted, PoolFacts.sortPaths_Sorted. }
  assert (Hsub : forall res x, LuaGlob.aggregate a = LuaGlob.Returned res ->
                   x ∈ res -> x ∈ included a).
  { unfold LuaGlob.aggregate. rewrite PoolFacts.transformInto_fits. fold (included a).
    destruct (LuaGlob.transformInto _ (LuaGlob.poolExcludes a) _) as [excludes1|];
      [|discriminate].
    intros res x H Hx.
    destruct (PoolFacts.mergeLoop_sub _ _ _ _ _ _ _ H x Hx) as [Ho|Ho]; [inversion Ho|].
    apply (PoolFacts.unique_sorted _ (PoolFacts.sortPaths_Sorted (included a))) in Ho.
    now rewrite PoolFacts.sortPaths_Permutation in Ho. }
  assert (Hchar : LuaGlob.aggregate a = LuaGlob.OutOfBounds <->
            n < m \/ exists M y, last L = Some M /\ (M ∉ E) /\ y ∈ E
                                 /\ PathPrim.lt M y = true).
  { unfold LuaGlob.aggregate. rewrite PoolFacts.transformInto_fits. fold (included a) n.
    destruct (Nat.lt_ge_cases n m) as [Hlt|Hge].
    - rewrite (PoolFacts.transformInto_overrun _ _ _ _ Hlt). split; auto.
    - rewrite (MergeFacts.transformInto_pads _ _ _ _ Hge). fold (excluded a) m L E.
      rewrite (MergeFacts.mergeLoop_bounds L E HL HE). split; [auto|].
      intros [H|H]; [lia|exact H]. }
  split; [exact Hchar|]. split; [|exact Hsub].
  intros Hin.
  destruct (LuaGlob.aggregate a) as [res|msg| |] eqn:Ea.
  - exists res. split; [reflexivity|]. intros x. now apply Hsub.
  - exfalso. exact (MergeFacts.aggregate_no_error a msg Ea).
  - congruence.
  - exfalso. exact (LuaFacts.aggregate_fuel a Ea).
Qed.

(** X24 at work on a concrete input. *)
Lemma aggregate_bounds_and_contents_witness :
  LuaGlob.aggregate (collect [(true, "a"); (false, "b")] noPools) = LuaGlob.OutOfBounds /\
  exists res,
    LuaGlob.aggregate (collect [(true, "a"); (true, "c"); (false, "b")] noPools)
    = LuaGlob.Returned res /\
    forall x, x ∈ res -> x ∈ ["a"; "c"].
Proof.
  split.
  - apply (proj1 (aggregate_bounds_and_contents
                    (collect [(true, "a"); (false, "b")] noPools))).
    right. exists "a", "b". vm_compute. repeat split; try reflexivity.
    + intros H. apply list_elem_of_In in H. destruct H as [H|[]]. discriminate.
    + now left.
  - apply (proj1 (proj2 (aggregate_bounds_and_contents
                           (collect [(true, "a"); (true, "c"); (false, "b")] noPools)))).
    vm_compute. discriminate.
Defined.

(** X25.  A table argument that holds strings is handled as those strings
    passed one by one, and what follows the first nil of a table is not
    looked at. *)
Theorem globArgs_table_is_its_strings
    (fuel : nat) (sched : list nat) (fs : FileSystem) (root : Path)
    (l : list string) (after : list LuaGlob.table_item)
    (args : list LuaGlob.lua_value) (st : LuaGlob.State) :
  LuaGlob.globArgs fuel sched fs root
    (LuaGlob.LuaTable (map LuaGlob.ItemString l) :: args) st
  = LuaGlob.globArgs fuel sched fs root (map LuaGlob.LuaString l ++ args)%list st
  /\ LuaGlob.globArgs fuel sched fs root
       (LuaGlob.LuaTable (map LuaGlob.ItemString l ++ LuaGlob.ItemNil :: after) :: args) st
     = LuaGlob.globArgs fuel sched fs root (map LuaGlob.LuaString l ++ args)%list st.
Proof.
  cbn [LuaGlob.globArgs].
  assert (H : forall tl, (tl = [] \/ exists after', tl = LuaGlob.ItemNil :: after') ->
            forall st0 : LuaGlob.State,
            LuaGlob.globTable fuel sched fs root (map LuaGlob.ItemString l ++ tl)%list st0
              ≫= (fun st' => LuaGlob.globArgs fuel sched fs root args st')
            = LuaGlob.globArgs fuel sched fs root (map LuaGlob.LuaString l ++ args)%list st0).
  { intros tl Htl. induction l as [|p l IH]; intros st0.
    - destruct Htl as [->|[after' ->]]; reflexivity.
    - cbn [map app LuaGlob.globTable LuaGlob.globArgs].
      destruct (LuaGlob.globOne fuel sched fs root p st0) as [st1|]; [|reflexivity].
      apply IH. }
  split.
  - rewrite <- (app_nil_r (map LuaGlob.ItemString l)). apply H. now left.
  - apply H. right. eauto.
Qed.

(** X26.  Called with strings that hold no wildcard, do not begin with
    [!] and have a last component, [lua_glob] returns those strings in
    increasing order, each once, whatever the file system holds. *)
Theorem lua_glob_of_literals
    (fuel : nat) (sched : list nat) (fs : FileSystem)
    (dc : DirCache.State unit) (SCRIPT_DIR : option string) (l : list string) :
  Forall (fun p => String.get 0 p <> Some "!"%char /\ isGlobPattern p = false
                   /\ snd (PathPrim.split p) <> "") l ->
  LuaGlob.lua_glob (S fuel) sched fs (Some dc) SCRIPT_DIR (map LuaGlob.LuaString l)
  = LuaGlob.Returned (LuaGlob.unique (LuaGlob.sortPaths l)).
Proof.
  intros Hl. unfold LuaGlob.lua_glob.
  rewrite (ArgFacts.globArgs_literals fuel sched fs _ l); [|exact Hl|reflexivity].
  cbn [DirCache.user DirCache.set_user]. fold noPools.
  rewrite AggregateFacts.aggregate_includes_only
    by apply AggregateFacts.include_only_collect.
  rewrite ArgFacts.included_collect.
  rewrite PoolFacts.filter_all; [reflexivity|].
  apply Forall_forall. intros x Hx.
  apply (PoolFacts.unique_sorted _ (PoolFacts.sortPaths_Sorted l)) in Hx.
  rewrite PoolFacts.sortPaths_Permutation in Hx.
  rewrite Forall_forall in Hl. destruct (Hl x Hx) as (_ & _ & H).
  intros ->. apply H. reflexivity.
Qed.

(** X26 at work on a concrete input. *)
Lemma lua_glob_of_literals_witness :
  Forall (fun p => String.get 0 p <> Some "!"%char /\ isGlobPattern p = false
                   /\ snd (PathPrim.split p) <> "") ["src/b.c"; "a.c"; "src/b.c"] /\
  LuaGlob.lua_glob 1 [] no_fs (Some (DirCache.new None tt)) None
    (map LuaGlob.LuaString ["src/b.c"; "a.c"; "src/b.c"])
  = LuaGlob.Returned ["a.c"; "src/b.c"].
Proof.
  assert (H : Forall (fun p => String.get 0 p <> Some "!"%char /\ isGlobPattern p = false
                               /\ snd (PathPrim.split p) <> "")
                ["src/b.c"; "a.c"; "src/b.c"]).
  { repeat constructor; discriminate. }
  split; [exact H|].
  rewrite (lua_glob_of_literals 0 [] no_fs (DirCache.new None tt) None _ H).
  vm_compute. reflexivity.
Defined.

(** X27.  Called with one string whose directory part has no wildcard,
    whose last component has one and is not [**], and which does not begin
    with [!], [lua_glob] returns the names of the listing of that directory
    (under [SCRIPT_DIR], or [.] without it) that match the last component,
    each joined to the directory part, in increasing order, each once. *)
Theorem lua_glob_one_level_pattern
    (fuel : nat) (sched : list nat) (fs : FileSystem)
    (dc : DirCache.State unit) (SCRIPT_DIR : option string) (p : string) :
  let root := match SCRIPT_DIR with
              | None | Some EmptyString => "."
              | Some s => s
              end in
  let head := fst (PathPrim.split p) in
  let tail := snd (PathPrim.split p) in
  let key := PathPrim.norm (PathPrim.join head root) in
  let listing := match DirCache._cache dc !! key with
                 | Some entries => entries
                 | None => dirEntries fs key
                 end in
  String.get 0 p <> Some "!"%char ->
  isGlobPattern head = false ->
  isRecursiveGlob tail = false ->
  isGlobPattern tail = true ->
  LuaGlob.lua_glob (S fuel) sched fs (Some dc) SCRIPT_DIR [LuaGlob.LuaString p]
  = LuaGlob.Returned
      (filter (fun q => q <> "")
         (LuaGlob.unique (LuaGlob.sortPaths
            (map (fun e => PathPrim.join (name e) head)
               (List.filter (fun e => Glob.globMatch_public false (name e) tail)
                  listing))))).
Proof.
  intros root head tail key listing Hbang Hh Hr Ht.
  unfold LuaGlob.lua_glob. fold root.
  cbn [LuaGlob.globArgs]. rewrite (ArgFacts.globOne_include _ _ _ _ _ _ Hbang).
  rewrite (LevelFacts.glob_one_level_onMatch fuel sched fs root p LuaGlob.include);
    [|exact Hh|exact Hr|exact Ht|reflexivity].
  cbn [mbind option_bind DirCache.user DirCache.set_user]. fold head tail noPools.
  rewrite ArgFacts.fold_include.
  set (ms := DirCache.matches4 head tail _).
  rewrite AggregateFacts.aggregate_includes_only.
  2:{ replace (map (fun m : Path * bool => (true, fst m)) ms)
        with (map (pair true) (map fst ms)) by (now rewrite map_map).
      apply (AggregateFacts.include_only_collect (map fst ms) noPools). }
  destruct (PoolFacts.collect_decodes (map (fun m => (true, fst m)) ms) noPools
              PoolFacts.pool_ok_noPools) as (_ & -> & _).
  cbn [included LuaGlob.poolIncludes noPools map app].
  subst ms. rewrite ArgFacts.matches4_paths.
  unfold DirCache.dirEntries2. rewrite ArgFacts.dirEntries1_fst.
  reflexivity.
Qed.

(** X27 at work on a concrete input. *)
Lemma lua_glob_one_level_pattern_witness :
  String.get 0 "*.txt" <> Some "!"%char /\
  isGlobPattern (fst (PathPrim.split "*.txt")) = false /\
  isRecursiveGlob (snd (PathPrim.split "*.txt")) = false /\
  isGlobPattern (snd (PathPrim.split "*.txt")) = true /\
  LuaGlob.lua_glob 1 [] tree_fs (Some (DirCache.new None tt)) (Some "root")
    [LuaGlob.LuaString "*.txt"]
  = LuaGlob.Returned ["a.txt"].
Proof.
  split; [discriminate|]. split; [reflexivity|]. split; [reflexivity|].
  split; [reflexivity|].
  rewrite (lua_glob_one_level_pattern 0 [] tree_fs (DirCache.new None tt) (Some "root")
             "*.txt"); [|discriminate|reflexivity|reflexivity|reflexivity].
  vm_compute. reflexivity.
Defined.

(** ** The command line *)

(** X28.  [parse_args] fails exactly when there is no argument, or when
    [-o] is the second and last one.  When it succeeds, the script, the
    [-o] pair if [opts.output] was set, and the arguments left for the
    script make up the command line again; and when [opts.output] is null
    the arguments left do not begin with [-o]. *)
Theorem parse_args_splits_the_command_line
    (opts opts' : ButtonLua.Options) (args rest : ButtonLua.Args) :
  (fst (fst (ButtonLua.parse_args opts args)) = true <->
   args <> [] /\ (forall s, args <> [s; "-o"])) /\
  (ButtonLua.parse_args opts args = (true, opts', rest) ->
   exists s,
     ButtonLua.script opts' = Some s /\
     args = (s :: match ButtonLua.output opts' with
                  | Some out => ["-o"; out]
                  | None => []
                  end ++ rest)%list /\
     (ButtonLua.output opts' = None -> forall rest', rest <> "-o" :: rest')).
Proof.
  unfold ButtonLua.parse_args. split.
  - destruct args as [|argv0 [|o [|out args3]]]; cbn [fst].
    + split; [discriminate|]. intros [H _]. congruence.
    + split; [|reflexivity]. intros _. split; [discriminate|]. intros s. discriminate.
    + destruct (String.eqb_spec o "-o") as [->|Hne]; cbn [fst].
      * split; [discriminate|]. intros [_ H]. now destruct (H argv0).
      * split; [|reflexivity]. intros _. split; [discriminate|].
        intros s [= _ Ho]. congruence.
    + split; [|destruct (String.eqb o "-o"); reflexivity].
      intros _. split; [discriminate|]. intros s. discriminate.
  - destruct args as [|argv0 [|o [|out args3]]].
    + discriminate.
    + intros [= <- <-]. exists argv0. simpl. repeat split. intros _ rest'. discriminate.
    + destruct (String.eqb_spec o "-o") as [->|Hne]; [discriminate|].
      intros [= <- <-]. exists argv0. simpl. repeat split.
      intros _ rest' [= Ho]. congruence.
    + destruct (String.eqb_spec o "-o") as [->|Hne].
      * intros [= <- <-]. exists argv0. simpl. repeat split. discriminate.
      * intros [= <- <-]. exists argv0. simpl. repeat split.
        intros _ rest' [= Ho]. congruence.
Qed.

(** X28 at work on a concrete input. *)
Lemma parse_args_splits_the_command_line_witness :
  ButtonLua.parse_args {| ButtonLua.script := None; ButtonLua.output := None |}
    ["build.lua"; "-o"; "rules.json"; "-v"]
  = (true, {| ButtonLua.script := Some "build.lua"; ButtonLua.output := Some "rules.json" |},
     ["-v"]) /\
  exists s,
    Some "build.lua" = Some s /\
    ["build.lua"; "-o"; "rules.json"; "-v"] = (s :: ["-o"; "rules.json"] ++ ["-v"])%list.
Proof.
  split; [reflexivity|].
  destruct (proj2 (parse_args_splits_the_command_line
              {| ButtonLua.script := None; ButtonLua.output := None |}
              {| ButtonLua.script := Some "build.lua"; ButtonLua.output := Some "rules.json" |}
              ["build.lua"; "-o"; "rules.json"; "-v"] ["-v"]) eq_refl) as (s & H1 & H2 & _).
  exists s. split; [exact H1|exact H2].
Defined.
